(** * A model of [advanced-vector/vector.h]

    [RawMemory<T>] owns a block of uninitialised storage; [Vector<T>] owns a
    [RawMemory<T>] and a count of live elements.  The development embeds both
    classes in a state-and-exception monad over an explicit heap and proves the
    exception-safety and functional properties of the vector.

    Modelling decisions, all visible in the definitions below:

    - a raw block is a [list (option T)]: [None] is an uninitialised slot,
      [Some v] a live object of value [v]; blocks live in a heap keyed by
      their address, [nullptr] is [None];
    - [Vector] objects live in an object store keyed by their identity, so
      that [this != &rhs] is an honest comparison;
    - the element type is abstract: a value-initialised value, the state a
      moved-from object is left in, and the three type traits the source
      inspects; whether the next fallible element operation (or allocation)
      throws is read from an oracle [throws] indexed by a counter of such
      operations, so "throws on its k-th invocation" is expressible;
    - destructors and [Swap] do not throw; an operation that throws has not
      modified its operands;
    - undefined behaviour (reading raw memory, a failed [assert], a pointer
      outside its block) is the outcome [Undef];
    - a [size_t] is a [nat]: a block of [2^63] objects cannot be allocated,
      so [size_ * 2] does not wrap on a vector that exists;
    - an iterator is a pointer; the iterator arguments of [Emplace], [Insert]
      and [Erase] are given by their offset from [begin()];
    - [std::uninitialized_*_n] destroy what they built when a constructor
      throws, in an order the standard leaves open; here in reverse order
      of construction. *)

From stdpp Require Import gmap list.

(** ** Exceptions, events, pointers *)

(** The operations of [T] that may throw. *)
Inductive elem_op :=
  | CopyCtor | MoveCtor | ValueCtor | ArgsCtor | CopyAssign | MoveAssign.

Inductive exn :=
  | bad_alloc
  | thrown (o : elem_op).

(** The constructor a call selects for the new element: the copy
    constructor for [const T &], the move constructor for [T &&], another
    one for other arguments. *)
Inductive ctor_kind := ByCopy | ByMove | ByArgs.

Definition ctor_op (c : ctor_kind) : elem_op :=
  match c with
  | ByCopy => CopyCtor
  | ByMove => MoveCtor
  | ByArgs => ArgsCtor
  end.

(** What happened, in order: allocation and release of blocks, construction
    and destruction of elements in a block, and of the local [T copy] of
    [EmplaceWithoutRelocation]. *)
Inductive event :=
  | EvAlloc (a n : nat)
  | EvFree (a : nat)
  | EvConstruct (a i : nat)
  | EvDestroy (a i : nat)
  | EvTmpCtor
  | EvTmpDtor.

(** A [T*]: the block it points into and the offset in that block. *)
Record ptr := Ptr { base : option nat; off : nat }.

Definition padd (p : ptr) (k : nat) : ptr := Ptr (base p) (off p + k).
Definition psub (p : ptr) (k : nat) : ptr := Ptr (base p) (off p - k).

(** [RawMemory<T>]: [buffer_] and [capacity_]. *)
Record RawMemory := mkRaw { buffer_ : option nat; capacity_ : nat }.

(** [Vector<T>]: [data_] and [size_]. *)
Record Vector := mkVec { data_ : RawMemory; size_ : nat }.

(** What a public member function hands back. *)
Inductive retval :=
  | RVoid
  | RRef (p : ptr)
  | RIter (p : ptr)
  | RSize (n : nat)
  | RObj (id : nat).

(** Oracles for the examples: no operation throws; the operation at tick
    [n] throws.  And the vectors of the examples, by block, capacity and
    size. *)
Definition never : nat -> bool := fun _ => false.

Definition fails_at (n : nat) : nat -> bool := fun k => k =? n.

Definition vec3 : Vector := mkVec (mkRaw (Some 0) 3) 3.

Definition vec2 : Vector := mkVec (mkRaw (Some 0) 2) 2.

Definition vec2of3 : Vector := mkVec (mkRaw (Some 0) 3) 2.

Definition small1 : Vector := mkVec (mkRaw (Some 0) 1) 1.

Definition big3 : Vector := mkVec (mkRaw (Some 1) 3) 3.

#[global] Instance elem_op_eq_dec : EqDecision elem_op.
Proof. solve_decision. Defined.
#[global] Instance exn_eq_dec : EqDecision exn.
Proof. solve_decision. Defined.
#[global] Instance event_eq_dec : EqDecision event.
Proof. solve_decision. Defined.
#[global] Instance ptr_eq_dec : EqDecision ptr.
Proof. solve_decision. Defined.

Section Model.

(** The element type and what the vector needs to know about it. *)
Context {T : Type}.
Variable T_default : T.                      (* the value of [T()] *)
Variable moved_from : T -> T.                (* what a move leaves behind *)
Variable nothrow_move_constructible : bool.  (* std::is_nothrow_move_constructible_v<T> *)
Variable copy_constructible : bool.          (* std::is_copy_constructible_v<T> *)
Variable nothrow_move_assignable : bool.     (* std::is_nothrow_move_assignable_v<T> *)
(** [throws k]: the [k]-th fallible operation (counted from 0) throws. *)
Variable throws : nat -> bool.
(** [sizeof(T)], in bytes: at least one. *)
Variable sizeof_T : positive.

Record World := mkWorld {
  objs : gmap nat Vector;
  heap : gmap nat (list (option T));
  tick : nat;
  log : list event
}.

Definition set_objs (o : gmap nat Vector) (w : World) : World :=
  mkWorld o (heap w) (tick w) (log w).
Definition set_heap (h : gmap nat (list (option T))) (w : World) : World :=
  mkWorld (objs w) h (tick w) (log w).
Definition add_tick (w : World) : World :=
  mkWorld (objs w) (heap w) (S (tick w)) (log w).
Definition add_log (e : event) (w : World) : World :=
  mkWorld (objs w) (heap w) (tick w) (log w ++ [e]).
Arguments set_objs _ _ /.
Arguments set_heap _ _ /.
Arguments add_tick _ /.
Arguments add_log _ _ /.

(** ** The monad: state, exceptions, undefined behaviour *)

Inductive Res (A : Type) :=
  | Ret (a : A) (w : World)
  | Raise (e : exn) (w : World)
  | Undef.
Arguments Ret {A} a w.
Arguments Raise {A} e w.
Arguments Undef {A}.

Definition M (A : Type) : Type := World -> Res A.

Definition ret {A} (a : A) : M A := fun w => Ret a w.
Definition bind {A B} (m : M A) (k : A -> M B) : M B :=
  fun w => match m w with
           | Ret a w' => k a w'
           | Raise e w' => Raise e w'
           | Undef => Undef
           end.
Definition raise {A} (e : exn) : M A := fun w => Raise e w.
Definition undef {A} : M A := fun _ => Undef.
(** [try { m } catch (...) { h }] *)
Definition catch {A} (m : M A) (h : exn -> M A) : M A :=
  fun w => match m w with
           | Raise e w' => h e w'
           | r => r
           end.

Notation "x <- m ;; k" := (bind m (fun x => k))
  (at level 100, m at next level, right associativity).
Notation "m ;;; k" := (bind m (fun _ => k))
  (at level 100, right associativity).

(** [m] runs; if it throws, [c] runs while the stack unwinds and the
    exception goes on: a [catch (...) { c; throw; }], or the destructor
    of a local object. *)
Definition on_unwind {A} (m : M A) (c : M unit) : M A :=
  catch m (fun e => c ;;; raise e).

Definition modify (f : World -> World) : M unit := fun w => Ret tt (f w).
Definition emit (e : event) : M unit := modify (add_log e).

(** A fallible step: nothing happens when it is [noexcept]; otherwise the
    oracle is asked and the counter advances. *)
Definition may_throw (nothrow : bool) (e : exn) : M unit :=
  if nothrow then ret tt
  else fun w => if throws (tick w) then Raise e (add_tick w) else Ret tt (add_tick w).

(** ** Memory *)

(** The slot [p] points to; [Undef] outside a live block. *)
Definition slot (p : ptr) : M (option T) :=
  fun w => match base p with
           | Some a => match heap w !! a with
                       | Some blk => match blk !! off p with
                                     | Some s => Ret s w
                                     | None => Undef
                                     end
                       | None => Undef
                       end
           | None => Undef
           end.

(** Writing the slot [p] points to; [Undef] outside a live block. *)
Definition store (p : ptr) (s : option T) : M unit :=
  fun w => match base p with
           | Some a => match heap w !! a with
                       | Some blk =>
                           if decide (off p < length blk)
                           then Ret tt (set_heap (<[a := <[off p := s]> blk]> (heap w)) w)
                           else Undef
                       | None => Undef
                       end
           | None => Undef
           end.

Definition block_addr (p : ptr) : M nat :=
  match base p with Some a => ret a | None => undef end.

(** Reading an object: the slot must hold one. *)
Definition load (p : ptr) : M T :=
  s <- slot p ;;
  match s with Some v => ret v | None => undef end.

(** Placement new, once the constructor has produced [v]. *)
Definition construct_at (p : ptr) (v : T) : M unit :=
  a <- block_addr p ;;
  store p (Some v) ;;;
  emit (EvConstruct a (off p)).

(** [std::destroy_at(p)] / [p->~T()] *)
Definition destroy_at (p : ptr) : M unit :=
  a <- block_addr p ;;
  _ <- load p ;;
  store p None ;;;
  emit (EvDestroy a (off p)).

(** ** Operations of T *)

(** Copy construction at [dst] from the object at [src]. *)
Definition copy_construct (dst src : ptr) : M unit :=
  v <- load src ;;
  may_throw false (thrown CopyCtor) ;;;
  construct_at dst v.

(** Move construction at [dst] from the object at [src]. *)
Definition move_construct (dst src : ptr) : M unit :=
  v <- load src ;;
  may_throw nothrow_move_constructible (thrown MoveCtor) ;;;
  construct_at dst v ;;;
  store src (Some (moved_from v)).

(** [new (dst) T()] *)
Definition value_construct (dst : ptr) : M unit :=
  may_throw false (thrown ValueCtor) ;;;
  construct_at dst T_default.

(** Whether the constructor selected by the arguments is [noexcept]:
    only a move construction can be known to be. *)
Definition ctor_nothrow (via : ctor_kind) : bool :=
  match via with
  | ByMove => nothrow_move_constructible
  | _ => false
  end.

(** [new (dst) T(std::forward<Args>(args)...)], where the constructor
    selected is [via] and the object it builds has value [v]. *)
Definition args_construct (via : ctor_kind) (dst : ptr) (v : T) : M unit :=
  may_throw (ctor_nothrow via) (thrown (ctor_op via)) ;;;
  construct_at dst v.

(** Copy assignment of the object at [src] to the one at [dst]. *)
Definition copy_assign (dst src : ptr) : M unit :=
  v <- load src ;;
  _ <- load dst ;;
  may_throw false (thrown CopyAssign) ;;;
  store dst (Some v).

(** Move assignment of the object at [src] to the one at [dst]. *)
Definition move_assign (dst src : ptr) : M unit :=
  v <- load src ;;
  _ <- load dst ;;
  may_throw nothrow_move_assignable (thrown MoveAssign) ;;;
  store dst (Some v) ;;;
  store src (Some (moved_from v)).

(** ** Standard algorithms *)

(** [std::destroy_n]: first to last. *)
Fixpoint destroy_n (first : ptr) (n : nat) : M unit :=
  match n with
  | 0 => ret tt
  | S n' => destroy_at first ;;; destroy_n (padd first 1) n'
  end.

(** The common loop of [std::uninitialized_copy_n] and
    [std::uninitialized_move_n], as the library has it: [cur] runs from
    [result], one constructor call per step, inside a [try] block whose
    handler destroys the objects of [[result, cur)], first to last, and
    rethrows.  [built] is [cur - result]. *)
Fixpoint uninitialized_loop (ctor : ptr -> ptr -> M unit)
    (first : ptr) (n : nat) (result : ptr) (built : nat) : M unit :=
  match n with
  | 0 => ret tt
  | S n' =>
      on_unwind (ctor (padd result built) first) (destroy_n result built) ;;;
      uninitialized_loop ctor (padd first 1) n' result (S built)
  end.

Definition uninitialized_n (ctor : ptr -> ptr -> M unit)
    (first : ptr) (n : nat) (result : ptr) : M unit :=
  uninitialized_loop ctor first n result 0.

Definition uninitialized_copy_n := uninitialized_n copy_construct.
Definition uninitialized_move_n := uninitialized_n move_construct.

(** [std::uninitialized_value_construct_n], with the same handler. *)
Fixpoint uninitialized_value_construct_loop (first : ptr) (n built : nat) : M unit :=
  match n with
  | 0 => ret tt
  | S n' =>
      on_unwind (value_construct (padd first built)) (destroy_n first built) ;;;
      uninitialized_value_construct_loop first n' (S built)
  end.

Definition uninitialized_value_construct_n (first : ptr) (n : nat) : M unit :=
  uninitialized_value_construct_loop first n 0.

(** [std::copy_n]: element-wise copy assignment, forward. *)
Fixpoint copy_n (first : ptr) (n : nat) (result : ptr) : M unit :=
  match n with
  | 0 => ret tt
  | S n' => copy_assign result first ;;; copy_n (padd first 1) n' (padd result 1)
  end.

(** [std::move(first, first + n, d_first)]: move assignment, forward. *)
Fixpoint move_n (first : ptr) (n : nat) (d_first : ptr) : M unit :=
  match n with
  | 0 => ret tt
  | S n' => move_assign d_first first ;;; move_n (padd first 1) n' (padd d_first 1)
  end.

(** [std::move(first, last, d_first)]; [last] before [first] is not a
    range. *)
Definition std_move (first last d_first : ptr) : M unit :=
  if off last <? off first then undef
  else move_n first (off last - off first) d_first.

(** [std::move_backward(first, first + n, d_first + n)]: move assignment
    from the last element down to the first. *)
Fixpoint move_backward_n (first : ptr) (n : nat) (d_first : ptr) : M unit :=
  match n with
  | 0 => ret tt
  | S n' => move_assign (padd d_first n') (padd first n') ;;;
            move_backward_n first n' d_first
  end.

Definition move_backward (first last d_last : ptr) : M unit :=
  if off last <? off first then undef
  else move_backward_n first (off last - off first)
         (psub d_last (off last - off first)).

(** ** RawMemory *)

(** [size_t] has 64 bits. *)
Definition size_t_modulus : N := Eval cbv in (2 ^ 64)%N.

(** [n * sizeof(T)] as the code computes it, in [size_t]: the product
    wraps around, and nothing checks it. *)
Definition bytes_for (n : nat) : N :=
  ((N.of_nat n * Npos sizeof_T) mod size_t_modulus)%N.

(** The objects of type [T] a block of that many bytes has room for. *)
Definition slots (n : nat) : nat := N.to_nat (bytes_for n / Npos sizeof_T).

(** [Allocate]: [nullptr] for no elements; otherwise
    [operator new(n * sizeof(T))], which throws [std::bad_alloc] or hands
    out a fresh block of the bytes it was asked for: [slots n]
    uninitialised slots, which are [n] only when the product did not
    wrap. *)
Definition Allocate (n : nat) : M (option nat) :=
  if n =? 0 then ret None
  else
    may_throw false bad_alloc ;;;
    fun w =>
      let a := fresh (dom (heap w)) in
      Ret (Some a)
          (add_log (EvAlloc a n)
             (set_heap (<[a := replicate (slots n) None]> (heap w)) w)).

(** [Deallocate]: [operator delete]; nothing for [nullptr]. *)
Definition Deallocate (buf : option nat) : M unit :=
  match buf with
  | None => ret tt
  | Some a =>
      fun w => match heap w !! a with
               | Some _ => Ret tt (add_log (EvFree a) (set_heap (delete a (heap w)) w))
               | None => Undef
               end
  end.

Definition RawMemory_default : RawMemory := mkRaw None 0.

(** [explicit RawMemory(size_t capacity)] *)
Definition RawMemory_ctor (capacity : nat) : M RawMemory :=
  b <- Allocate capacity ;;
  ret (mkRaw b capacity).

(** [~RawMemory()] *)
Definition RawMemory_dtor (r : RawMemory) : M unit := Deallocate (buffer_ r).

(** [operator+]: the address one past the last slot is allowed. *)
Definition RawMemory_plus (r : RawMemory) (offset : nat) : M ptr :=
  if offset <=? capacity_ r then ret (Ptr (buffer_ r) offset) else undef.

(** [operator[]] *)
Definition RawMemory_at (r : RawMemory) (index : nat) : M ptr :=
  if index <? capacity_ r then ret (Ptr (buffer_ r) index) else undef.

Definition GetAddress (r : RawMemory) : ptr := Ptr (buffer_ r) 0.

(** ** Vector *)

Definition get_obj (this : nat) : M Vector :=
  fun w => match objs w !! this with
           | Some v => Ret v w
           | None => Undef
           end.

Definition put_obj (this : nat) (v : Vector) : M unit :=
  modify (fun w => set_objs (<[this := v]> (objs w)) w).

(** A new [Vector] object comes to life under a fresh identity. *)
Definition new_obj (v : Vector) : M nat :=
  fun w => let id := fresh (dom (objs w)) in Ret id (set_objs (<[id := v]> (objs w)) w).

Definition del_obj (this : nat) : M unit :=
  modify (fun w => set_objs (delete this (objs w)) w).

Definition Vector_empty : Vector := mkVec RawMemory_default 0.

Definition begin_ (v : Vector) : ptr := GetAddress (data_ v).
Definition end_ (v : Vector) : ptr := padd (GetAddress (data_ v)) (size_ v).

(** The branch [MoveIfItsPossible] takes, fixed by the element type. *)
Definition moves_elements : bool :=
  nothrow_move_constructible || negb copy_constructible.

Definition MoveIfItsPossible (data : ptr) (size : nat) (new_data : ptr) : M unit :=
  if moves_elements
  then uninitialized_move_n data size new_data
  else uninitialized_copy_n data size new_data.

Definition DestroyN (buf : ptr) (n : nat) : M unit := destroy_n buf n.

(** [Vector() = default] *)
Definition Vector_default : M nat := new_obj Vector_empty.

(** [explicit Vector(size_t size)]; if an element constructor throws, the
    member [data_] is destroyed and no object comes to life. *)
Definition Vector_sized (size : nat) : M nat :=
  d <- RawMemory_ctor size ;;
  on_unwind (uninitialized_value_construct_n (GetAddress d) size)
            (RawMemory_dtor d) ;;;
  new_obj (mkVec d size).

(** [Vector(const Vector &other)] *)
Definition Vector_copy (other : nat) : M nat :=
  o <- get_obj other ;;
  d <- RawMemory_ctor (size_ o) ;;
  on_unwind (uninitialized_copy_n (GetAddress (data_ o)) (size_ o) (GetAddress d))
            (RawMemory_dtor d) ;;;
  new_obj (mkVec d (size_ o)).

(** [Swap]: [data_.Swap(other.data_)], then [std::swap(size_, other.size_)]. *)
Definition Swap (this other : nat) : M unit :=
  t <- get_obj this ;;
  o <- get_obj other ;;
  put_obj this (mkVec (data_ o) (size_ t)) ;;;
  put_obj other (mkVec (data_ t) (size_ o)) ;;;
  t <- get_obj this ;;
  o <- get_obj other ;;
  put_obj this (mkVec (data_ t) (size_ o)) ;;;
  put_obj other (mkVec (data_ o) (size_ t)).

(** [Vector(Vector &&other) noexcept] *)
Definition Vector_move (other : nat) : M nat :=
  _ <- get_obj other ;;
  this <- new_obj Vector_empty ;;
  Swap this other ;;;
  ret this.

(** [~Vector()], followed by the destructor of the member [data_]. *)
Definition Vector_dtor (this : nat) : M unit :=
  t <- get_obj this ;;
  DestroyN (GetAddress (data_ t)) (size_ t) ;;;
  RawMemory_dtor (data_ t) ;;;
  del_obj this.

(** The same for a local [Vector] that is not in the object store. *)
Definition Vector_dtor_local (t : Vector) : M unit :=
  DestroyN (GetAddress (data_ t)) (size_ t) ;;;
  RawMemory_dtor (data_ t).

(** [Vector &operator=(const Vector &rhs)] *)
Definition Vector_copy_assign (this rhs : nat) : M unit :=
  if decide (this = rhs) then ret tt
  else
    t <- get_obj this ;;
    r <- get_obj rhs ;;
    if capacity_ (data_ t) <? size_ r then
      (* Vector rhs_copy(rhs); Swap(rhs_copy); and rhs_copy goes out of scope *)
      d <- RawMemory_ctor (size_ r) ;;
      on_unwind (uninitialized_copy_n (GetAddress (data_ r)) (size_ r) (GetAddress d))
                (RawMemory_dtor d) ;;;
      put_obj this (mkVec d (size_ r)) ;;;
      Vector_dtor_local t
    else
      copy_n (GetAddress (data_ r)) (size_ r `min` size_ t) (GetAddress (data_ t)) ;;;
      (if size_ r <? size_ t then
         destroy_n (padd (GetAddress (data_ t)) (size_ r)) (size_ t - size_ r)
       else
         uninitialized_copy_n (padd (GetAddress (data_ r)) (size_ t))
           (size_ r - size_ t) (padd (GetAddress (data_ t)) (size_ t))) ;;;
      put_obj this (mkVec (data_ t) (size_ r)).

(** [Vector &operator=(Vector &&rhs) noexcept] *)
Definition Vector_move_assign (this rhs : nat) : M unit :=
  if decide (this = rhs) then ret tt else Swap this rhs.

(** [void Reserve(size_t new_capacity)]; the local [new_data] is destroyed
    on every way out: holding the new block when the transfer throws, the
    old one after the swap. *)
Definition Reserve (this new_capacity : nat) : M unit :=
  t <- get_obj this ;;
  if new_capacity <=? capacity_ (data_ t) then ret tt
  else
    new_data <- RawMemory_ctor new_capacity ;;
    on_unwind (MoveIfItsPossible (GetAddress (data_ t)) (size_ t) (GetAddress new_data))
              (RawMemory_dtor new_data) ;;;
    destroy_n (GetAddress (data_ t)) (size_ t) ;;;
    put_obj this (mkVec new_data (size_ t)) ;;;
    RawMemory_dtor (data_ t).

Definition Size (this : nat) : M nat :=
  t <- get_obj this ;; ret (size_ t).

Definition Capacity (this : nat) : M nat :=
  t <- get_obj this ;; ret (capacity_ (data_ t)).

(** [T &operator[](size_t index)] *)
Definition Vector_at (this index : nat) : M ptr :=
  t <- get_obj this ;;
  if index <? size_ t then RawMemory_at (data_ t) index else undef.

(** [void Resize(size_t new_size)] *)
Definition Resize (this new_size : nat) : M unit :=
  t <- get_obj this ;;
  (if new_size <? size_ t then
     destroy_n (padd (GetAddress (data_ t)) new_size) (size_ t - new_size)
   else
     Reserve this new_size ;;;
     t' <- get_obj this ;;
     uninitialized_value_construct_n (padd (GetAddress (data_ t')) (size_ t'))
       (new_size - size_ t')) ;;;
  t' <- get_obj this ;;
  put_obj this (mkVec (data_ t') new_size).

(** [void PopBack() noexcept]: [--size_] on an empty vector wraps around
    and the pointer leaves the block. *)
Definition PopBack (this : nat) : M unit :=
  t <- get_obj this ;;
  if size_ t =? 0 then undef
  else
    put_obj this (mkVec (data_ t) (size_ t - 1)) ;;;
    p <- RawMemory_plus (data_ t) (size_ t - 1) ;;
    destroy_at p.

Definition EmplaceWithRelocation (this index : nat) (via : ctor_kind) (v : T) : M ptr :=
  t <- get_obj this ;;
  new_data <- RawMemory_ctor (if size_ t =? 0 then 1 else size_ t * 2) ;;
  on_unwind
    (p <- RawMemory_plus new_data index ;;
     args_construct via p v ;;;
     catch (MoveIfItsPossible (GetAddress (data_ t)) index (GetAddress new_data))
           (fun e => q <- RawMemory_at new_data index ;; destroy_at q ;;; raise e) ;;;
     catch (q <- RawMemory_plus new_data (index + 1) ;;
            MoveIfItsPossible (padd (GetAddress (data_ t)) index) (size_ t - index) q)
           (fun e => destroy_n (GetAddress new_data) (index + 1) ;;; raise e))
    (RawMemory_dtor new_data) ;;;
  destroy_n (GetAddress (data_ t)) (size_ t) ;;;
  put_obj this (mkVec new_data (S (size_ t))) ;;;
  RawMemory_dtor (data_ t) ;;;
  ret (padd (GetAddress new_data) index).

Definition EmplaceWithoutRelocation (this index : nat) (via : ctor_kind) (v : T) : M ptr :=
  t <- get_obj this ;;
  (if index =? size_ t then
     p <- RawMemory_plus (data_ t) (size_ t) ;;
     args_construct via p v
   else
     (* T copy(args...), destroyed on every way out *)
     may_throw (ctor_nothrow via) (thrown (ctor_op via)) ;;;
     emit EvTmpCtor ;;;
     on_unwind
       (p <- RawMemory_plus (data_ t) (size_ t) ;;
        q <- RawMemory_at (data_ t) (size_ t - 1) ;;
        move_construct p q ;;;
        move_backward (padd (begin_ t) index) (psub (end_ t) 1) (end_ t) ;;;
        q <- RawMemory_at (data_ t) index ;;
        _ <- load q ;;
        may_throw nothrow_move_assignable (thrown MoveAssign) ;;;
        store q (Some v))
       (emit EvTmpDtor) ;;;
     emit EvTmpDtor) ;;;
  put_obj this (mkVec (data_ t) (S (size_ t))) ;;;
  ret (padd (begin_ t) index).

(** [iterator Emplace(const_iterator pos, Args &&...args)], with
    [index = pos - begin()]; a position outside [[begin(), end()]] is not
    an iterator of this vector. *)
Definition Emplace (this index : nat) (via : ctor_kind) (v : T) : M ptr :=
  t <- get_obj this ;;
  if size_ t <? index then undef
  else if size_ t =? capacity_ (data_ t)
       then EmplaceWithRelocation this index via v
       else EmplaceWithoutRelocation this index via v.

(** [T &EmplaceBack(Args &&...args)]: the element [Emplace(end(), args...)]
    points at. *)
Definition EmplaceBack (this : nat) (via : ctor_kind) (v : T) : M ptr :=
  t <- get_obj this ;;
  Emplace this (size_ t) via v.

(** [void PushBack(const T &value)] and [void PushBack(T &&value)] *)
Definition PushBack (this : nat) (via : ctor_kind) (v : T) : M unit :=
  _ <- EmplaceBack this via v ;;
  ret tt.

(** [iterator Insert(const_iterator pos, const T &value)] and
    [iterator Insert(const_iterator pos, T &&value)] *)
Definition Insert (this index : nat) (via : ctor_kind) (v : T) : M ptr :=
  Emplace this index via v.

(** [iterator Erase(const_iterator pos)], with [position = pos - begin()];
    [pos] must point at an element. *)
Definition Erase (this position : nat) : M ptr :=
  t <- get_obj this ;;
  if size_ t <=? position then undef
  else
    std_move (padd (padd (begin_ t) position) 1) (end_ t) (padd (begin_ t) position) ;;;
    q <- RawMemory_at (data_ t) (size_ t - 1) ;;
    destroy_at q ;;;
    put_obj this (mkVec (data_ t) (size_ t - 1)) ;;;
    ret (padd (begin_ t) position).

(** ** The public interface

    One constructor per public member function, with the identity of the
    vector it is called on; [exec] runs it and wraps what it returns. *)
Inductive Op :=
  | OpDefault
  | OpSized (n : nat)
  | OpCopy (other : nat)
  | OpMove (other : nat)
  | OpDtor (this : nat)
  | OpCopyAssign (this rhs : nat)
  | OpMoveAssign (this rhs : nat)
  | OpSwap (this other : nat)
  | OpReserve (this n : nat)
  | OpResize (this n : nat)
  | OpSize (this : nat)
  | OpCapacity (this : nat)
  | OpAt (this index : nat)
  | OpPushBack (this : nat) (via : ctor_kind) (v : T)
  | OpEmplaceBack (this : nat) (via : ctor_kind) (v : T)
  | OpPopBack (this : nat)
  | OpInsert (this pos : nat) (via : ctor_kind) (v : T)
  | OpEmplace (this pos : nat) (via : ctor_kind) (v : T)
  | OpErase (this pos : nat).

Definition returning {A} (f : A -> retval) (m : M A) : M retval :=
  a <- m ;; ret (f a).

Definition exec (op : Op) : M retval :=
  match op with
  | OpDefault => returning RObj Vector_default
  | OpSized n => returning RObj (Vector_sized n)
  | OpCopy other => returning RObj (Vector_copy other)
  | OpMove other => returning RObj (Vector_move other)
  | OpDtor this => returning (fun _ => RVoid) (Vector_dtor this)
  | OpCopyAssign this rhs => returning (fun _ => RObj this) (Vector_copy_assign this rhs)
  | OpMoveAssign this rhs => returning (fun _ => RObj this) (Vector_move_assign this rhs)
  | OpSwap this other => returning (fun _ => RVoid) (Swap this other)
  | OpReserve this n => returning (fun _ => RVoid) (Reserve this n)
  | OpResize this n => returning (fun _ => RVoid) (Resize this n)
  | OpSize this => returning RSize (Size this)
  | OpCapacity this => returning RSize (Capacity this)
  | OpAt this index => returning RRef (Vector_at this index)
  | OpPushBack this via v => returning (fun _ => RVoid) (PushBack this via v)
  | OpEmplaceBack this via v => returning RRef (EmplaceBack this via v)
  | OpPopBack this => returning (fun _ => RVoid) (PopBack this)
  | OpInsert this pos via v => returning RIter (Insert this pos via v)
  | OpEmplace this pos via v => returning RIter (Emplace this pos via v)
  | OpErase this pos => returning RIter (Erase this pos)
  end.

(** The worlds a program can be in: it starts with no vector and calls
    public member functions, within their preconditions (a call with
    undefined behaviour leads nowhere).  A call may throw; [allowed] says
    which throwing calls are followed. *)
Inductive reachable (allowed : Op -> exn -> Prop) : World -> Prop :=
  | reach_init : reachable allowed (mkWorld ∅ ∅ 0 [])
  | reach_ret w op r w' :
      reachable allowed w -> exec op w = Ret r w' -> reachable allowed w'
  | reach_raise w op e w' :
      reachable allowed w -> exec op w = Raise e w' -> allowed op e ->
      reachable allowed w'.

(** An [Insert] or [Emplace] out of which an exception of an element's
    move assignment escapes. *)
Definition insert_leak (op : Op) (e : exn) : Prop :=
  e = thrown MoveAssign /\
  match op with
  | OpInsert _ _ _ _ | OpEmplace _ _ _ _ => True
  | _ => False
  end.

(** The operations that are said never to lower the capacity, called on
    [this]. *)
Definition keeps_capacity (op : Op) (this : nat) : Prop :=
  match op with
  | OpReserve t _ | OpResize t _ | OpPushBack t _ _ | OpEmplaceBack t _ _
  | OpPopBack t | OpInsert t _ _ _ | OpEmplace t _ _ _ | OpErase t _
  | OpCopyAssign t _ => t = this
  | _ => False
  end.

(** ** The vocabulary of the specifications *)

(** [wp m w Q E]: run from [w], [m] has defined behaviour, and it either
    returns a value and a world satisfying [Q] or throws an exception
    and leaves a world satisfying [E]. *)
Definition wp {A} (m : M A) (w : World)
    (Q : A -> World -> Prop) (E : exn -> World -> Prop) : Prop :=
  match m w with
  | Ret a w' => Q a w'
  | Raise e w' => E e w'
  | Undef => False
  end.

(** The same, for a call whose behaviour may be undefined: it is, only
    when [U] holds. *)
Definition spec {A} (m : M A) (w : World)
    (Q : A -> World -> Prop) (E : exn -> World -> Prop) (U : Prop) : Prop :=
  match m w with
  | Ret a w' => Q a w'
  | Raise e w' => E e w'
  | Undef => U
  end.

(** [n] objects take fewer bytes than a [size_t] can count: the product
    [n * sizeof(T)] does not wrap. *)
Definition fits (n : nat) : Prop :=
  (N.of_nat n * Npos sizeof_T < size_t_modulus)%N.

(** None of the [n] fallible operations from the [t]-th on throws. *)
Definition no_throw (t n : nat) : Prop := forall i, i < n -> throws (t + i) = false.

(** The first of them to throw is the one at distance [k]. *)
Definition first_throw (t k : nat) : Prop := no_throw t k /\ throws (t + k) = true.

(** What asking the oracle costs: nothing for a [noexcept] operation. *)
Definition cost (nothrow : bool) : nat := if nothrow then 0 else 1.

(** The block a possibly null pointer leads to, and its replacement. *)
Definition blk_at (h : gmap nat (list (option T))) (b : option nat)
    (blk : list (option T)) : Prop :=
  match b with Some a => h !! a = Some blk | None => blk = [] end.

Definition upd_blk (b : option nat) (blk : list (option T))
    (h : gmap nat (list (option T))) : gmap nat (list (option T)) :=
  match b with Some a => <[a := blk]> h | None => h end.

Definition addr_of (b : option nat) : nat := default 0 b.

Definition distinct (b b' : option nat) : Prop :=
  forall a, b = Some a -> b' = Some a -> False.

(** [blk] holds the objects [xs] from offset [i] on. *)
Definition vals_at (blk : list (option T)) (i : nat) (xs : list T) : Prop :=
  forall k x, xs !! k = Some x -> blk !! (i + k) = Some (Some x).

(** The [n] slots of [blk] from offset [j] on are uninitialised. *)
Definition raw_range (blk : list (option T)) (j n : nat) : Prop :=
  forall k, k < n -> blk !! (j + k) = Some None.

(** What [MoveIfItsPossible] leaves in a source slot, and what it throws. *)
Definition xfer_after (x : T) : option T :=
  if moves_elements then Some (moved_from x) else Some x.

Definition xfer_exn : exn :=
  if moves_elements then thrown MoveCtor else thrown CopyCtor.

(** The [n] slots of [blk] from offset [i] on hold objects. *)
Definition live_range (blk : list (option T)) (i n : nat) : Prop :=
  forall k, k < n -> exists x, blk !! (i + k) = Some (Some x).

(** Releasing the block a possibly null pointer leads to. *)
Definition free_blk (b : option nat) (h : gmap nat (list (option T))) :
    gmap nat (list (option T)) :=
  match b with Some a => delete a h | None => h end.

Definition free_ev (b : option nat) : list event :=
  match b with Some a => [EvFree a] | None => [] end.

(** [v] holds the elements [xs]: they are the live objects of the first
    [size_] slots of its block, and the other slots, up to [capacity_],
    are uninitialised. *)
Definition full_blk (xs : list T) (cap : nat) : list (option T) :=
  (Some <$> xs) ++ replicate (cap - length xs) None.

Definition vec_repr (h : gmap nat (list (option T))) (v : Vector) (xs : list T) : Prop :=
  length xs = size_ v /\
  size_ v <= capacity_ (data_ v) /\
  blk_at h (buffer_ (data_ v)) (full_blk xs (capacity_ (data_ v))).

(** The old block after [m] of its elements have been transferred. *)
Definition src_after (m : nat) (xs : list T) (cap : nat) : list (option T) :=
  list_inserts 0 (xfer_after <$> take m xs) (full_blk xs cap).

(** The capacity [EmplaceWithRelocation] asks for. *)
Definition grown (size : nat) : nat := if size =? 0 then 1 else size * 2.

(** A block whose first slots hold the objects [zs]. *)
Definition live_blk (zs : list T) (rest : list (option T)) : list (option T) :=
  (Some <$> zs) ++ rest.

(** One step of [std::move] towards the front: the element after position
    [p] is move-assigned to position [p]. *)
Definition fwd_step (p : nat) (zs : list T) : list T :=
  match zs !! S p with
  | Some x => <[S p := moved_from x]> (<[p := x]> zs)
  | None => zs
  end.

(** [n] such steps, starting at position [p]. *)
Fixpoint shl_steps (p n : nat) (zs : list T) : list T :=
  match n with
  | 0 => zs
  | S n' => shl_steps (S p) n' (fwd_step p zs)
  end.

(** One step of [std::move_backward]: the element at position [q] is
    move-assigned to the position after it. *)
Definition bwd_step (q : nat) (zs : list T) : list T :=
  match zs !! q with
  | Some x => <[q := moved_from x]> (<[S q := x]> zs)
  | None => zs
  end.

(** [n] such steps for the elements at [p .. p + n - 1], last one first. *)
Fixpoint shr_steps (p n : nat) (zs : list T) : list T :=
  match n with
  | 0 => zs
  | S n' => shr_steps p n' (bwd_step (p + n') zs)
  end.

(** The number of times [EmplaceWithoutRelocation] asks the oracle when
    nothing throws. *)
Definition inplace_cost (via : ctor_kind) (index size : nat) : nat :=
  cost (ctor_nothrow via) +
  (if decide (index = size) then 0
   else cost nothrow_move_constructible +
        cost nothrow_move_assignable * (size - index)).

Definition inplace_log (a index size : nat) : list event :=
  if decide (index = size) then [EvConstruct a size]
  else [EvTmpCtor; EvConstruct a size; EvTmpDtor].

(** Every vector holds some sequence of elements: the first [size_] slots
    of its block are live and the others are not. *)
Definition vec_inv (h : gmap nat (list (option T))) (v : Vector) : Prop :=
  exists xs, vec_repr h v xs.

(** ... and no two vectors share a block. *)
Definition Inv (w : World) : Prop :=
  (forall id v, objs w !! id = Some v -> vec_inv (heap w) v) /\
  (forall id1 id2 v1 v2 a,
     objs w !! id1 = Some v1 -> objs w !! id2 = Some v2 ->
     buffer_ (data_ v1) = Some a -> buffer_ (data_ v2) = Some a -> id1 = id2).

(** The invariant as the data model words it. *)
Definition live_prefix (h : gmap nat (list (option T))) (v : Vector) : Prop :=
  size_ v <= capacity_ (data_ v) /\
  exists blk, blk_at h (buffer_ (data_ v)) blk /\
    length blk = capacity_ (data_ v) /\
    (forall i, i < size_ v -> exists x, blk !! i = Some (Some x)) /\
    (forall i, size_ v <= i < capacity_ (data_ v) -> blk !! i = Some None).

(** What an operation on the vector [this] may change: the heap away from
    the blocks [b] and [b'] of the vector before and after is untouched,
    and [b'] is [b], null, or a block that did not exist. *)
Definition frame (h h' : gmap nat (list (option T))) (b b' : option nat) : Prop :=
  (forall c, b <> Some c -> b' <> Some c -> h' !! c = h !! c) /\
  (b' = b \/ b' = None \/ exists a', b' = Some a' /\ h !! a' = None).

(** The world [w'] differs from the store [o] and heap [h] by an update
    of the vector [this], which was [v], to a well-formed vector of at
    least the same capacity. *)
Definition updated (this : nat) (v : Vector) (o : gmap nat Vector)
    (h : gmap nat (list (option T))) (w' : World) : Prop :=
  exists v' xs',
    objs w' = <[this := v']> o /\
    vec_repr (heap w') v' xs' /\
    capacity_ (data_ v) <= capacity_ (data_ v') /\
    frame h (heap w') (buffer_ (data_ v)) (buffer_ (data_ v')).

(** The value a transferred element leaves behind. *)
Definition xfer_val (x : T) : T := if moves_elements then moved_from x else x.

(** The block of the vector registered as [this], if there is one. *)
Definition buf_of (o : gmap nat Vector) (this : nat) : option nat :=
  match o !! this with
  | Some v => buffer_ (data_ v)
  | None => None
  end.

(** What is known of the outcome of a call, whether it returns or throws;
    nothing is claimed of a call with undefined behaviour. *)
Definition outcome_ok {A} (r : Res A)
    (Q : A -> World -> Prop) (E : exn -> World -> Prop) : Prop :=
  match r with
  | Ret a w' => Q a w'
  | Raise e w' => E e w'
  | Undef => True
  end.

(** The vector [this] of the store [o] is still there in [w'], with at
    least the capacity it had. *)
Definition grows (o : gmap nat Vector) (w' : World) (this : nat) : Prop :=
  forall v, o !! this = Some v ->
    exists v', objs w' !! this = Some v' /\ capacity_ (data_ v) <= capacity_ (data_ v').

(** The outcome of an operation that updates [this] in place. *)
Definition in_place_ok (this : nat) (o : gmap nat Vector)
    (h : gmap nat (list (option T))) {A} (r : Res A) (leak : exn -> Prop) : Prop :=
  outcome_ok r
    (fun _ w' => exists v, o !! this = Some v /\ updated this v o h w')
    (fun e w' => (exists v, o !! this = Some v /\ updated this v o h w') \/
                 (leak e /\ objs w' = o)).

(** The operations that insert one element into [this]. *)
Definition inserts_into (op : Op) (this : nat) : Prop :=
  match op with
  | OpPushBack t _ _ | OpEmplaceBack t _ _ | OpInsert t _ _ _ | OpEmplace t _ _ _ =>
      t = this
  | _ => False
  end.

(** The calls that name a capacity ask for a number of objects whose
    size in bytes a [size_t] can hold. *)
Definition fitting (op : Op) : Prop :=
  match op with
  | OpReserve _ n | OpResize _ n => fits n
  | _ => True
  end.


(** ** Running a program

    [run ops w] calls the operations [ops] in turn, going on after a call
    that throws, and gives the world at the end, or [None] when a call has
    undefined behaviour. *)
Fixpoint run (ops : list Op) (w : World) : option World :=
  match ops with
  | [] => Some w
  | op :: ops' =>
      match exec op w with
      | Ret _ w' | Raise _ w' => run ops' w'
      | Undef => None
      end
  end.

(** The oracle checked on the [n] ticks from [t] on. *)
Definition quiet (t n : nat) : bool :=
  forallb (fun i => negb (throws (t + i))) (seq 0 n).

(** The world of a program whose only vector, with identity 0, is [v],
    its block holding [blk], at tick [t] and with the log [l]; and the
    world of a program that has no vector yet. *)
Definition one_vector (v : Vector) (blk : list (option T)) (t : nat)
    (l : list event) : World :=
  mkWorld {[0 := v]} (upd_blk (buffer_ (data_ v)) blk ∅) t l.

Definition no_vector : World := mkWorld ∅ ∅ 0 [].

(** [m] ends with no exception, from whatever world it starts. *)
Definition never_raises {A} (m : M A) : Prop :=
  forall w e w', m w <> Raise e w'.

(** The buffer of each vector of the store. *)
Definition bufs (o : gmap nat Vector) : gmap nat (option nat) :=
  (fun v => buffer_ (data_ v)) <$> o.

Definition block_of (b : option nat) : gset nat :=
  match b with Some a => {[a]} | None => ∅ end.

(** The buffers [B] are blocks of [D], and no two of them are the same
    block. *)
Definition apart (B : gmap nat (option nat)) (D : gset nat) : Prop :=
  (forall id a, B !! id = Some (Some a) -> a ∈ D) /\
  (forall id1 id2 a, B !! id1 = Some (Some a) -> B !! id2 = Some (Some a) -> id1 = id2).

(** Every vector's buffer is a block of the heap, and no two vectors have
    the same one.  Unlike [Inv], this says nothing of the length of the
    blocks: it also holds after a [Reserve] whose byte count wrapped. *)
Definition owns_apart (w : World) : Prop := apart (bufs (objs w)) (dom (heap w)).

(** [w'] has the vectors of [w] and blocks at the same addresses. *)
Definition same_store (w w' : World) : Prop :=
  objs w' = objs w /\ dom (heap w') = dom (heap w).

(** [m] neither touches a vector object nor allocates or releases a
    block, whether it returns or throws. *)
Definition stable {A} (m : M A) : Prop :=
  forall w, outcome_ok (m w) (fun _ w' => same_store w w') (fun _ w' => same_store w w').

(** * Properties of the model *)

(** *** Rules for [wp] *)

Lemma wp_ret {A} (a : A) w Q E : Q a w -> wp (ret a) w Q E.
Proof. done. Qed.

Lemma wp_raise {A} e w (Q : A -> World -> Prop) E : E e w -> wp (raise e) w Q E.
Proof. done. Qed.

Lemma wp_modify f w Q E : Q tt (f w) -> wp (modify f) w Q E.
Proof. done. Qed.

Lemma wp_bind {A B} (m : M A) (k : A -> M B) w Q E :
  wp m w (fun a w' => wp (k a) w' Q E) E -> wp (bind m k) w Q E.
Proof. unfold wp, bind. by destruct (m w). Qed.

Lemma wp_catch {A} (m : M A) h w Q E :
  wp m w Q (fun e w' => wp (h e) w' Q E) -> wp (catch m h) w Q E.
Proof. unfold wp, catch. by destruct (m w). Qed.

Lemma wp_on_unwind {A} (m : M A) c w Q E :
  wp m w Q (fun e w' => wp c w' (fun _ w'' => E e w'') (fun _ _ => False)) ->
  wp (on_unwind m c) w Q E.
Proof.
  intros H. apply wp_catch. unfold wp in *. destruct (m w); try done.
  unfold bind. by destruct (c w0).
Qed.

Lemma wp_mono {A} (m : M A) w (Q Q' : A -> World -> Prop) (E E' : exn -> World -> Prop) :
  wp m w Q E ->
  (forall a w', Q a w' -> Q' a w') ->
  (forall e w', E e w' -> E' e w') ->
  wp m w Q' E'.
Proof. unfold wp. destruct (m w); eauto. Qed.

Lemma wp_Ret {A} (m : M A) w Q E a w' : wp m w Q E -> m w = Ret a w' -> Q a w'.
Proof. unfold wp. intros H Hm. by rewrite Hm in H. Qed.

Lemma wp_Raise {A} (m : M A) w Q E e w' : wp m w Q E -> m w = Raise e w' -> E e w'.
Proof. unfold wp. intros H Hm. by rewrite Hm in H. Qed.

Lemma wp_defined {A} (m : M A) w Q E : wp m w Q E -> m w <> Undef.
Proof. unfold wp. by destruct (m w). Qed.

(** *** Rules for [spec] *)

Lemma wp_spec {A} (m : M A) w Q E U : wp m w Q E -> spec m w Q E U.
Proof. unfold wp, spec. by destruct (m w). Qed.

Lemma spec_wp {A} (m : M A) w Q E U : spec m w Q E U -> ~ U -> wp m w Q E.
Proof. unfold wp, spec. by destruct (m w). Qed.

Lemma spec_ret {A} (a : A) w Q E U : Q a w -> spec (ret a) w Q E U.
Proof. done. Qed.

Lemma spec_bind {A B} (m : M A) (k : A -> M B) w Q E U :
  spec m w (fun a w' => spec (k a) w' Q E U) E U -> spec (bind m k) w Q E U.
Proof. unfold spec, bind. by destruct (m w). Qed.

Lemma spec_catch {A} (m : M A) h w Q E U :
  spec m w Q (fun e w' => spec (h e) w' Q E U) U -> spec (catch m h) w Q E U.
Proof. unfold spec, catch. by destruct (m w). Qed.

Lemma spec_on_unwind {A} (m : M A) c w Q E U :
  spec m w Q (fun e w' => wp c w' (fun _ w'' => E e w'') (fun _ _ => False)) U ->
  spec (on_unwind m c) w Q E U.
Proof.
  intros H. apply spec_catch. unfold spec, wp in *. destruct (m w); try done.
  unfold bind. by destruct (c w0).
Qed.

Lemma spec_mono {A} (m : M A) w (Q Q' : A -> World -> Prop)
    (E E' : exn -> World -> Prop) (U U' : Prop) :
  spec m w Q E U ->
  (forall a w', Q a w' -> Q' a w') ->
  (forall e w', E e w' -> E' e w') ->
  (U -> U') ->
  spec m w Q' E' U'.
Proof. unfold spec. destruct (m w); eauto. Qed.

Lemma spec_Ret {A} (m : M A) w Q E U a w' : spec m w Q E U -> m w = Ret a w' -> Q a w'.
Proof. unfold spec. intros H Hm. by rewrite Hm in H. Qed.

Lemma spec_Raise {A} (m : M A) w Q E U e w' :
  spec m w Q E U -> m w = Raise e w' -> E e w'.
Proof. unfold spec. intros H Hm. by rewrite Hm in H. Qed.

Lemma spec_Undef {A} (m : M A) w Q E U : spec m w Q E U -> m w = Undef -> U.
Proof. unfold spec. intros H Hm. by rewrite Hm in H. Qed.

(** *** The bytes of a block *)

Lemma slots_le n : slots n <= n.
Proof.
  unfold slots, bytes_for.
  assert (H : (N.of_nat n * N.pos sizeof_T mod size_t_modulus / N.pos sizeof_T
               <= N.of_nat n)%N); [|lia].
  apply N.Div0.div_le_upper_bound.
  etransitivity; [apply N.Div0.mod_le|]. lia.
Qed.

Lemma fits_slots n : fits n -> slots n = n.
Proof.
  unfold fits, slots, bytes_for. intros H.
  rewrite N.mod_small by done. rewrite N.div_mul by done. lia.
Qed.

Lemma slots_fits n : n <= slots n -> fits n.
Proof.
  unfold fits, slots, bytes_for. intros H.
  set (b := (N.of_nat n * N.pos sizeof_T mod size_t_modulus)%N) in *.
  assert (Hb : (b < size_t_modulus)%N) by (apply N.mod_upper_bound; done).
  assert (Hd : (N.pos sizeof_T * (b / N.pos sizeof_T) <= b)%N)
    by (apply N.Div0.mul_div_le).
  nia.
Qed.

Lemma fits_le n m : fits n -> m <= n -> fits m.
Proof. unfold fits. intros H Hle. nia. Qed.

Lemma fits_0 : fits 0.
Proof. done. Qed.

(** A block asked for [grown size] objects that has room for [size + 1]
    has room for them all: a doubled count that wraps leaves less than
    the old count. *)
Lemma slots_grown size : size < slots (grown size) -> fits (grown size).
Proof.
  unfold fits, slots, bytes_for. intros H.
  set (g := N.of_nat (grown size)) in *. set (s := N.pos sizeof_T) in *.
  destruct (N.lt_ge_cases (g * s) size_t_modulus) as [|Hge]; [done|exfalso].
  assert (Hb : (g * s mod size_t_modulus < size_t_modulus)%N)
    by (apply N.mod_upper_bound; done).
  pose proof (N.Div0.div_mod (g * s) size_t_modulus) as Hq.
  set (b := (g * s mod size_t_modulus)%N) in *.
  set (q := (g * s / size_t_modulus)%N) in *.
  assert (Hlt : (b / s < N.of_nat size + 1)%N); [|lia].
  apply N.Div0.div_lt_upper_bound.
  assert (Hs : (1 <= s)%N) by (unfold s; lia).
  assert (Hg : g = 1%N /\ size = 0 \/ g = (2 * N.of_nat size)%N /\ 0 < size).
  { unfold g, grown. destruct size; [by left|right]. simpl Nat.eqb. cbv iota. lia. }
  unfold size_t_modulus in *.
  destruct Hg as [[Hg ->]|[Hg Hpos]]; rewrite Hg in *; nia.
Qed.


(** *** The oracle *)

Lemma no_throw_0 t : no_throw t 0.
Proof. intros i Hi. lia. Qed.

Lemma no_throw_S t n : throws t = false -> no_throw (S t) n -> no_throw t (S n).
Proof.
  intros H0 H [|i] Hi.
  - by rewrite Nat.add_0_r.
  - replace (t + S i) with (S t + i) by lia. apply H. lia.
Qed.

Lemma no_throw_split t n m : no_throw t n -> no_throw (t + n) m -> no_throw t (n + m).
Proof.
  intros H1 H2 i Hi. destruct (decide (i < n)) as [Hlt|Hge]; [by apply H1|].
  replace (t + i) with (t + n + (i - n)) by lia. apply H2. lia.
Qed.

Lemma no_throw_le t n m : m <= n -> no_throw t n -> no_throw t m.
Proof. intros Hle H i Hi. apply H. lia. Qed.

Lemma no_throw_shift t n m : no_throw t (n + m) -> no_throw (t + n) m.
Proof. intros H i Hi. rewrite <- Nat.add_assoc. apply H. lia. Qed.

Lemma first_throw_0 t : throws t = true -> first_throw t 0.
Proof. intros H. split; [apply no_throw_0 | by rewrite Nat.add_0_r]. Qed.

Lemma first_throw_S t k : throws t = false -> first_throw (S t) k -> first_throw t (S k).
Proof.
  intros H0 [H1 H2]. split; [by apply no_throw_S|].
  by replace (t + S k) with (S t + k) by lia.
Qed.

Lemma first_throw_shift t n k : no_throw t n -> first_throw (t + n) k -> first_throw t (n + k).
Proof.
  intros H0 [H1 H2]. split; [by apply no_throw_split|]. by rewrite Nat.add_assoc.
Qed.

Lemma first_throw_unique t k k' : first_throw t k -> first_throw t k' -> k = k'.
Proof.
  intros [H1 H2] [H1' H2'].
  destruct (lt_eq_lt_dec k k') as [[Hlt| ->]|Hgt]; [|done|].
  - rewrite (H1' k Hlt) in H2. done.
  - rewrite (H1 k' Hgt) in H2'. done.
Qed.

Lemma first_throw_not_no_throw t k n : k < n -> first_throw t k -> no_throw t n -> False.
Proof. intros Hk [_ H] Hn. rewrite (Hn k Hk) in H. done. Qed.

Lemma throw_cases t n : no_throw t n \/ exists k, k < n /\ first_throw t k.
Proof.
  revert t. induction n as [|n IH]; intros t; [left; apply no_throw_0|].
  destruct (throws t) eqn:Ht.
  - right. exists 0. split; [lia | by apply first_throw_0].
  - destruct (IH (S t)) as [H|(k & Hk & H)].
    + left. by apply no_throw_S.
    + right. exists (S k). split; [lia | by apply first_throw_S].
Qed.

(** *** Primitives *)

Lemma wp_may_throw nothrow e w Q E :
  (nothrow = true -> Q tt w) ->
  (nothrow = false -> throws (tick w) = false -> Q tt (add_tick w)) ->
  (nothrow = false -> throws (tick w) = true -> E e (add_tick w)) ->
  wp (may_throw nothrow e) w Q E.
Proof.
  intros H1 H2 H3. unfold wp, may_throw. destruct nothrow; [by apply H1|].
  destruct (throws (tick w)) eqn:Ht; auto.
Qed.

Lemma wp_may_throw_cost nothrow e o h t l Q E :
  ((nothrow = false -> throws t = false) ->
   Q tt (mkWorld o h (t + cost nothrow) l)) ->
  (nothrow = false -> throws t = true -> E e (mkWorld o h (S t) l)) ->
  wp (may_throw nothrow e) (mkWorld o h t l) Q E.
Proof.
  intros H1 H2. apply wp_may_throw; simpl.
  - intros ->. rewrite Nat.add_0_r in H1. by apply H1.
  - intros -> Ht. rewrite Nat.add_1_r in H1. by apply H1.
  - done.
Qed.

Lemma wp_load a i w blk v Q E :
  heap w !! a = Some blk -> blk !! i = Some (Some v) ->
  Q v w -> wp (load (Ptr (Some a) i)) w Q E.
Proof. intros Ha Hi HQ. unfold wp, load, bind, slot. simpl. by rewrite Ha, Hi. Qed.

Lemma wp_store a i s w blk Q E :
  heap w !! a = Some blk -> i < length blk ->
  Q tt (set_heap (<[a := <[i := s]> blk]> (heap w)) w) ->
  wp (store (Ptr (Some a) i) s) w Q E.
Proof.
  intros Ha Hi HQ. unfold wp, store. simpl. rewrite Ha.
  by rewrite decide_True.
Qed.

Lemma wp_construct_at a i v w blk Q E :
  heap w !! a = Some blk -> i < length blk ->
  Q tt (add_log (EvConstruct a i) (set_heap (<[a := <[i := Some v]> blk]> (heap w)) w)) ->
  wp (construct_at (Ptr (Some a) i) v) w Q E.
Proof.
  intros Ha Hi HQ. unfold construct_at. apply wp_bind, wp_ret. simpl.
  apply wp_bind. eapply wp_store; [done..|]. by apply wp_modify.
Qed.

Lemma wp_destroy_at a i v w blk Q E :
  heap w !! a = Some blk -> blk !! i = Some (Some v) ->
  Q tt (add_log (EvDestroy a i) (set_heap (<[a := <[i := None]> blk]> (heap w)) w)) ->
  wp (destroy_at (Ptr (Some a) i)) w Q E.
Proof.
  intros Ha Hi HQ. unfold destroy_at. apply wp_bind, wp_ret. simpl.
  apply wp_bind. eapply wp_load; [done..|].
  apply wp_bind. eapply wp_store; [done| by eapply lookup_lt_Some |].
  by apply wp_modify.
Qed.

(** *** Constructors of T *)

Lemma wp_copy_construct a i a' j o h t l bs bd x :
  h !! a = Some bs -> h !! a' = Some bd ->
  bs !! i = Some (Some x) -> j < length bd ->
  wp (copy_construct (Ptr (Some a') j) (Ptr (Some a) i)) (mkWorld o h t l)
     (fun _ w' => throws t = false /\
        w' = mkWorld o (<[a' := <[j := Some x]> bd]> h) (S t) (l ++ [EvConstruct a' j]))
     (fun e w' => throws t = true /\ e = thrown CopyCtor /\ w' = mkWorld o h (S t) l).
Proof.
  intros Ha Ha' Hi Hj. unfold copy_construct.
  apply wp_bind. eapply wp_load; [done..|].
  apply wp_bind, wp_may_throw; [done| |]; simpl; intros _ Ht; [|done].
  eapply wp_construct_at; [done..|]. done.
Qed.

Lemma wp_move_construct a i a' j o h t l bs bs' bd x :
  h !! a = Some bs -> h !! a' = Some bd ->
  bs !! i = Some (Some x) -> j < length bd ->
  <[a' := <[j := Some x]> bd]> h !! a = Some bs' -> i < length bs' ->
  wp (move_construct (Ptr (Some a') j) (Ptr (Some a) i)) (mkWorld o h t l)
     (fun _ w' => (nothrow_move_constructible = false -> throws t = false) /\
        w' = mkWorld o
               (<[a := <[i := Some (moved_from x)]> bs']> (<[a' := <[j := Some x]> bd]> h))
               (t + cost nothrow_move_constructible)
               (l ++ [EvConstruct a' j]))
     (fun e w' => nothrow_move_constructible = false /\ throws t = true /\
        e = thrown MoveCtor /\ w' = mkWorld o h (S t) l).
Proof.
  intros Ha Ha' Hi Hj Hs Hi'. unfold move_construct.
  apply wp_bind. eapply wp_load; [done..|].
  apply wp_bind, wp_may_throw; simpl.
  - intros ->. apply wp_bind. eapply wp_construct_at; [done..|].
    eapply wp_store; [done..|]. simpl. by rewrite Nat.add_0_r.
  - intros -> Ht. apply wp_bind. eapply wp_construct_at; [done..|].
    eapply wp_store; [done..|]. simpl. by rewrite Nat.add_1_r.
  - by intros -> Ht.
Qed.

Lemma wp_value_construct a j o h t l bd :
  h !! a = Some bd -> j < length bd ->
  wp (value_construct (Ptr (Some a) j)) (mkWorld o h t l)
     (fun _ w' => throws t = false /\
        w' = mkWorld o (<[a := <[j := Some T_default]> bd]> h) (S t) (l ++ [EvConstruct a j]))
     (fun e w' => throws t = true /\ e = thrown ValueCtor /\ w' = mkWorld o h (S t) l).
Proof.
  intros Ha Hj. unfold value_construct.
  apply wp_bind, wp_may_throw; [done| |]; simpl; intros _ Ht; [|done].
  eapply wp_construct_at; [done..|]. done.
Qed.

Lemma wp_args_construct via a j v o h t l bd :
  h !! a = Some bd -> j < length bd ->
  wp (args_construct via (Ptr (Some a) j) v) (mkWorld o h t l)
     (fun _ w' => (ctor_nothrow via = false -> throws t = false) /\
        w' = mkWorld o (<[a := <[j := Some v]> bd]> h) (t + cost (ctor_nothrow via))
               (l ++ [EvConstruct a j]))
     (fun e w' => ctor_nothrow via = false /\ throws t = true /\
        e = thrown (ctor_op via) /\ w' = mkWorld o h (S t) l).
Proof.
  intros Ha Hj. unfold args_construct.
  apply wp_bind, wp_may_throw; simpl.
  - intros Hn. eapply wp_construct_at; [done..|]. simpl. rewrite Hn. simpl.
    by rewrite Nat.add_0_r.
  - intros Hn Ht. eapply wp_construct_at; [done..|]. simpl. rewrite Hn. simpl.
    by rewrite Nat.add_1_r.
  - by intros Hn Ht.
Qed.

(** *** Blocks *)

Lemma list_inserts_insert_S {A} (l k : list A) j y :
  list_inserts (S j) k (<[j := y]> l) = list_inserts j (y :: k) l.
Proof. simpl. symmetry. apply list_insert_inserts_lt. lia. Qed.

Lemma list_inserts_same {A} (l k : list A) j :
  (forall i y, k !! i = Some y -> l !! (j + i) = Some y) -> list_inserts j k l = l.
Proof.
  revert j. induction k as [|y k IH]; intros j H; [done|]. simpl.
  rewrite IH.
  - apply list_insert_id. specialize (H 0 y). rewrite Nat.add_0_r in H. by apply H.
  - intros i z Hz. replace (S j + i) with (j + S i) by lia. by apply H.
Qed.

(** Two heaps built by inserting and deleting blocks are equal when they
    agree at every address. *)
Ltac heap_eq :=
  apply map_eq; intros ?b;
  repeat (rewrite lookup_insert || rewrite lookup_delete || case_decide || subst);
  try done; try congruence; try (f_equal; try done).

Lemma heap_restore (h : gmap nat (list (option T))) a bd j x :
  h !! a = Some bd -> bd !! j = Some None ->
  <[a := <[j := None]> (<[j := x]> bd)]> h = h.
Proof.
  intros Ha Hj. rewrite list_insert_insert_eq, list_insert_id by done.
  by apply insert_id.
Qed.

Lemma vals_at_nil_inv i xs : vals_at [] i xs -> xs = [].
Proof. destruct xs as [|x xs]; [done|]. intros H. by specialize (H 0 x eq_refl). Qed.

Lemma raw_range_nil_inv j n : raw_range [] j n -> n = 0.
Proof. destruct n; [done|]. intros H. specialize (H 0). simpl in H. discriminate H. lia. Qed.

Lemma upd_blk_id h b blk : blk_at h b blk -> upd_blk b blk h = h.
Proof. destruct b; simpl; [apply insert_id | done]. Qed.

Lemma vals_at_lookup blk i xs k x :
  vals_at blk i xs -> xs !! k = Some x -> blk !! (i + k) = Some (Some x).
Proof. intros H. apply H. Qed.

Lemma vals_at_length blk i xs : vals_at blk i xs -> i + length xs <= length blk \/ xs = [].
Proof.
  intros H. destruct (decide (xs = [])) as [|Hne]; [by right|left].
  destruct (lookup_lt_is_Some_2 xs (length xs - 1)) as [x Hx].
  { destruct xs; [done|simpl; lia]. }
  apply H, lookup_lt_Some in Hx. lia.
Qed.

Lemma list_inserts_vals_same blk i xs :
  vals_at blk i xs -> list_inserts i (Some <$> xs) blk = blk.
Proof.
  intros H. apply list_inserts_same. intros k y Hy.
  rewrite list_lookup_fmap in Hy. destruct (xs !! k) eqn:Hk; [|done].
  simpl in Hy. injection Hy as <-. by apply H.
Qed.

(** *** [std::destroy_n] *)

Lemma live_range_nil_inv i n : live_range [] i n -> n = 0.
Proof. destruct n; [done|]. intros H. destruct (H 0) as [x Hx]; [lia|done]. Qed.

Lemma wp_destroy_n n : forall a i o h t l blk,
  h !! a = Some blk -> live_range blk i n ->
  wp (destroy_n (Ptr (Some a) i) n) (mkWorld o h t l)
     (fun _ w' => w' = mkWorld o (<[a := list_inserts i (replicate n None) blk]> h) t
                       (l ++ (EvDestroy a <$> seq i n)))
     (fun _ _ => False).
Proof.
  induction n as [|n IH]; intros a i o h t l blk Ha Hl.
  - simpl. apply wp_ret. by rewrite insert_id, app_nil_r.
  - simpl destroy_n. destruct (Hl 0) as [x Hx]; [lia|]. rewrite Nat.add_0_r in Hx.
    apply wp_bind. eapply wp_destroy_at; [done..|]. simpl.
    unfold padd; simpl. rewrite Nat.add_1_r.
    eapply wp_mono; [eapply IH| |done].
    + apply lookup_insert_eq.
    + intros k Hk. destruct (Hl (S k)) as [y Hy]; [lia|]. exists y.
      rewrite list_lookup_insert_ne by lia. by replace (S i + k) with (i + S k) by lia.
    + intros _ w' ->. f_equal.
      * rewrite insert_insert_eq. by rewrite list_inserts_insert_S.
      * by rewrite <- app_assoc.
Qed.

Lemma wp_destroy_n_opt n b i o h t l blk :
  blk_at h b blk -> live_range blk i n ->
  wp (destroy_n (Ptr b i) n) (mkWorld o h t l)
     (fun _ w' => w' = mkWorld o (upd_blk b (list_inserts i (replicate n None) blk) h) t
                       (l ++ (EvDestroy (addr_of b) <$> seq i n)))
     (fun _ _ => False).
Proof.
  intros Hb Hl. destruct b as [a|]; simpl in *.
  - by apply wp_destroy_n.
  - subst blk. apply live_range_nil_inv in Hl. subst n. simpl. apply wp_ret.
    by rewrite app_nil_r.
Qed.

(** *** Constructors of T on a slot that may lie outside its block *)

Lemma spec_construct_at a i v w blk Q E (U : Prop) :
  heap w !! a = Some blk ->
  (i < length blk ->
   Q tt (add_log (EvConstruct a i) (set_heap (<[a := <[i := Some v]> blk]> (heap w)) w))) ->
  (length blk <= i -> U) ->
  spec (construct_at (Ptr (Some a) i) v) w Q E U.
Proof.
  intros Ha HQ HU. unfold spec, construct_at, bind, block_addr, store, emit, modify, ret.
  simpl. rewrite Ha. case_decide; [apply HQ; lia | apply HU; lia].
Qed.

Lemma spec_copy_construct a i a' j o h t l bs bd x :
  h !! a = Some bs -> h !! a' = Some bd -> bs !! i = Some (Some x) ->
  spec (copy_construct (Ptr (Some a') j) (Ptr (Some a) i)) (mkWorld o h t l)
     (fun _ w' => j < length bd /\ throws t = false /\
        w' = mkWorld o (<[a' := <[j := Some x]> bd]> h) (S t) (l ++ [EvConstruct a' j]))
     (fun e w' => throws t = true /\ e = thrown CopyCtor /\ w' = mkWorld o h (S t) l)
     (length bd <= j /\ throws t = false).
Proof.
  intros Ha Ha' Hi. unfold copy_construct.
  apply spec_bind, wp_spec. eapply wp_load; [done..|].
  apply spec_bind, wp_spec, wp_may_throw; [done| |]; simpl; intros _ Ht; [|done].
  eapply spec_construct_at; [done| |done]. done.
Qed.

Lemma spec_move_construct a i a' j o h t l bs bd x :
  a <> a' -> h !! a = Some bs -> h !! a' = Some bd -> bs !! i = Some (Some x) ->
  spec (move_construct (Ptr (Some a') j) (Ptr (Some a) i)) (mkWorld o h t l)
     (fun _ w' => j < length bd /\
        (nothrow_move_constructible = false -> throws t = false) /\
        w' = mkWorld o
               (<[a := <[i := Some (moved_from x)]> bs]> (<[a' := <[j := Some x]> bd]> h))
               (t + cost nothrow_move_constructible)
               (l ++ [EvConstruct a' j]))
     (fun e w' => nothrow_move_constructible = false /\ throws t = true /\
        e = thrown MoveCtor /\ w' = mkWorld o h (S t) l)
     (length bd <= j /\ (nothrow_move_constructible = false -> throws t = false)).
Proof.
  intros Hne Ha Ha' Hi. unfold move_construct.
  assert (Hil : i < length bs) by (by eapply lookup_lt_Some).
  apply spec_bind, wp_spec. eapply wp_load; [done..|].
  apply spec_bind, wp_spec, wp_may_throw; simpl.
  - intros ->. apply spec_bind. eapply spec_construct_at; [done| |done].
    intros Hj. apply wp_spec. eapply wp_store; [by simpl; rewrite lookup_insert_ne|done|].
    simpl. by rewrite Nat.add_0_r.
  - intros -> Ht. apply spec_bind. eapply spec_construct_at; [done| |done].
    intros Hj. apply wp_spec. eapply wp_store; [by simpl; rewrite lookup_insert_ne|done|].
    simpl. by rewrite Nat.add_1_r.
  - by intros -> Ht.
Qed.

Lemma spec_value_construct a j o h t l bd :
  h !! a = Some bd ->
  spec (value_construct (Ptr (Some a) j)) (mkWorld o h t l)
     (fun _ w' => j < length bd /\ throws t = false /\
        w' = mkWorld o (<[a := <[j := Some T_default]> bd]> h) (S t) (l ++ [EvConstruct a j]))
     (fun e w' => throws t = true /\ e = thrown ValueCtor /\ w' = mkWorld o h (S t) l)
     (length bd <= j).
Proof.
  intros Ha. unfold value_construct.
  apply spec_bind, wp_spec, wp_may_throw; [done| |]; simpl; intros _ Ht; [|done].
  eapply spec_construct_at; [done| |done]. done.
Qed.

Lemma spec_args_construct via a j v o h t l bd :
  h !! a = Some bd ->
  spec (args_construct via (Ptr (Some a) j) v) (mkWorld o h t l)
     (fun _ w' => j < length bd /\ (ctor_nothrow via = false -> throws t = false) /\
        w' = mkWorld o (<[a := <[j := Some v]> bd]> h) (t + cost (ctor_nothrow via))
               (l ++ [EvConstruct a j]))
     (fun e w' => ctor_nothrow via = false /\ throws t = true /\
        e = thrown (ctor_op via) /\ w' = mkWorld o h (S t) l)
     (length bd <= j).
Proof.
  intros Ha. unfold args_construct.
  apply spec_bind, wp_spec, wp_may_throw; simpl.
  - intros Hn. eapply spec_construct_at; [done| |done]. intros Hj. simpl. rewrite Hn. simpl.
    by rewrite Nat.add_0_r.
  - intros Hn Ht. eapply spec_construct_at; [done| |done]. intros Hj. simpl. rewrite Hn.
    simpl. by rewrite Nat.add_1_r.
  - by intros Hn Ht.
Qed.

(** Destroying a range of a block makes what had been stored in it
    irrelevant. *)
Lemma list_inserts_covered {A} (l k : list A) j p y :
  j <= p < j + length k -> list_inserts j k (<[p := y]> l) = list_inserts j k l.
Proof.
  intros Hp. apply list_eq. intros q.
  destruct (decide (q < length l)) as [Hq|Hq].
  - destruct (decide (j <= q < j + length k)) as [Hin|Hout].
    + rewrite !list_lookup_inserts by (rewrite ?length_insert; lia). done.
    + destruct (decide (q < j)).
      * rewrite !list_lookup_inserts_lt by lia. apply list_lookup_insert_ne. lia.
      * rewrite !list_lookup_inserts_ge by lia. apply list_lookup_insert_ne. lia.
  - rewrite !(proj2 (lookup_ge_None _ _)); [done|..];
      rewrite ?length_inserts, ?length_insert; lia.
Qed.

(** Destroying slots that are raw, where they exist at all, changes
    nothing. *)
Lemma list_inserts_raw (bd : list (option T)) j k :
  (forall p, p < k -> j + p < length bd -> bd !! (j + p) = Some None) ->
  list_inserts j (replicate k None) bd = bd.
Proof.
  intros Hraw. apply list_eq. intros q.
  destruct (decide (j <= q < j + k /\ q < length bd)) as [[Hin Hq]|Hout].
  - rewrite list_lookup_inserts by (rewrite ?length_replicate; lia).
    rewrite lookup_replicate_2 by lia.
    specialize (Hraw (q - j)). replace (j + (q - j)) with q in Hraw by lia.
    symmetry. apply Hraw; lia.
  - destruct (decide (q < length bd)) as [Hq|Hq].
    + destruct (decide (q < j)).
      * by rewrite list_lookup_inserts_lt by lia.
      * by rewrite list_lookup_inserts_ge by (rewrite ?length_replicate; lia).
    + rewrite !(proj2 (lookup_ge_None _ _)); [done|..]; rewrite ?length_inserts; lia.
Qed.

(** *** [std::uninitialized_copy_n] and [std::uninitialized_move_n] *)

Section uninitialized.

(** An element constructor from a source slot in one block to a slot of
    another: it may throw unless [nothrow], on success leaves [after x]
    in the source slot, and has undefined behaviour when the target slot
    lies outside its block. *)
Variable ctor : ptr -> ptr -> M unit.
Variable after : T -> option T.
Variable nothrow : bool.
Variable e : exn.
Hypothesis ctor_spec : forall a i a' j o h t l bs bd x,
  a <> a' -> h !! a = Some bs -> h !! a' = Some bd ->
  bs !! i = Some (Some x) ->
  spec (ctor (Ptr (Some a') j) (Ptr (Some a) i)) (mkWorld o h t l)
     (fun _ w' => j < length bd /\ (nothrow = false -> throws t = false) /\
        w' = mkWorld o (<[a := <[i := after x]> bs]> (<[a' := <[j := Some x]> bd]> h))
               (t + cost nothrow) (l ++ [EvConstruct a' j]))
     (fun e' w' => nothrow = false /\ throws t = true /\ e' = e /\
        w' = mkWorld o h (S t) l)
     (length bd <= j /\ (nothrow = false -> throws t = false)).

(** The loop with [b] objects already built at [j .. j + b - 1]: it
    returns with the [n] next ones built; or a constructor throws, at the
    [k]-th, and all [b + k] objects have been destroyed, first to last;
    or the target block is too short for the objects to build, and no
    constructor has thrown before the one that leaves the block. *)
Lemma spec_uninitialized_loop n : forall xs a i a' j b o h t l bs bd,
  a <> a' -> h !! a = Some bs -> h !! a' = Some bd -> length xs = n ->
  vals_at bs i xs -> live_range bd j b ->
  spec (uninitialized_loop ctor (Ptr (Some a) i) n (Ptr (Some a') j) b) (mkWorld o h t l)
     (fun _ w' => (n = 0 \/ j + b + n <= length bd) /\
        (nothrow = false -> no_throw t n) /\
        w' = mkWorld o
               (<[a' := list_inserts (j + b) (Some <$> xs) bd]>
                  (<[a := list_inserts i (after <$> xs) bs]> h))
               (t + cost nothrow * n) (l ++ (EvConstruct a' <$> seq (j + b) n)))
     (fun e' w' => exists k, k < n /\ (k = 0 \/ j + b + k <= length bd) /\
        nothrow = false /\ first_throw t k /\ e' = e /\
        w' = mkWorld o
               (<[a' := list_inserts j (replicate (b + k) None) bd]>
                  (<[a := list_inserts i (after <$> take k xs) bs]> h))
               (S (t + k))
               (l ++ (EvConstruct a' <$> seq (j + b) k) ++
                  (EvDestroy a' <$> seq j (b + k))))
     (0 < n /\ length bd < j + b + n /\
      (nothrow = false -> no_throw t (S (length bd - (j + b))))).
Proof.
  induction n as [|n IH]; intros xs a i a' j b o h t l bs bd Hne Ha Ha' Hlen Hsrc Hlive.
  - destruct xs; [|done]. simpl. apply spec_ret. split; [by left|].
    split; [intros _; apply no_throw_0|].
    rewrite (insert_id h a bs Ha), (insert_id h a' bd Ha').
    by rewrite Nat.mul_0_r, Nat.add_0_r, app_nil_r.
  - destruct xs as [|x xs]; [done|]. simpl in Hlen. simpl uninitialized_loop.
    assert (Hx : bs !! i = Some (Some x)).
    { specialize (Hsrc 0 x). rewrite Nat.add_0_r in Hsrc. by apply Hsrc. }
    apply spec_bind, spec_on_unwind. unfold padd; cbn [base off].
    eapply spec_mono; [by eapply ctor_spec| | |].
    + intros _ w1 (Hj & Hth & ->). rewrite Nat.add_1_r.
      eapply spec_mono.
      { eapply (IH xs a (S i) a' j (S b)); [done| | |lia| |].
        - apply lookup_insert_eq.
        - rewrite lookup_insert_ne by done. apply lookup_insert_eq.
        - intros k y Hy. rewrite list_lookup_insert_ne by lia.
          replace (S i + k) with (i + S k) by lia. by apply Hsrc.
        - intros k Hk. destruct (decide (k = b)) as [->|Hkb].
          + exists x. by apply list_lookup_insert_eq.
          + destruct (Hlive k) as [y Hy]; [lia|]. exists y.
            by rewrite list_lookup_insert_ne by lia. }
      * intros _ w2 (Hroom & Hnt & ->). rewrite length_insert in Hroom.
        split; [right; lia|]. split.
        { intros Hn. destruct nothrow; [done|]. simpl in *.
          apply no_throw_S; [by apply Hth|]. rewrite Nat.add_1_r in Hnt. by apply Hnt. }
        rewrite Nat.add_succ_r. f_equal.
        -- heap_eq; by rewrite list_inserts_insert_S.
        -- destruct nothrow; simpl; lia.
        -- by rewrite <- app_assoc.
      * intros e' w2 (k & Hk & Hroom & Hn & Hft & -> & ->).
        rewrite length_insert in Hroom.
        exists (S k). split; [lia|]. split; [right; lia|]. split; [done|].
        rewrite Hn in *. cbn [cost] in *.
        split; [apply first_throw_S; [by apply Hth| by rewrite Nat.add_1_r in Hft]|].
        split; [done|]. f_equal.
        -- heap_eq.
           ++ replace (b + S k) with (S b + k) by lia.
              apply list_inserts_covered. rewrite length_replicate. lia.
           ++ by rewrite list_inserts_insert_S.
        -- lia.
        -- replace (b + S k) with (S b + k) by lia. rewrite Nat.add_succ_r.
           cbn [seq fmap list_fmap]. by rewrite <- !app_assoc.
      * rewrite length_insert. intros (Hpos & Hshort & Hnt).
        split; [lia|]. split; [lia|]. intros Hn. specialize (Hnt Hn).
        rewrite Hn in *. cbn [cost] in *. rewrite Nat.add_1_r in Hnt.
        replace (length bd - (j + b)) with (S (length bd - (j + S b))) by lia.
        apply no_throw_S; [by apply Hth|done].
    + intros e' w1 (Hn & Ht & -> & ->).
      eapply wp_mono; [by eapply wp_destroy_n| |done].
      intros _ w2 ->. exists 0. split; [lia|]. split; [by left|]. split; [done|].
      split; [by apply first_throw_0|]. split; [done|].
      simpl. rewrite !Nat.add_0_r. f_equal.
      by rewrite (insert_id h a bs Ha).
    + intros [Hshort Hth]. split; [lia|]. split; [lia|]. intros Hn.
      replace (length bd - (j + b)) with 0 by lia.
      apply no_throw_S; [by apply Hth|apply no_throw_0].
Qed.

(** The whole algorithm, onto slots that are raw where they exist. *)
Lemma spec_uninitialized_n n xs a i a' j o h t l bs bd :
  a <> a' -> h !! a = Some bs -> h !! a' = Some bd -> length xs = n ->
  vals_at bs i xs ->
  (forall k, k < n -> j + k < length bd -> bd !! (j + k) = Some None) ->
  spec (uninitialized_n ctor (Ptr (Some a) i) n (Ptr (Some a') j)) (mkWorld o h t l)
     (fun _ w' => (n = 0 \/ j + n <= length bd) /\
        (nothrow = false -> no_throw t n) /\
        w' = mkWorld o
               (<[a' := list_inserts j (Some <$> xs) bd]>
                  (<[a := list_inserts i (after <$> xs) bs]> h))
               (t + cost nothrow * n) (l ++ (EvConstruct a' <$> seq j n)))
     (fun e' w' => exists k, k < n /\ (k = 0 \/ j + k <= length bd) /\
        nothrow = false /\ first_throw t k /\ e' = e /\
        w' = mkWorld o (<[a := list_inserts i (after <$> take k xs) bs]> h)
               (S (t + k))
               (l ++ (EvConstruct a' <$> seq j k) ++ (EvDestroy a' <$> seq j k)))
     (0 < n /\ length bd < j + n /\
      (nothrow = false -> no_throw t (S (length bd - j)))).
Proof.
  intros Hne Ha Ha' Hlen Hsrc Hraw. unfold uninitialized_n.
  eapply spec_mono.
  { eapply (spec_uninitialized_loop n xs a i a' j 0); try done.
    intros k Hk. lia. }
  - intros _ w' (Hroom & Hnt & ->). rewrite Nat.add_0_r in *. done.
  - intros e' w' (k & Hk & Hroom & Hn & Hft & -> & ->). rewrite Nat.add_0_r in *.
    exists k. split; [done|]. split; [done|]. split; [done|]. split; [done|].
    split; [done|]. simpl. f_equal. rewrite list_inserts_raw.
    + apply insert_id. by rewrite lookup_insert_ne.
    + intros p Hp Hlt. apply Hraw; [lia|done].
  - by rewrite Nat.add_0_r.
Qed.

(** The same for pointers that may be null, as [GetAddress()] is for
    an empty [RawMemory]. *)
Lemma spec_uninitialized_n_opt n xs b i b' j o h t l bs bd :
  distinct b b' -> blk_at h b bs -> blk_at h b' bd -> length xs = n ->
  vals_at bs i xs -> (b' = None -> n = 0) ->
  (forall k, k < n -> j + k < length bd -> bd !! (j + k) = Some None) ->
  spec (uninitialized_n ctor (Ptr b i) n (Ptr b' j)) (mkWorld o h t l)
     (fun _ w' => (n = 0 \/ j + n <= length bd) /\
        (nothrow = false -> no_throw t n) /\
        w' = mkWorld o
               (upd_blk b' (list_inserts j (Some <$> xs) bd)
                  (upd_blk b (list_inserts i (after <$> xs) bs) h))
               (t + cost nothrow * n)
               (l ++ (EvConstruct (addr_of b') <$> seq j n)))
     (fun e' w' => exists k, k < n /\ (k = 0 \/ j + k <= length bd) /\
        nothrow = false /\ first_throw t k /\ e' = e /\
        w' = mkWorld o (upd_blk b (list_inserts i (after <$> take k xs) bs) h)
               (S (t + k))
               (l ++ (EvConstruct (addr_of b') <$> seq j k) ++
                  (EvDestroy (addr_of b') <$> seq j k)))
     (0 < n /\ length bd < j + n /\
      (nothrow = false -> no_throw t (S (length bd - j)))).
Proof.
  intros Hd Hb Hb' Hlen Hsrc Hnull Hraw.
  destruct b as [a|], b' as [a'|]; simpl in *.
  - apply spec_uninitialized_n; try done. intros ->. by eapply Hd.
  - rewrite (Hnull eq_refl) in *. destruct xs; [|done]. simpl. apply spec_ret.
    split; [by left|]. split; [intros _; apply no_throw_0|].
    by rewrite insert_id, Nat.mul_0_r, Nat.add_0_r, app_nil_r.
  - subst bs. apply vals_at_nil_inv in Hsrc. subst xs n. simpl. apply spec_ret.
    split; [by left|]. split; [intros _; apply no_throw_0|].
    by rewrite insert_id, Nat.mul_0_r, Nat.add_0_r, app_nil_r.
  - subst bs. apply vals_at_nil_inv in Hsrc. subst xs n. simpl. apply spec_ret.
    split; [by left|]. split; [intros _; apply no_throw_0|].
    by rewrite Nat.mul_0_r, Nat.add_0_r, app_nil_r.
Qed.

End uninitialized.

Lemma moves_elements_false_nothrow :
  moves_elements = false -> nothrow_move_constructible = false.
Proof. unfold moves_elements. by destruct nothrow_move_constructible. Qed.

Lemma raw_range_room bd j n (P : Prop) :
  raw_range bd j n -> ~ (0 < n /\ length bd < j + n /\ P).
Proof.
  intros Hraw (Hpos & Hlt & _). destruct n as [|n]; [lia|].
  assert (Hn : bd !! (j + n) = Some None) by (apply Hraw; lia).
  apply lookup_lt_Some in Hn. lia.
Qed.

Lemma raw_range_where bd j n :
  raw_range bd j n -> forall k, k < n -> j + k < length bd -> bd !! (j + k) = Some None.
Proof. intros Hraw k Hk _. by apply Hraw. Qed.

Lemma raw_range_null b' (h : gmap nat (list (option T))) bd j n :
  blk_at h b' bd -> raw_range bd j n -> b' = None -> n = 0.
Proof. intros Hb Hraw ->. simpl in Hb. subst bd. by eapply raw_range_nil_inv. Qed.

(** [MoveIfItsPossible] onto a block that may be too short. *)
Lemma spec_MoveIfItsPossible n xs b i b' j o h t l bs bd :
  distinct b b' -> blk_at h b bs -> blk_at h b' bd -> length xs = n ->
  vals_at bs i xs -> (b' = None -> n = 0) ->
  (forall k, k < n -> j + k < length bd -> bd !! (j + k) = Some None) ->
  spec (MoveIfItsPossible (Ptr b i) n (Ptr b' j)) (mkWorld o h t l)
     (fun _ w' => (n = 0 \/ j + n <= length bd) /\
        (nothrow_move_constructible = false -> no_throw t n) /\
        w' = mkWorld o
               (upd_blk b' (list_inserts j (Some <$> xs) bd)
                  (upd_blk b (list_inserts i (xfer_after <$> xs) bs) h))
               (t + cost nothrow_move_constructible * n)
               (l ++ (EvConstruct (addr_of b') <$> seq j n)))
     (fun e' w' => exists k, k < n /\ (k = 0 \/ j + k <= length bd) /\
        nothrow_move_constructible = false /\
        first_throw t k /\ e' = xfer_exn /\
        w' = mkWorld o (upd_blk b (list_inserts i (xfer_after <$> take k xs) bs) h)
               (S (t + k))
               (l ++ (EvConstruct (addr_of b') <$> seq j k) ++
                  (EvDestroy (addr_of b') <$> seq j k)))
     (0 < n /\ length bd < j + n /\
      (nothrow_move_constructible = false -> no_throw t (S (length bd - j)))).
Proof.
  intros Hd Hb Hb' Hlen Hsrc Hnull Hraw.
  unfold MoveIfItsPossible, xfer_after, xfer_exn.
  destruct moves_elements eqn:Hm.
  - unfold uninitialized_move_n.
    eapply (spec_uninitialized_n_opt move_construct (fun x => Some (moved_from x)));
      try done.
    intros a0 i0 a0' j0 o0 h0 t0 l0 bs0 bd0 x Hne Ha Ha' Hx.
    by eapply spec_move_construct.
  - rewrite (moves_elements_false_nothrow Hm). unfold uninitialized_copy_n.
    eapply spec_mono.
    + eapply (spec_uninitialized_n_opt copy_construct Some false (thrown CopyCtor));
        try done.
      intros a0 i0 a0' j0 o0 h0 t0 l0 bs0 bd0 x Hne Ha Ha' Hx.
      eapply spec_mono; [by eapply spec_copy_construct| | |by intros [? ?]].
      * intros _ w' (Hj & H1 & ->). split; [done|]. split; [done|]. simpl.
        f_equal; [|lia].
        rewrite (list_insert_id bs0 i0 (Some x) Hx). symmetry. apply insert_id.
        by rewrite lookup_insert_ne.
      * intros e' w' (H1 & -> & ->). done.
    + intros _ w' (Hroom & H1 & ->). split; [done|]. split; [by intros _; apply H1|]. done.
    + intros e' w' (k & Hk & Hroom & _ & H1 & -> & ->). exists k. done.
    + intros (? & ? & H1). split; [done|]. split; [done|]. intros _. by apply H1.
Qed.

(** ... and onto raw slots that are all there. *)
Lemma wp_MoveIfItsPossible n xs b i b' j o h t l bs bd :
  distinct b b' -> blk_at h b bs -> blk_at h b' bd -> length xs = n ->
  vals_at bs i xs -> raw_range bd j n ->
  wp (MoveIfItsPossible (Ptr b i) n (Ptr b' j)) (mkWorld o h t l)
     (fun _ w' => (nothrow_move_constructible = false -> no_throw t n) /\
        w' = mkWorld o
               (upd_blk b' (list_inserts j (Some <$> xs) bd)
                  (upd_blk b (list_inserts i (xfer_after <$> xs) bs) h))
               (t + cost nothrow_move_constructible * n)
               (l ++ (EvConstruct (addr_of b') <$> seq j n)))
     (fun e' w' => exists k, k < n /\ nothrow_move_constructible = false /\
        first_throw t k /\ e' = xfer_exn /\
        w' = mkWorld o (upd_blk b (list_inserts i (xfer_after <$> take k xs) bs) h)
               (S (t + k))
               (l ++ (EvConstruct (addr_of b') <$> seq j k) ++
                  (EvDestroy (addr_of b') <$> seq j k))).
Proof.
  intros Hd Hb Hb' Hlen Hsrc Hdst.
  eapply wp_mono.
  - eapply spec_wp; [|by eapply raw_range_room].
    eapply (spec_MoveIfItsPossible n xs b i b' j); try done.
    + by eapply raw_range_null.
    + by apply raw_range_where.
  - intros _ w' (_ & H1 & ->). done.
  - intros e' w' (k & Hk & _ & Hn & Hft & -> & ->). exists k. done.
Qed.

(** *** [std::uninitialized_value_construct_n] *)

Lemma spec_uninitialized_value_construct_loop n : forall a j b o h t l bd,
  h !! a = Some bd -> live_range bd j b ->
  spec (uninitialized_value_construct_loop (Ptr (Some a) j) n b) (mkWorld o h t l)
     (fun _ w' => (n = 0 \/ j + b + n <= length bd) /\ no_throw t n /\
        w' = mkWorld o (<[a := list_inserts (j + b) (replicate n (Some T_default)) bd]> h)
               (t + n) (l ++ (EvConstruct a <$> seq (j + b) n)))
     (fun e' w' => exists k, k < n /\ (k = 0 \/ j + b + k <= length bd) /\
        first_throw t k /\ e' = thrown ValueCtor /\
        w' = mkWorld o (<[a := list_inserts j (replicate (b + k) None) bd]> h)
               (S (t + k))
               (l ++ (EvConstruct a <$> seq (j + b) k) ++ (EvDestroy a <$> seq j (b + k))))
     (0 < n /\ length bd < j + b + n).
Proof.
  induction n as [|n IH]; intros a j b o h t l bd Ha Hlive.
  - simpl. apply spec_ret. split; [by left|]. split; [apply no_throw_0|].
    by rewrite insert_id, Nat.add_0_r, app_nil_r.
  - simpl uninitialized_value_construct_loop.
    apply spec_bind, spec_on_unwind. unfold padd; cbn [base off].
    eapply spec_mono; [by eapply spec_value_construct| | |].
    + intros _ w1 (Hj & Hth & ->).
      eapply spec_mono.
      { eapply (IH a j (S b)); [apply lookup_insert_eq|].
        intros k Hk. destruct (decide (k = b)) as [->|Hkb].
        - exists T_default. by apply list_lookup_insert_eq.
        - destruct (Hlive k) as [y Hy]; [lia|]. exists y.
          by rewrite list_lookup_insert_ne by lia. }
      * intros _ w2 (Hroom & Hnt & ->). rewrite length_insert in Hroom.
        split; [right; lia|]. split; [by apply no_throw_S|].
        rewrite Nat.add_succ_r. f_equal.
        -- rewrite insert_insert_eq. by rewrite list_inserts_insert_S.
        -- lia.
        -- by rewrite <- app_assoc.
      * intros e' w2 (k & Hk & Hroom & Hft & -> & ->).
        rewrite length_insert in Hroom.
        exists (S k). split; [lia|]. split; [right; lia|].
        split; [by apply first_throw_S|]. split; [done|]. f_equal.
        -- rewrite insert_insert_eq. f_equal.
           replace (b + S k) with (S b + k) by lia.
           apply list_inserts_covered. rewrite length_replicate. lia.
        -- lia.
        -- replace (b + S k) with (S b + k) by lia. rewrite Nat.add_succ_r.
           cbn [seq fmap list_fmap]. by rewrite <- !app_assoc.
      * rewrite length_insert. lia.
    + intros e' w1 (Ht & -> & ->).
      eapply wp_mono; [by eapply wp_destroy_n| |done].
      intros _ w2 ->. exists 0. split; [lia|]. split; [by left|].
      split; [by apply first_throw_0|]. split; [done|].
      simpl. by rewrite !Nat.add_0_r.
    + lia.
Qed.

Lemma spec_uninitialized_value_construct_n n b j o h t l bd :
  blk_at h b bd -> (b = None -> n = 0) ->
  (forall k, k < n -> j + k < length bd -> bd !! (j + k) = Some None) ->
  spec (uninitialized_value_construct_n (Ptr b j) n) (mkWorld o h t l)
     (fun _ w' => (n = 0 \/ j + n <= length bd) /\ no_throw t n /\
        w' = mkWorld o (upd_blk b (list_inserts j (replicate n (Some T_default)) bd) h)
               (t + n) (l ++ (EvConstruct (addr_of b) <$> seq j n)))
     (fun e' w' => exists k, k < n /\ (k = 0 \/ j + k <= length bd) /\
        first_throw t k /\ e' = thrown ValueCtor /\
        w' = mkWorld o h (S (t + k))
               (l ++ (EvConstruct (addr_of b) <$> seq j k) ++
                  (EvDestroy (addr_of b) <$> seq j k)))
     (0 < n /\ length bd < j + n).
Proof.
  intros Hb Hnull Hraw. unfold uninitialized_value_construct_n.
  destruct b as [a|]; simpl in *.
  - eapply spec_mono.
    { eapply (spec_uninitialized_value_construct_loop n a j 0); [done|].
      intros k Hk. lia. }
    + intros _ w' (Hroom & Hnt & ->). rewrite Nat.add_0_r in *. done.
    + intros e' w' (k & Hk & Hroom & Hft & -> & ->). rewrite Nat.add_0_r in *.
      exists k. split; [done|]. split; [done|]. split; [done|]. split; [done|].
      simpl. f_equal. rewrite list_inserts_raw.
      * by apply insert_id.
      * intros p Hp Hlt. apply Hraw; [lia|done].
    + lia.
  - rewrite (Hnull eq_refl). simpl. apply spec_ret.
    split; [by left|]. split; [apply no_throw_0|]. by rewrite Nat.add_0_r, app_nil_r.
Qed.

Lemma wp_uninitialized_value_construct_n_opt n b j o h t l bd :
  blk_at h b bd -> raw_range bd j n ->
  wp (uninitialized_value_construct_n (Ptr b j) n) (mkWorld o h t l)
     (fun _ w' => no_throw t n /\
        w' = mkWorld o (upd_blk b (list_inserts j (replicate n (Some T_default)) bd) h)
               (t + n) (l ++ (EvConstruct (addr_of b) <$> seq j n)))
     (fun e' w' => exists k, k < n /\ first_throw t k /\ e' = thrown ValueCtor /\
        w' = mkWorld o h (S (t + k))
               (l ++ (EvConstruct (addr_of b) <$> seq j k) ++
                  (EvDestroy (addr_of b) <$> seq j k))).
Proof.
  intros Hb Hdst.
  assert (Hspec := spec_uninitialized_value_construct_n n b j o h t l bd Hb
                     (raw_range_null _ _ _ _ _ Hb Hdst) (raw_range_where _ _ _ Hdst)).
  eapply wp_mono.
  - eapply spec_wp; [exact Hspec|].
    intros [? ?]. by eapply (raw_range_room bd j n True).
  - intros _ w' (_ & H1 & ->). done.
  - intros e' w' (k & Hk & _ & Hft & -> & ->). exists k. done.
Qed.

(** *** RawMemory *)

Lemma wp_RawMemory_ctor n o h t l :
  wp (RawMemory_ctor n) (mkWorld o h t l)
     (fun r w' =>
        (n = 0 /\ r = mkRaw None 0 /\ w' = mkWorld o h t l) \/
        (n <> 0 /\ throws t = false /\ r = mkRaw (Some (fresh (dom h))) n /\
         w' = mkWorld o (<[fresh (dom h) := replicate (slots n) None]> h) (S t)
                (l ++ [EvAlloc (fresh (dom h)) n])))
     (fun e w' => n <> 0 /\ throws t = true /\ e = bad_alloc /\ w' = mkWorld o h (S t) l).
Proof.
  unfold RawMemory_ctor, Allocate. destruct n as [|n]; cbn [Nat.eqb].
  - apply wp_bind, wp_ret, wp_ret. by left.
  - apply wp_bind, wp_bind, wp_may_throw; [done| |]; simpl; intros _ Ht; [|done].
    unfold wp. simpl. right. done.
Qed.

Lemma wp_RawMemory_dtor r o h t l blk :
  blk_at h (buffer_ r) blk ->
  wp (RawMemory_dtor r) (mkWorld o h t l)
     (fun _ w' => w' = mkWorld o (free_blk (buffer_ r) h) t (l ++ free_ev (buffer_ r)))
     (fun _ _ => False).
Proof.
  unfold RawMemory_dtor, Deallocate. destruct (buffer_ r) as [a|]; simpl.
  - intros Ha. unfold wp. simpl. by rewrite Ha.
  - intros _. apply wp_ret. by rewrite app_nil_r.
Qed.

Lemma fresh_heap_None (h : gmap nat (list (option T))) : h !! fresh (dom h) = None.
Proof. apply not_elem_of_dom, is_fresh. Qed.

Lemma blk_at_fresh h b blk : blk_at h b blk -> distinct b (Some (fresh (dom h))).
Proof.
  intros Hb a -> [= <-]. simpl in Hb. by rewrite fresh_heap_None in Hb.
Qed.

Lemma blk_at_insert_ne h b blk a' blk' :
  blk_at h b blk -> distinct b (Some a') -> blk_at (<[a' := blk']> h) b blk.
Proof.
  destruct b as [a|]; simpl; [|done]. intros Ha Hd.
  rewrite lookup_insert_ne; [done|]. intros ->. by eapply Hd.
Qed.

(** *** Vector objects *)

Lemma wp_get_obj this v w Q E :
  objs w !! this = Some v -> Q v w -> wp (get_obj this) w Q E.
Proof. intros Hv HQ. unfold wp, get_obj. by rewrite Hv. Qed.

Lemma wp_put_obj this v w Q E :
  Q tt (set_objs (<[this := v]> (objs w)) w) -> wp (put_obj this v) w Q E.
Proof. done. Qed.

Lemma vals_at_prefix (xs : list T) (rest : list (option T)) :
  vals_at ((Some <$> xs) ++ rest) 0 xs.
Proof.
  intros k x Hk. simpl. rewrite lookup_app_l.
  - by rewrite list_lookup_fmap, Hk.
  - rewrite length_fmap. by eapply lookup_lt_Some.
Qed.

Lemma raw_range_replicate n : raw_range (replicate n None) 0 n.
Proof. intros k Hk. simpl. by apply lookup_replicate_2. Qed.

Lemma inserts_prefix {A} (ys : list A) (l : list A) :
  length ys <= length l -> list_inserts 0 ys l = ys ++ drop (length ys) l.
Proof.
  intros Hle. apply list_eq. intros i.
  destruct (decide (i < length ys)) as [Hlt|Hge].
  - rewrite list_lookup_inserts by lia. rewrite lookup_app_l by done.
    by rewrite Nat.sub_0_r.
  - rewrite list_lookup_inserts_ge by lia. rewrite lookup_app_r by lia.
    rewrite lookup_drop. f_equal. lia.
Qed.

Lemma inserts_fill (xs : list T) n :
  length xs <= n ->
  list_inserts 0 (Some <$> xs) (replicate n None) = full_blk xs n.
Proof.
  intros Hle. rewrite inserts_prefix by (by rewrite length_fmap, length_replicate).
  by rewrite length_fmap, drop_replicate.
Qed.

Lemma length_full_blk xs cap : length xs <= cap -> length (full_blk xs cap) = cap.
Proof. intros H. unfold full_blk. rewrite length_app, length_fmap, length_replicate. lia. Qed.

Lemma full_blk_lookup_live xs cap k x :
  xs !! k = Some x -> full_blk xs cap !! k = Some (Some x).
Proof. intros H. by apply (vals_at_prefix xs _ k x). Qed.

Lemma full_blk_lookup_raw xs cap k :
  length xs <= k < cap -> full_blk xs cap !! k = Some None.
Proof.
  intros H. unfold full_blk. rewrite lookup_app_r by (rewrite ?length_fmap; lia).
  rewrite length_fmap. apply lookup_replicate_2. lia.
Qed.

Lemma full_blk_lookup_ge xs cap k :
  length xs <= cap -> cap <= k -> full_blk xs cap !! k = None.
Proof. intros H1 H2. apply lookup_ge_None. rewrite length_full_blk; lia. Qed.

Lemma live_range_inserts (f : T -> option T) (xs : list T) blk :
  (forall x, is_Some (f x)) -> length xs <= length blk ->
  live_range (list_inserts 0 (f <$> xs) blk) 0 (length xs).
Proof.
  intros Hf Hle k Hk. simpl.
  destruct (lookup_lt_is_Some_2 xs k Hk) as [x Hx].
  destruct (Hf x) as [y Hy]. exists y.
  rewrite list_lookup_inserts by (rewrite ?length_fmap; lia).
  by rewrite Nat.sub_0_r, list_lookup_fmap, Hx, <- Hy.
Qed.

Lemma xfer_after_is_Some x : is_Some (xfer_after x).
Proof. unfold xfer_after. destruct moves_elements; eauto. Qed.

Lemma xfer_after_copy x : moves_elements = false -> xfer_after x = Some x.
Proof. unfold xfer_after. by intros ->. Qed.

(** Destroying the whole live prefix of a block in which it was
    transferred from or kept. *)
Lemma inserts_destroy_all (f : T -> option T) (xs : list T) cap :
  length xs <= cap ->
  list_inserts 0 (replicate (length xs) None)
    (list_inserts 0 (f <$> xs) (full_blk xs cap)) = replicate cap None.
Proof.
  intros Hle. apply list_eq. intros i.
  destruct (decide (i < length xs)) as [Hlt|Hge].
  - rewrite list_lookup_inserts by (rewrite ?length_replicate, ?length_inserts, ?length_full_blk; lia).
    rewrite !lookup_replicate_2 by lia. done.
  - rewrite list_lookup_inserts_ge by (rewrite ?length_replicate, ?length_inserts, ?length_full_blk; lia).
    rewrite list_lookup_inserts_ge by (rewrite ?length_fmap; lia).
    destruct (decide (i < cap)).
    + rewrite full_blk_lookup_raw by lia. by rewrite lookup_replicate_2.
    + rewrite full_blk_lookup_ge by lia. symmetry. apply lookup_ge_None.
      rewrite length_replicate. lia.
Qed.

(** *** [Reserve] *)

Lemma spec_Reserve this n v xs o h t l :
  o !! this = Some v -> vec_repr h v xs ->
  spec (Reserve this n) (mkWorld o h t l)
     (fun _ w' =>
        (n <= capacity_ (data_ v) /\ w' = mkWorld o h t l) \/
        (capacity_ (data_ v) < n /\ throws t = false /\ size_ v <= slots n /\
         (nothrow_move_constructible = false -> no_throw (S t) (size_ v)) /\
         w' = mkWorld (<[this := mkVec (mkRaw (Some (fresh (dom h))) n) (size_ v)]> o)
                (free_blk (buffer_ (data_ v))
                   (<[fresh (dom h) := full_blk xs (slots n)]> h))
                (S t + cost nothrow_move_constructible * size_ v)
                (l ++ [EvAlloc (fresh (dom h)) n] ++
                   (EvConstruct (fresh (dom h)) <$> seq 0 (size_ v)) ++
                   (EvDestroy (addr_of (buffer_ (data_ v))) <$> seq 0 (size_ v)) ++
                   free_ev (buffer_ (data_ v)))))
     (fun e w' =>
        capacity_ (data_ v) < n /\
        ((throws t = true /\ e = bad_alloc /\ w' = mkWorld o h (S t) l) \/
         (throws t = false /\ exists k, k < size_ v /\ k <= slots n /\
            nothrow_move_constructible = false /\ first_throw (S t) k /\ e = xfer_exn /\
            w' = mkWorld o
                   (upd_blk (buffer_ (data_ v))
                      (list_inserts 0 (xfer_after <$> take k xs)
                         (full_blk xs (capacity_ (data_ v)))) h)
                   (S (S t + k))
                   (l ++ [EvAlloc (fresh (dom h)) n] ++
                      (EvConstruct (fresh (dom h)) <$> seq 0 k) ++
                      (EvDestroy (fresh (dom h)) <$> seq 0 k) ++
                      [EvFree (fresh (dom h))]))))
     (capacity_ (data_ v) < n /\ slots n < size_ v /\ throws t = false /\
      (nothrow_move_constructible = false -> no_throw (S t) (S (slots n)))).
Proof.
  intros Hthis (Hlen & Hcap & Hblk). unfold Reserve.
  apply spec_bind, wp_spec. eapply wp_get_obj; [done|].
  destruct (Nat.leb_spec n (capacity_ (data_ v))) as [Hle|Hlt].
  { apply spec_ret. by left. }
  set (a' := fresh (dom h)). set (b := buffer_ (data_ v)) in *.
  assert (Hd : distinct b (Some a')) by (by eapply blk_at_fresh).
  apply spec_bind, wp_spec. eapply wp_mono; [apply wp_RawMemory_ctor| |].
  2:{ intros e w' (_ & Ht & -> & ->). split; [done|]. by left. }
  intros r w1 [(-> & _)|(_ & Ht & -> & ->)]; [lia|]. fold a'.
  apply spec_bind, spec_on_unwind. unfold GetAddress. simpl buffer_. fold b.
  eapply spec_mono.
  { eapply (spec_MoveIfItsPossible (size_ v) xs b 0 (Some a') 0); try done.
    - by apply blk_at_insert_ne.
    - simpl. apply lookup_insert_eq.
    - apply vals_at_prefix.
    - intros k Hk Hk'. rewrite length_replicate in Hk'. by apply lookup_replicate_2. }
  - intros _ w2 (Hroom & Hnt & ->). rewrite length_replicate in Hroom.
    assert (Hsz : size_ v <= slots n) by lia.
    apply spec_bind, wp_spec.
    eapply wp_mono; [eapply (wp_destroy_n_opt (size_ v) b 0)| |done].
    { instantiate (1 := list_inserts 0 (xfer_after <$> xs) (full_blk xs (capacity_ (data_ v)))).
      destruct b as [a|] eqn:Hb; simpl in *.
      - rewrite lookup_insert_ne by (intros ->; by eapply Hd).
        apply lookup_insert_eq.
      - rewrite Hblk. by rewrite list_inserts_nil. }
    { rewrite <- Hlen. apply live_range_inserts; [apply xfer_after_is_Some|].
      rewrite length_full_blk; lia. }
    intros _ w3 ->. apply spec_bind, wp_spec, wp_put_obj. simpl.
    apply wp_spec. eapply wp_mono; [eapply wp_RawMemory_dtor| |done].
    { fold b. destruct b as [a|] eqn:Hb; simpl in *;
        [apply lookup_insert_eq | by rewrite Hblk, !list_inserts_nil]. }
    intros _ w4 ->. right. split; [done|]. split; [done|]. split; [done|].
    split; [done|]. fold b. simpl. f_equal.
    + rewrite <- Hlen, inserts_destroy_all, inserts_fill by lia.
      destruct b as [a|] eqn:Hb; simpl in *.
      * assert (a <> a') by (intros ->; by eapply Hd). heap_eq.
      * by rewrite insert_insert_eq.
    + by rewrite <- !app_assoc.
  - intros e w2 (k & Hk & Hroom & Hn & Hft & -> & ->).
    rewrite length_replicate in Hroom.
    eapply wp_mono; [eapply (wp_RawMemory_dtor (mkRaw (Some a') n))| |done].
    { simpl. destruct b as [a|] eqn:Hb; simpl in *.
      - rewrite lookup_insert_ne by (intros ->; by eapply Hd).
        apply lookup_insert_eq.
      - apply lookup_insert_eq. }
    intros _ w3 ->. split; [done|]. right. split; [done|].
    exists k. split; [done|]. split; [lia|]. split; [done|]. split; [done|].
    split; [done|]. simpl. f_equal.
    + destruct b as [a|] eqn:Hb; simpl in *.
      * assert (a <> a') by (intros ->; by eapply Hd). heap_eq.
        symmetry. apply fresh_heap_None.
      * rewrite delete_insert_eq. apply delete_id, fresh_heap_None.
    + by rewrite <- !app_assoc.
  - rewrite length_replicate, Nat.sub_0_r. intros (? & ? & Hnt).
    split; [done|]. split; [lia|]. by split.
Qed.

(** [Reserve] when the bytes asked for do not wrap. *)
Lemma wp_Reserve this n v xs o h t l :
  o !! this = Some v -> vec_repr h v xs -> (capacity_ (data_ v) < n -> fits n) ->
  wp (Reserve this n) (mkWorld o h t l)
     (fun _ w' =>
        (n <= capacity_ (data_ v) /\ w' = mkWorld o h t l) \/
        (capacity_ (data_ v) < n /\ throws t = false /\
         (nothrow_move_constructible = false -> no_throw (S t) (size_ v)) /\
         w' = mkWorld (<[this := mkVec (mkRaw (Some (fresh (dom h))) n) (size_ v)]> o)
                (free_blk (buffer_ (data_ v)) (<[fresh (dom h) := full_blk xs n]> h))
                (S t + cost nothrow_move_constructible * size_ v)
                (l ++ [EvAlloc (fresh (dom h)) n] ++
                   (EvConstruct (fresh (dom h)) <$> seq 0 (size_ v)) ++
                   (EvDestroy (addr_of (buffer_ (data_ v))) <$> seq 0 (size_ v)) ++
                   free_ev (buffer_ (data_ v)))))
     (fun e w' =>
        capacity_ (data_ v) < n /\
        ((throws t = true /\ e = bad_alloc /\ w' = mkWorld o h (S t) l) \/
         (throws t = false /\ exists k, k < size_ v /\
            nothrow_move_constructible = false /\ first_throw (S t) k /\ e = xfer_exn /\
            w' = mkWorld o
                   (upd_blk (buffer_ (data_ v))
                      (list_inserts 0 (xfer_after <$> take k xs)
                         (full_blk xs (capacity_ (data_ v)))) h)
                   (S (S t + k))
                   (l ++ [EvAlloc (fresh (dom h)) n] ++
                      (EvConstruct (fresh (dom h)) <$> seq 0 k) ++
                      (EvDestroy (fresh (dom h)) <$> seq 0 k) ++
                      [EvFree (fresh (dom h))])))).
Proof.
  intros Hthis Hrepr Hfits.
  pose proof Hrepr as (Hlen & Hcap & Hblk).
  eapply wp_mono.
  - eapply spec_wp; [by eapply spec_Reserve|].
    intros (Hlt & Hs & _). rewrite (fits_slots n (Hfits Hlt)) in Hs. lia.
  - intros _ w' [?|(Hlt & Ht & _ & Hnt & ->)]; [by left|right].
    by rewrite (fits_slots n (Hfits Hlt)).
  - intros e w' (Hlt & [?|(Ht & k & Hk & _ & H)]); (split; [done|]); [by left|right].
    split; [done|]. by exists k.
Qed.

(** *** [EmplaceWithRelocation] *)

(** The new block once the element and both halves of the old contents
    have been placed. *)
Lemma emplaced_blk xs index v ncap :
  index <= length xs -> length xs < ncap ->
  list_inserts (index + 1) (Some <$> drop index xs)
    (list_inserts 0 (Some <$> take index xs) (<[index := Some v]> (replicate ncap None)))
  = full_blk (take index xs ++ v :: drop index xs) ncap.
Proof.
  intros Hi Hc. apply list_eq. intros i.
  assert (Hlt : length (take index xs) = index) by (rewrite length_take; lia).
  assert (Hld : length (drop index xs) = length xs - index) by apply length_drop.
  unfold full_blk. rewrite length_app, Hlt. simpl. rewrite Hld.
  destruct (decide (i < index)) as [H1|H1].
  - rewrite list_lookup_inserts_lt by lia.
    rewrite list_lookup_inserts
      by (rewrite ?length_fmap, ?length_insert, ?length_replicate; lia).
    rewrite fmap_app, <- app_assoc, lookup_app_l by (rewrite length_fmap; lia).
    by rewrite Nat.sub_0_r.
  - destruct (decide (i = index)) as [->|H2].
    + rewrite list_lookup_inserts_lt by lia.
      rewrite list_lookup_inserts_ge by (rewrite length_fmap; lia).
      rewrite list_lookup_insert_eq by (rewrite length_replicate; lia).
      rewrite fmap_app, <- app_assoc, lookup_app_r by (rewrite length_fmap; lia).
      by rewrite length_fmap, Hlt, Nat.sub_diag.
    + destruct (decide (i < S (length xs))) as [H3|H3].
      * rewrite list_lookup_inserts
          by (rewrite ?length_fmap, ?length_inserts, ?length_insert, ?length_replicate; lia).
        rewrite fmap_app, <- app_assoc, lookup_app_r by (rewrite length_fmap; lia).
        rewrite length_fmap, Hlt. simpl.
        replace (i - index) with (S (i - (index + 1))) by lia. simpl.
        rewrite lookup_app_l by (rewrite length_fmap; lia). done.
      * rewrite list_lookup_inserts_ge by (rewrite length_fmap; lia).
        rewrite list_lookup_inserts_ge by (rewrite length_fmap; lia).
        rewrite list_lookup_insert_ne by lia.
        rewrite lookup_app_r by (rewrite length_fmap, length_app, Hlt; simpl; lia).
        rewrite length_fmap, length_app, Hlt. simpl. rewrite Hld.
        destruct (decide (i < ncap)).
        -- rewrite !lookup_replicate_2 by lia. done.
        -- rewrite !(proj2 (lookup_ge_None _ _)) by (rewrite length_replicate; lia). done.
Qed.

Lemma src_after_copy m xs cap : moves_elements = false -> src_after m xs cap = full_blk xs cap.
Proof.
  intros Hm. unfold src_after. apply list_inserts_same. intros i y Hy.
  rewrite list_lookup_fmap in Hy. destruct (take m xs !! i) as [x|] eqn:Hx; [|done].
  simpl in Hy. rewrite xfer_after_copy in Hy by done. injection Hy as <-.
  simpl. apply full_blk_lookup_live. by apply lookup_take_Some in Hx as [? ?].
Qed.

Lemma src_after_split index k xs cap :
  index <= length xs ->
  list_inserts index (xfer_after <$> take k (drop index xs)) (src_after index xs cap)
  = src_after (index + k) xs cap.
Proof.
  intros Hi. unfold src_after.
  rewrite <- take_take_drop.
  rewrite fmap_app, list_inserts_app_l, length_fmap, length_take.
  by replace (index `min` length xs + 0) with index by lia.
Qed.

Lemma src_after_vals index xs cap :
  index <= length xs -> vals_at (src_after index xs cap) index (drop index xs).
Proof.
  intros Hi k x Hx. unfold src_after.
  rewrite list_lookup_inserts_ge by (rewrite length_fmap, length_take; lia).
  apply full_blk_lookup_live. by rewrite lookup_drop in Hx.
Qed.

Lemma src_after_live m xs cap :
  length xs <= cap -> live_range (src_after m xs cap) 0 (length xs).
Proof.
  intros Hc k Hk. simpl. unfold src_after.
  destruct (lookup_lt_is_Some_2 xs k Hk) as [x Hx].
  destruct (decide (k < m)) as [Hlt|Hge].
  - destruct (xfer_after_is_Some x) as [y Hy]. exists y.
    rewrite list_lookup_inserts
      by (rewrite ?length_fmap, ?length_take, ?length_full_blk; lia).
    rewrite Nat.sub_0_r, list_lookup_fmap, lookup_take_lt by done.
    by rewrite Hx, <- Hy.
  - exists x. rewrite list_lookup_inserts_ge by (rewrite length_fmap, length_take; lia).
    by apply full_blk_lookup_live.
Qed.

Lemma grown_gt size : size < grown size.
Proof. unfold grown. destruct size; simpl; lia. Qed.

Lemma spec_EmplaceWithRelocation this index via v vec xs o h t l :
  o !! this = Some vec -> vec_repr h vec xs -> index <= size_ vec ->
  let a' := fresh (dom h) in
  let b := buffer_ (data_ vec) in
  let cap := capacity_ (data_ vec) in
  let size := size_ vec in
  let t2 := S t + cost (ctor_nothrow via) in
  spec (EmplaceWithRelocation this index via v) (mkWorld o h t l)
     (fun p w' =>
        throws t = false /\
        (ctor_nothrow via = false -> throws (S t) = false) /\
        (nothrow_move_constructible = false -> no_throw t2 size) /\
        p = Ptr (Some a') index /\
        w' = mkWorld (<[this := mkVec (mkRaw (Some a') (grown size)) (S size)]> o)
               (free_blk b
                  (<[a' := full_blk (take index xs ++ v :: drop index xs) (grown size)]> h))
               (t2 + cost nothrow_move_constructible * size)
               (l ++ [EvAlloc a' (grown size); EvConstruct a' index] ++
                  (EvConstruct a' <$> seq 0 index) ++
                  (EvConstruct a' <$> seq (index + 1) (size - index)) ++
                  (EvDestroy (addr_of b) <$> seq 0 size) ++ free_ev b))
     (fun e w' =>
        (throws t = true /\ e = bad_alloc /\ w' = mkWorld o h (S t) l) \/
        (throws t = false /\ ctor_nothrow via = false /\ throws (S t) = true /\
         e = thrown (ctor_op via) /\
         w' = mkWorld o h (S (S t)) (l ++ [EvAlloc a' (grown size); EvFree a'])) \/
        (throws t = false /\ (ctor_nothrow via = false -> throws (S t) = false) /\
         nothrow_move_constructible = false /\ e = xfer_exn /\
         ((exists k, k < index /\ first_throw t2 k /\
             w' = mkWorld o (upd_blk b (src_after k xs cap) h) (S (t2 + k))
                    (l ++ [EvAlloc a' (grown size); EvConstruct a' index] ++
                       (EvConstruct a' <$> seq 0 k) ++
                       (EvDestroy a' <$> seq 0 k) ++
                       [EvDestroy a' index; EvFree a'])) \/
          (exists k, k < size - index /\ no_throw t2 index /\
             first_throw (t2 + index) k /\
             w' = mkWorld o (upd_blk b (src_after (index + k) xs cap) h)
                    (S (t2 + index + k))
                    (l ++ [EvAlloc a' (grown size); EvConstruct a' index] ++
                       (EvConstruct a' <$> seq 0 index) ++
                       (EvConstruct a' <$> seq (index + 1) k) ++
                       (EvDestroy a' <$> seq (index + 1) k) ++
                       (EvDestroy a' <$> seq 0 (index + 1)) ++
                       [EvFree a'])))))
     (slots (grown size) <= size).
Proof.
  intros Hthis (Hlen & Hcap & Hblk) Hidx a' b cap size t2.
  fold b cap in Hblk. fold size in Hlen. fold size cap in Hcap. fold size in Hidx.
  unfold EmplaceWithRelocation.
  apply spec_bind, wp_spec. eapply wp_get_obj; [done|]. fold size.
  change (if size =? 0 then 1 else size * 2) with (grown size).
  pose proof (grown_gt size) as Hg.
  assert (Hd : distinct b (Some a')) by (by eapply blk_at_fresh).
  assert (Hne : forall a, b = Some a -> a <> a') by (intros a Hb ->; by eapply Hd).
  apply spec_bind, wp_spec. eapply wp_mono; [apply wp_RawMemory_ctor| |].
  2:{ intros e w' (_ & Ht & -> & ->). by left. }
  intros r w1 [(Hz & _)|(_ & Ht & -> & ->)]; [lia|]. fold a'.
  set (m := slots (grown size)).
  set (nb := replicate m (@None T)).
  apply spec_bind, spec_on_unwind.
  apply spec_bind. unfold RawMemory_plus. simpl capacity_.
  rewrite (proj2 (Nat.leb_le _ _)) by lia. apply spec_ret. simpl buffer_.
  apply spec_bind. eapply spec_mono.
  { eapply spec_args_construct. apply lookup_insert_eq. }
  3:{ unfold nb. rewrite length_replicate. lia. }
  2:{ intros e w' (Hn & Ht1 & -> & ->).
      eapply wp_mono; [eapply (wp_RawMemory_dtor (mkRaw (Some a') (grown size)))| |done].
      { simpl. apply lookup_insert_eq. }
      intros _ w1 ->. right. left. repeat (split; [done|]). simpl. f_equal.
      - rewrite delete_insert_eq. apply delete_id, fresh_heap_None.
      - by rewrite <- app_assoc. }
  intros _ w2 (Him & Hct & ->). rewrite insert_insert_eq. fold t2.
  unfold nb in Him. rewrite length_replicate in Him.
  set (nb2 := <[index := Some v]> nb).
  (* the prefix *)
  apply spec_bind, spec_catch, wp_spec. unfold GetAddress. simpl buffer_. fold b.
  eapply wp_mono.
  { eapply (wp_MoveIfItsPossible index (take index xs) b 0 (Some a') 0 _ _ _ _
              (full_blk xs cap) nb2); try done.
    - by apply blk_at_insert_ne.
    - simpl. apply lookup_insert_eq.
    - rewrite length_take. lia.
    - intros k x Hx. apply lookup_take_Some in Hx as [Hx _].
      by apply vals_at_prefix.
    - intros k Hk. simpl. unfold nb2, nb.
      rewrite list_lookup_insert_ne by lia. apply lookup_replicate_2. lia. }
  2:{ intros e w' (k & Hk & Hn & Hft & -> & ->). apply wp_spec.
      apply wp_bind. unfold RawMemory_at. simpl capacity_.
      rewrite (proj2 (Nat.ltb_lt _ _)) by lia. apply wp_ret. simpl buffer_.
      apply wp_bind. eapply wp_destroy_at.
      { simpl. destruct b as [a|] eqn:Hb; simpl.
        - rewrite lookup_insert_ne by (pose proof (Hne _ eq_refl); congruence). apply lookup_insert_eq.
        - apply lookup_insert_eq. }
      { unfold nb2, nb. apply list_lookup_insert_eq. rewrite length_replicate. lia. }
      apply wp_raise. simpl.
      eapply wp_mono; [eapply (wp_RawMemory_dtor (mkRaw (Some a') (grown size)))| |done].
      { simpl. apply lookup_insert_eq. }
      intros _ w1 ->. right. right. repeat (split; [done|]). left.
      exists k. repeat (split; [done|]). simpl. f_equal.
      - rewrite take_take, Nat.min_l by lia. fold (src_after k xs cap).
        destruct b as [a|] eqn:Hb; simpl.
        + specialize (Hne a eq_refl). heap_eq. symmetry. apply fresh_heap_None.
        + rewrite !delete_insert_eq. apply delete_id, fresh_heap_None.
      - rewrite <- !app_assoc. done. }
  intros _ w3 [Hnt1 ->].
  fold (src_after index xs cap).
  set (nb3 := list_inserts 0 (Some <$> take index xs) nb2).
  (* the suffix *)
  apply spec_catch.
  apply spec_bind. unfold RawMemory_plus. simpl capacity_.
  rewrite (proj2 (Nat.leb_le _ _)) by lia. apply spec_ret. simpl buffer_.
  unfold padd. simpl base. simpl off.
  assert (Hnb3 : length nb3 = m).
  { unfold nb3, nb2, nb. by rewrite length_inserts, length_insert, length_replicate. }
  eapply spec_mono.
  { eapply (spec_MoveIfItsPossible (size - index) (drop index xs) b index (Some a')
              (index + 1) _ _ _ _ (src_after index xs cap) nb3); try done.
    - destruct b as [a|] eqn:Hb; simpl.
      + rewrite lookup_insert_ne by (pose proof (Hne _ eq_refl); congruence). apply lookup_insert_eq.
      + simpl in Hblk. unfold src_after. rewrite Hblk. apply list_inserts_nil.
    - simpl. apply lookup_insert_eq.
    - rewrite length_drop. lia.
    - apply src_after_vals. lia.
    - intros k Hk Hk'. rewrite Hnb3 in Hk'. unfold nb3, nb2, nb.
      rewrite list_lookup_inserts_ge by (rewrite length_fmap, length_take; lia).
      rewrite list_lookup_insert_ne by lia. apply lookup_replicate_2. lia. }
  3:{ rewrite Hnb3. intros (? & ? & _). lia. }
  2:{ intros e w' (k & Hk & _ & Hn & Hft & -> & ->). apply wp_spec.
      apply wp_bind. eapply wp_mono; [eapply (wp_destroy_n (index + 1) a' 0)| |done].
      { simpl. destruct b as [a|] eqn:Hb; simpl.
        - rewrite lookup_insert_ne by (pose proof (Hne _ eq_refl); congruence). apply lookup_insert_eq.
        - apply lookup_insert_eq. }
      { intros i Hi. simpl. unfold nb3, nb2, nb.
        destruct (decide (i < index)) as [Hlt|Hge].
        - destruct (lookup_lt_is_Some_2 xs i) as [x Hx]; [lia|]. exists x.
          rewrite list_lookup_inserts
            by (rewrite ?length_fmap, ?length_take, ?length_insert, ?length_replicate; lia).
          by rewrite Nat.sub_0_r, list_lookup_fmap, lookup_take_lt, Hx by done.
        - exists v. assert (i = index) as -> by lia.
          rewrite list_lookup_inserts_ge by (rewrite length_fmap, length_take; lia).
          apply list_lookup_insert_eq. rewrite length_replicate. lia. }
      intros _ w1 ->. apply wp_raise.
      eapply wp_mono; [eapply (wp_RawMemory_dtor (mkRaw (Some a') (grown size)))| |done].
      { simpl. apply lookup_insert_eq. }
      intros _ w5 ->. right. right. repeat (split; [done|]). right.
      rewrite Hn in *. simpl in Hft, Hnt1. rewrite Nat.add_0_r in Hft.
      exists k. repeat (split; [by auto|]). simpl. f_equal.
      - rewrite src_after_split by lia.
        destruct b as [a|] eqn:Hb; simpl.
        + specialize (Hne a eq_refl). heap_eq. symmetry. apply fresh_heap_None.
        + rewrite !delete_insert_eq. apply delete_id, fresh_heap_None.
      - lia.
      - rewrite <- !app_assoc. done. }
  intros _ w4 (Hroom & Hnt2 & ->). rewrite Hnb3 in Hroom.
  assert (Hfit : fits (grown size)) by (apply slots_grown; fold m; lia).
  assert (Hm : m = grown size) by (by apply fits_slots).
  (* the old elements go, the buffers are exchanged *)
  assert (Hsp : list_inserts index (xfer_after <$> drop index xs) (src_after index xs cap)
                = src_after size xs cap).
  { rewrite <- (take_ge (drop index xs) (size - index)) by (rewrite length_drop; lia).
    rewrite src_after_split by lia. f_equal. lia. }
  rewrite Hsp.
  apply spec_bind, wp_spec.
  eapply wp_mono; [eapply (wp_destroy_n_opt size b 0)| |done].
  { instantiate (1 := src_after size xs cap).
    destruct b as [a|] eqn:Hb; simpl.
    - rewrite lookup_insert_ne by (pose proof (Hne _ eq_refl); congruence). apply lookup_insert_eq.
    - simpl in Hblk. unfold src_after. rewrite Hblk. by rewrite !list_inserts_nil. }
  { rewrite <- Hlen. apply src_after_live. lia. }
  intros _ w5 ->. apply spec_bind, wp_spec, wp_put_obj. simpl.
  apply spec_bind, wp_spec. eapply wp_mono; [eapply wp_RawMemory_dtor| |done].
  { fold b. destruct b as [a|] eqn:Hb; simpl; [apply lookup_insert_eq|].
    simpl in Hblk. unfold src_after. rewrite Hblk. by rewrite !list_inserts_nil. }
  intros _ w6 ->. apply spec_ret. repeat (split; [done|]).
  split.
  { intros Hn. specialize (Hnt1 Hn). specialize (Hnt2 Hn). rewrite Hn in Hnt2.
    replace (t2 + cost false * index) with (t2 + index) in Hnt2 by (simpl; lia).
    replace size with (index + (size - index)) by lia.
    by apply no_throw_split. }
  split; [done|]. fold b. f_equal.
  - unfold nb3, nb2, nb. rewrite Hm, emplaced_blk by lia.
    destruct b as [a|] eqn:Hb; simpl.
    + specialize (Hne a eq_refl). heap_eq.
    + by rewrite !insert_insert_eq.
  - destruct nothrow_move_constructible; simpl; lia.
  - rewrite <- !app_assoc. done.
Qed.

(** *** Move assignment inside a block: [std::move], [std::move_backward] *)

Lemma live_blk_lookup zs rest k z :
  zs !! k = Some z -> live_blk zs rest !! k = Some (Some z).
Proof. apply vals_at_prefix. Qed.

Lemma live_blk_insert zs rest k z :
  k < length zs -> <[k := Some z]> (live_blk zs rest) = live_blk (<[k := z]> zs) rest.
Proof.
  intros Hk. unfold live_blk.
  rewrite insert_app_l by (by rewrite length_fmap). by rewrite list_fmap_insert.
Qed.

Lemma live_blk_length zs rest : length (live_blk zs rest) = length zs + length rest.
Proof. unfold live_blk. by rewrite length_app, length_fmap. Qed.

Lemma full_blk_live xs cap : full_blk xs cap = live_blk xs (replicate (cap - length xs) None).
Proof. done. Qed.

Lemma length_fwd_step p zs : length (fwd_step p zs) = length zs.
Proof. unfold fwd_step. destruct (zs !! S p); [|done]. by rewrite !length_insert. Qed.

Lemma length_bwd_step q zs : length (bwd_step q zs) = length zs.
Proof. unfold bwd_step. destruct (zs !! q); [|done]. by rewrite !length_insert. Qed.

Lemma length_shl_steps n : forall p zs, length (shl_steps p n zs) = length zs.
Proof.
  induction n as [|n IH]; intros p zs; [done|]. simpl.
  by rewrite IH, length_fwd_step.
Qed.

Lemma length_shr_steps n : forall p zs, length (shr_steps p n zs) = length zs.
Proof.
  induction n as [|n IH]; intros p zs; [done|]. simpl.
  by rewrite IH, length_bwd_step.
Qed.

Lemma lookup_shl_steps n : forall p zs i,
  S p + n <= length zs -> i <> p + n ->
  shl_steps p n zs !! i = if decide (p <= i < p + n) then zs !! S i else zs !! i.
Proof.
  induction n as [|n IH]; intros p zs i Hlen Hi.
  - simpl. case_decide; [lia|done].
  - simpl. rewrite IH by (rewrite ?length_fwd_step; lia).
    unfold fwd_step.
    destruct (lookup_lt_is_Some_2 zs (S p)) as [x Hx]; [lia|]. rewrite Hx.
    repeat case_decide; try lia.
    + rewrite list_lookup_insert_ne by lia. by rewrite list_lookup_insert_ne by lia.
    + assert (i = p) as -> by lia.
      rewrite list_lookup_insert_ne by lia.
      rewrite list_lookup_insert_eq by lia. done.
    + rewrite list_lookup_insert_ne by lia. by rewrite list_lookup_insert_ne by lia.
Qed.

Lemma lookup_shr_steps n : forall p zs i,
  p + n < length zs -> i <> p ->
  shr_steps p n zs !! i = if decide (p < i <= p + n) then zs !! (i - 1) else zs !! i.
Proof.
  induction n as [|n IH]; intros p zs i Hlen Hi.
  - simpl. case_decide; [lia|done].
  - simpl. rewrite IH by (rewrite ?length_bwd_step; lia).
    unfold bwd_step.
    destruct (lookup_lt_is_Some_2 zs (p + n)) as [x Hx]; [lia|]. rewrite Hx.
    repeat case_decide; try lia.
    + rewrite list_lookup_insert_ne by lia. by rewrite list_lookup_insert_ne by lia.
    + assert (i = S (p + n)) as -> by lia.
      rewrite list_lookup_insert_ne by lia.
      rewrite list_lookup_insert_eq by lia.
      by replace (S (p + n) - 1) with (p + n) by lia.
    + rewrite list_lookup_insert_ne by lia. by rewrite list_lookup_insert_ne by lia.
Qed.

(** Erasing: after the shift, all but the last element are the sequence
    without its [p]-th element. *)
Lemma shl_steps_delete p xs :
  p < length xs ->
  take (length xs - 1) (shl_steps p (length xs - S p) xs) = delete p xs.
Proof.
  intros Hp. apply list_eq. intros i.
  destruct (decide (i < length xs - 1)) as [Hlt|Hge].
  - rewrite lookup_take_lt by done.
    rewrite lookup_shl_steps by lia.
    destruct (decide (i < p)).
    + rewrite list_lookup_delete_lt by done. case_decide; [lia|done].
    + rewrite list_lookup_delete_ge by lia. case_decide; [done|lia].
  - rewrite lookup_take_ge by lia. symmetry. apply lookup_ge_None.
    rewrite length_delete by (by apply lookup_lt_is_Some_2). lia.
Qed.

(** Inserting in place: after the last element has been move-constructed
    one slot further, the range shifted and the new value assigned. *)
Lemma shr_steps_insert index v x_last xs :
  index < length xs -> last xs = Some x_last ->
  <[index := v]>
    (shr_steps index (length xs - 1 - index)
       (<[length xs - 1 := moved_from x_last]> (xs ++ [x_last])))
  = take index xs ++ v :: drop index xs.
Proof.
  intros Hi Hlast. rewrite last_lookup in Hlast.
  replace (Init.Nat.pred (length xs)) with (length xs - 1) in Hlast by lia.
  set (zs1 := <[length xs - 1 := moved_from x_last]> (xs ++ [x_last])).
  assert (Hl1 : length zs1 = S (length xs)).
  { unfold zs1. rewrite length_insert, length_app. simpl. lia. }
  assert (Ht : length (take index xs) = index) by (rewrite length_take; lia).
  apply list_eq. intros i.
  destruct (decide (i = index)) as [->|Hne].
  - rewrite list_lookup_insert_eq by (rewrite length_shr_steps; lia).
    rewrite lookup_app_r by lia. by rewrite Ht, Nat.sub_diag.
  - rewrite list_lookup_insert_ne by done.
    rewrite lookup_shr_steps by lia.
    destruct (decide (i < index)) as [Hlt|Hge].
    + case_decide; [lia|]. unfold zs1.
      rewrite list_lookup_insert_ne by lia.
      rewrite lookup_app_l by lia. rewrite lookup_app_l by lia.
      by rewrite lookup_take_lt.
    + rewrite (lookup_app_r (take index xs)) by lia. rewrite Ht.
      replace (i - index) with (S (i - index - 1)) by lia. simpl.
      rewrite lookup_drop. replace (index + (i - index - 1)) with (i - 1) by lia.
      case_decide.
      * unfold zs1. rewrite list_lookup_insert_ne by lia.
        by rewrite lookup_app_l by lia.
      * unfold zs1. rewrite list_lookup_insert_ne by lia.
        destruct (decide (i = length xs)) as [->|].
        -- rewrite lookup_app_r by lia. by rewrite Nat.sub_diag.
        -- rewrite !(proj2 (lookup_ge_None _ _)); [done|lia|].
           rewrite length_app. simpl. lia.
Qed.

Lemma wp_move_assign a i j zs rest x o h t l :
  h !! a = Some (live_blk zs rest) -> zs !! i = Some x -> j < length zs ->
  wp (move_assign (Ptr (Some a) j) (Ptr (Some a) i)) (mkWorld o h t l)
     (fun _ w' => (nothrow_move_assignable = false -> throws t = false) /\
        w' = mkWorld o
               (<[a := live_blk (<[i := moved_from x]> (<[j := x]> zs)) rest]> h)
               (t + cost nothrow_move_assignable) l)
     (fun e w' => nothrow_move_assignable = false /\ throws t = true /\
        e = thrown MoveAssign /\ w' = mkWorld o h (S t) l).
Proof.
  intros Ha Hi Hj. unfold move_assign.
  destruct (lookup_lt_is_Some_2 zs j Hj) as [y Hy].
  assert (Hli : i < length zs) by (by eapply lookup_lt_Some).
  apply wp_bind. eapply wp_load; [done|by apply live_blk_lookup|].
  apply wp_bind. eapply wp_load; [done|by apply live_blk_lookup|].
  assert (Hfin : forall t', wp
    (store (Ptr (Some a) j) (Some x) ;;; store (Ptr (Some a) i) (Some (moved_from x)))
    (mkWorld o h t' l)
    (fun _ w' => w' = mkWorld o
       (<[a := live_blk (<[i := moved_from x]> (<[j := x]> zs)) rest]> h) t' l)
    (fun _ _ => False)).
  { intros t'. apply wp_bind. eapply wp_store; [done|rewrite live_blk_length; lia|].
    simpl. eapply wp_store; [apply lookup_insert_eq| |].
    - rewrite length_insert, live_blk_length. lia.
    - simpl. rewrite insert_insert_eq.
      rewrite !live_blk_insert by (rewrite ?length_insert; lia). done. }
  apply wp_bind, wp_may_throw; simpl.
  - intros ->. eapply wp_mono; [apply Hfin| |done].
    intros _ w' ->. split; [done|]. simpl. by rewrite Nat.add_0_r.
  - intros -> Ht. eapply wp_mono; [apply Hfin| |done].
    intros _ w' ->. split; [done|]. simpl. by rewrite Nat.add_1_r.
  - by intros -> Ht.
Qed.

Lemma wp_move_n n : forall a p zs rest o h t l,
  h !! a = Some (live_blk zs rest) -> S p + n <= length zs ->
  wp (move_n (Ptr (Some a) (S p)) n (Ptr (Some a) p)) (mkWorld o h t l)
     (fun _ w' => (nothrow_move_assignable = false -> no_throw t n) /\
        w' = mkWorld o (<[a := live_blk (shl_steps p n zs) rest]> h)
               (t + cost nothrow_move_assignable * n) l)
     (fun e w' => exists k, k < n /\ nothrow_move_assignable = false /\
        first_throw t k /\ e = thrown MoveAssign /\
        w' = mkWorld o (<[a := live_blk (shl_steps p k zs) rest]> h) (S (t + k)) l).
Proof.
  induction n as [|n IH]; intros a p zs rest o h t l Ha Hlen.
  - simpl. apply wp_ret. split; [intros _; apply no_throw_0|].
    by rewrite insert_id, Nat.mul_0_r, Nat.add_0_r.
  - simpl move_n.
    destruct (lookup_lt_is_Some_2 zs (S p)) as [x Hx]; [lia|].
    apply wp_bind. eapply wp_mono; [eapply wp_move_assign; [done|done|lia]| |].
    2:{ intros e w' (Hn & Ht & -> & ->). exists 0. split; [lia|].
        split; [done|]. split; [by apply first_throw_0|]. split; [done|].
        simpl. by rewrite insert_id, Nat.add_0_r. }
    intros _ w1 [Hth ->]. unfold padd; simpl. rewrite !Nat.add_1_r.
    eapply wp_mono.
    { eapply (IH a (S p)); [apply lookup_insert_eq|].
      rewrite !length_insert. lia. }
    + intros _ w2 [Hnt ->]. split.
      * intros Hn. specialize (Hth Hn). specialize (Hnt Hn). rewrite Hn in Hnt.
        simpl in Hnt. rewrite Nat.add_1_r in Hnt. by apply no_throw_S.
      * f_equal.
        -- rewrite insert_insert_eq. unfold fwd_step. by rewrite Hx.
        -- destruct nothrow_move_assignable; simpl; lia.
    + intros e w2 (k & Hk & Hn & Hft & -> & ->). exists (S k).
      split; [lia|]. split; [done|]. rewrite Hn in *. simpl in Hft.
      rewrite Nat.add_1_r in Hft.
      split; [apply first_throw_S; auto|]. split; [done|]. f_equal.
      * rewrite insert_insert_eq. simpl. unfold fwd_step. by rewrite Hx.
      * simpl. lia.
Qed.

Lemma wp_move_backward_n n : forall a p zs rest o h t l,
  h !! a = Some (live_blk zs rest) -> p + n < length zs ->
  wp (move_backward_n (Ptr (Some a) p) n (Ptr (Some a) (S p))) (mkWorld o h t l)
     (fun _ w' => (nothrow_move_assignable = false -> no_throw t n) /\
        w' = mkWorld o (<[a := live_blk (shr_steps p n zs) rest]> h)
               (t + cost nothrow_move_assignable * n) l)
     (fun e w' => exists k ws, k < n /\ nothrow_move_assignable = false /\
        first_throw t k /\ e = thrown MoveAssign /\ length ws = length zs /\
        w' = mkWorld o (<[a := live_blk ws rest]> h) (S (t + k)) l).
Proof.
  induction n as [|n IH]; intros a p zs rest o h t l Ha Hlen.
  - simpl. apply wp_ret. split; [intros _; apply no_throw_0|].
    by rewrite insert_id, Nat.mul_0_r, Nat.add_0_r.
  - simpl move_backward_n.
    destruct (lookup_lt_is_Some_2 zs (p + n)) as [x Hx]; [lia|].
    unfold padd; simpl.
    apply wp_bind. eapply wp_mono; [eapply wp_move_assign; [done|done|lia]| |].
    2:{ intros e w' (Hn & Ht & -> & ->). exists 0, zs. split; [lia|].
        split; [done|]. split; [by apply first_throw_0|]. split; [done|].
        split; [done|]. by rewrite insert_id, Nat.add_0_r. }
    intros _ w1 [Hth ->].
    eapply wp_mono.
    { eapply (IH a p); [apply lookup_insert_eq|].
      rewrite !length_insert. lia. }
    + intros _ w2 [Hnt ->]. split.
      * intros Hn. specialize (Hth Hn). specialize (Hnt Hn). rewrite Hn in Hnt.
        simpl in Hnt. rewrite Nat.add_1_r in Hnt. by apply no_throw_S.
      * f_equal.
        -- rewrite insert_insert_eq. simpl. unfold bwd_step. by rewrite Hx.
        -- destruct nothrow_move_assignable; simpl; lia.
    + intros e w2 (k & ws & Hk & Hn & Hft & -> & Hws & ->). exists (S k), ws.
      split; [lia|]. split; [done|]. rewrite Hn in *. simpl in Hft.
      rewrite Nat.add_1_r in Hft.
      split; [apply first_throw_S; auto|]. split; [done|].
      split; [by rewrite Hws, !length_insert|]. f_equal.
      * by rewrite insert_insert_eq.
      * simpl. lia.
Qed.

(** *** [std::copy_n] *)

Lemma wp_copy_assign a i a' j bs zs rest x o h t l :
  a <> a' -> h !! a = Some bs -> h !! a' = Some (live_blk zs rest) ->
  bs !! i = Some (Some x) -> j < length zs ->
  wp (copy_assign (Ptr (Some a') j) (Ptr (Some a) i)) (mkWorld o h t l)
     (fun _ w' => throws t = false /\
        w' = mkWorld o (<[a' := live_blk (<[j := x]> zs) rest]> h) (S t) l)
     (fun e w' => throws t = true /\ e = thrown CopyAssign /\ w' = mkWorld o h (S t) l).
Proof.
  intros Hne Ha Ha' Hi Hj. unfold copy_assign.
  destruct (lookup_lt_is_Some_2 zs j Hj) as [y Hy].
  apply wp_bind. eapply wp_load; [done..|].
  apply wp_bind. eapply wp_load; [done|by apply live_blk_lookup|].
  apply wp_bind, wp_may_throw; [done| |]; simpl; intros _ Ht; [|done].
  eapply wp_store; [done|rewrite live_blk_length; lia|]. simpl.
  by rewrite live_blk_insert.
Qed.

Lemma wp_copy_n n : forall ys a i a' j bs zs rest o h t l,
  a <> a' -> h !! a = Some bs -> h !! a' = Some (live_blk zs rest) ->
  length ys = n -> vals_at bs i ys -> j + n <= length zs ->
  wp (copy_n (Ptr (Some a) i) n (Ptr (Some a') j)) (mkWorld o h t l)
     (fun _ w' => no_throw t n /\
        w' = mkWorld o (<[a' := live_blk (list_inserts j ys zs) rest]> h) (t + n) l)
     (fun e w' => exists k, k < n /\ first_throw t k /\ e = thrown CopyAssign /\
        w' = mkWorld o (<[a' := live_blk (list_inserts j (take k ys) zs) rest]> h)
               (S (t + k)) l).
Proof.
  induction n as [|n IH]; intros ys a i a' j bs zs rest o h t l Hne Ha Ha' Hlen Hsrc Hj.
  - destruct ys; [|done]. simpl. apply wp_ret. split; [apply no_throw_0|].
    by rewrite insert_id, Nat.add_0_r.
  - destruct ys as [|x ys]; [done|]. simpl in Hlen. simpl copy_n.
    assert (Hx : bs !! i = Some (Some x)).
    { specialize (Hsrc 0 x). rewrite Nat.add_0_r in Hsrc. by apply Hsrc. }
    apply wp_bind. eapply wp_mono; [eapply wp_copy_assign; [done|done|done|done|lia]| |].
    2:{ intros e w' (Ht & -> & ->). exists 0. split; [lia|].
        split; [by apply first_throw_0|]. split; [done|].
        simpl. by rewrite insert_id, Nat.add_0_r. }
    intros _ w1 [Hth ->]. unfold padd; simpl. rewrite !Nat.add_1_r.
    eapply wp_mono.
    { eapply (IH ys a (S i) a' (S j)); [done| |apply lookup_insert_eq|lia| |].
      - by rewrite lookup_insert_ne.
      - intros k y Hy. replace (S i + k) with (i + S k) by lia. by apply Hsrc.
      - rewrite length_insert. lia. }
    + intros _ w2 [Hnt ->]. split; [by apply no_throw_S|]. f_equal; [|lia].
      rewrite insert_insert_eq. by rewrite list_inserts_insert_S.
    + intros e w2 (k & Hk & Hft & -> & ->). exists (S k).
      split; [lia|]. split; [by apply first_throw_S|]. split; [done|]. f_equal; [|lia].
      rewrite insert_insert_eq. simpl firstn. by rewrite list_inserts_insert_S.
Qed.

(** *** [EmplaceWithoutRelocation] *)

Lemma full_blk_push xs cap x :
  length xs < cap -> <[length xs := Some x]> (full_blk xs cap) = full_blk (xs ++ [x]) cap.
Proof.
  intros Hlt. unfold full_blk.
  rewrite insert_app_r_alt by (by rewrite length_fmap).
  rewrite length_fmap, Nat.sub_diag, length_app, fmap_app, <- app_assoc. simpl.
  replace (cap - length xs) with (S (cap - (length xs + 1))) by lia. done.
Qed.

Lemma full_blk_pop ws cap k :
  length ws = S k -> S k <= cap -> <[k := None]> (full_blk ws cap) = full_blk (take k ws) cap.
Proof.
  intros Hlen Hcap. unfold full_blk. rewrite Hlen, length_take, Hlen.
  rewrite insert_app_l by (rewrite length_fmap; lia).
  replace (k `min` S k) with k by lia.
  replace (cap - k) with (S (cap - S k)) by lia. simpl.
  rewrite <- (take_drop k ws) at 1. rewrite fmap_app.
  rewrite insert_app_r_alt by (rewrite length_fmap, length_take; lia).
  rewrite length_fmap, length_take, Hlen. replace (k - k `min` S k) with 0 by lia.
  rewrite <- app_assoc. f_equal.
  destruct (drop k ws) as [|z [|z' zs']] eqn:Hd.
  - apply (f_equal length) in Hd. rewrite length_drop in Hd. simpl in Hd. lia.
  - done.
  - apply (f_equal length) in Hd. rewrite length_drop in Hd. simpl in Hd. lia.
Qed.

Lemma no_throw_cost nothrow t :
  (nothrow = false -> throws t = false) -> no_throw t (cost nothrow).
Proof.
  intros H. destruct nothrow; simpl; [apply no_throw_0|].
  apply no_throw_S; [by apply H | apply no_throw_0].
Qed.

Lemma no_throw_cost_mul nothrow t n :
  (nothrow = false -> no_throw t n) -> no_throw t (cost nothrow * n).
Proof.
  intros H. destruct nothrow; simpl; [apply no_throw_0|].
  rewrite Nat.add_0_r. by apply H.
Qed.

Lemma vec_repr_nonempty h vec xs :
  vec_repr h vec xs -> 0 < capacity_ (data_ vec) ->
  exists a, buffer_ (data_ vec) = Some a /\
            h !! a = Some (full_blk xs (capacity_ (data_ vec))).
Proof.
  intros (Hlen & Hcap & Hblk) Hpos. destruct (buffer_ (data_ vec)) as [a|]; [eauto|].
  simpl in Hblk. apply (f_equal length) in Hblk.
  rewrite length_full_blk in Hblk by lia. simpl in Hblk. lia.
Qed.

Lemma wp_EmplaceWithoutRelocation this index via v vec xs o h t l :
  o !! this = Some vec -> vec_repr h vec xs ->
  index <= size_ vec -> size_ vec < capacity_ (data_ vec) ->
  exists a, buffer_ (data_ vec) = Some a /\
  wp (EmplaceWithoutRelocation this index via v) (mkWorld o h t l)
     (fun p w' =>
        p = Ptr (Some a) index /\
        no_throw t (inplace_cost via index (size_ vec)) /\
        w' = mkWorld (<[this := mkVec (data_ vec) (S (size_ vec))]> o)
               (<[a := full_blk (take index xs ++ v :: drop index xs)
                         (capacity_ (data_ vec))]> h)
               (t + inplace_cost via index (size_ vec))
               (l ++ inplace_log a index (size_ vec)))
     (fun e w' =>
        exists k, k < inplace_cost via index (size_ vec) /\ first_throw t k /\
        objs w' = o /\
        (((e = thrown (ctor_op via) \/ e = thrown MoveCtor) /\ heap w' = h) \/
         (e = thrown MoveAssign /\ nothrow_move_assignable = false /\
          index < size_ vec /\
          exists ws, length ws = S (size_ vec) /\
            heap w' = <[a := full_blk ws (capacity_ (data_ vec))]> h))).
Proof.
  intros Hthis Hrepr Hidx Hfree.
  destruct (vec_repr_nonempty h vec xs Hrepr) as (a & Hb & Ha); [lia|].
  destruct Hrepr as (Hlen & Hcap & _).
  set (size := size_ vec) in *. set (cap := capacity_ (data_ vec)) in *.
  exists a. split; [done|]. unfold EmplaceWithoutRelocation.
  apply wp_bind. eapply wp_get_obj; [done|]. fold size.
  unfold inplace_cost, inplace_log.
  destruct (Nat.eqb_spec index size) as [->|Hne].
  - (* at the end *)
    rewrite !decide_True by done.
    apply wp_bind, wp_bind. unfold RawMemory_plus. fold cap.
    rewrite (proj2 (Nat.leb_le _ _)) by lia. apply wp_ret. rewrite Hb.
    eapply wp_mono; [eapply wp_args_construct; [done|rewrite length_full_blk; lia]| |].
    + intros _ w' [Hct ->]. apply wp_bind, wp_put_obj, wp_ret. simpl.
      unfold begin_, GetAddress, padd. simpl. rewrite Hb.
      split; [done|]. rewrite Nat.add_0_r.
      split; [by apply no_throw_cost|]. f_equal.
      rewrite <- Hlen, full_blk_push by lia.
      by rewrite firstn_all, drop_all.
    + intros e w' (Hn & Ht & -> & ->). exists 0.
      rewrite Hn. simpl. split; [lia|]. split; [by apply first_throw_0|].
      split; [done|]. left. split; [by left|done].
  - (* before the end *)
    rewrite !decide_False by done.
    assert (Hlt : index < size) by lia.
    destruct (lookup_lt_is_Some_2 xs (size - 1)) as [x_last Hlast]; [lia|].
    set (c1 := cost (ctor_nothrow via)).
    set (c2 := cost nothrow_move_constructible).
    set (c3 := cost nothrow_move_assignable).
    set (n := size - 1 - index).
    assert (Hn1 : size - index = S n) by (unfold n; lia).
    rewrite Hn1.
    (* T copy(args...) *)
    apply wp_bind, wp_bind, wp_may_throw_cost.
    2:{ intros Hn Ht. exists 0. fold c1. unfold c1 at 1. rewrite Hn. simpl.
        split; [lia|]. split; [by apply first_throw_0|]. split; [done|].
        left. split; [by left|done]. }
    intros Hc1%no_throw_cost. fold c1 in Hc1 |- *.
    apply wp_bind, wp_modify; simpl.
    apply wp_bind, wp_on_unwind.
    apply wp_bind. unfold RawMemory_plus. fold cap size.
    rewrite (proj2 (Nat.leb_le _ _)) by lia. apply wp_ret.
    apply wp_bind. unfold RawMemory_at. fold cap size.
    rewrite (proj2 (Nat.ltb_lt _ _)) by lia. apply wp_ret. rewrite Hb.
    (* the last element moves one slot further *)
    apply wp_bind.
    eapply wp_mono;
      [eapply (wp_move_construct a (size - 1) a size _ _ _ _ (full_blk xs cap)
                 (<[size := Some x_last]> (full_blk xs cap)) (full_blk xs cap) x_last);
       [done|done|by apply full_blk_lookup_live|rewrite length_full_blk; lia
       |apply lookup_insert_eq|rewrite length_insert, length_full_blk; lia]
      | |].
    2:{ intros e w' (Hn & Ht & -> & ->). apply wp_modify. simpl.
        exists c1. fold c2. unfold c2 at 1. rewrite Hn. simpl.
        split; [lia|]. split; [by split|].
        split; [done|]. left. split; [by right|done]. }
    intros _ w' [Hc2%no_throw_cost ->]. rewrite insert_insert_eq. fold c2 in Hc2 |- *.
    assert (Hc12 : no_throw t (c1 + c2)).
    { by apply no_throw_split. }
    unfold size at 1. rewrite <- Hlen, full_blk_push by lia.
    rewrite full_blk_live, length_app. simpl length.
    rewrite live_blk_insert by (rewrite length_app; simpl; lia).
    set (rest := replicate (cap - (length xs + 1)) (@None T)).
    set (zs1 := <[size - 1 := moved_from x_last]> (xs ++ [x_last])).
    assert (Hz1 : length zs1 = S size).
    { unfold zs1. rewrite length_insert, length_app. simpl. lia. }
    assert (Hfull : forall ws, length ws = S size ->
              live_blk ws rest = full_blk ws cap).
    { intros ws Hws. unfold full_blk, live_blk, rest. rewrite Hws, Hlen.
      do 2 f_equal. lia. }
    (* the range moves backward *)
    apply wp_bind. unfold move_backward, begin_, end_, GetAddress, padd, psub.
    simpl base. simpl off. rewrite Hb. fold size.
    rewrite (proj2 (Nat.ltb_ge _ _)) by lia. fold n.
    replace (size - n) with (S index) by (unfold n; lia).
    eapply wp_mono;
      [eapply (wp_move_backward_n n a index zs1 rest);
       [apply lookup_insert_eq|unfold n; lia]| |].
    2:{ intros e w' (k & ws & Hk & Hn & Hft & -> & Hws & ->).
        apply wp_modify. simpl.
        exists (c1 + c2 + k). fold c3. unfold c3 at 1. rewrite Hn. simpl.
        split; [lia|].
        split; [apply first_throw_shift; [done|];
                by replace (t + (c1 + c2)) with (t + c1 + c2) by lia|].
        split; [done|]. right. split; [done|]. split; [done|]. split; [lia|].
        exists ws. split; [lia|].
        rewrite insert_insert_eq. by rewrite Hfull by lia. }
    intros _ w' [Hc3%no_throw_cost_mul ->]. rewrite insert_insert_eq.
    fold c3 in Hc3 |- *.
    assert (Hc123 : no_throw t (c1 + c2 + c3 * n)).
    { apply no_throw_split; [done|].
      by replace (t + (c1 + c2)) with (t + c1 + c2) by lia. }
    (* the new value is assigned *)
    apply wp_bind. unfold RawMemory_at. fold cap.
    rewrite (proj2 (Nat.ltb_lt _ _)) by lia. apply wp_ret.
    destruct (lookup_lt_is_Some_2 (shr_steps index n zs1) index) as [y Hy].
    { rewrite length_shr_steps. lia. }
    apply wp_bind. eapply wp_load; [apply lookup_insert_eq|by apply live_blk_lookup|].
    apply wp_bind, wp_may_throw_cost.
    2:{ intros Hn Ht. apply wp_modify. simpl.
        assert (Hc3v : c3 = 1) by (unfold c3; by rewrite Hn).
        exists (c1 + c2 + c3 * n). split; [rewrite Hc3v; lia|].
        split; [split; [done|]; by replace (t + (c1 + c2 + c3 * n))
                                  with (t + c1 + c2 + c3 * n) by lia|].
        split; [done|]. right. split; [done|]. split; [done|]. split; [lia|].
        exists (shr_steps index n zs1). split; [rewrite length_shr_steps; lia|].
        by rewrite Hfull by (by rewrite length_shr_steps). }
    intros Hc4%no_throw_cost. fold c3 in Hc4 |- *.
    eapply wp_store; [apply lookup_insert_eq|rewrite live_blk_length, length_shr_steps; lia|].
    simpl. apply wp_modify. simpl.
    apply wp_bind, wp_put_obj, wp_ret. simpl.
    split; [done|].
    replace (c1 + (c2 + c3 * S n)) with (c1 + c2 + c3 * n + c3) by lia.
    split.
    { apply no_throw_split; [done|].
      by replace (t + (c1 + c2 + c3 * n)) with (t + c1 + c2 + c3 * n) by lia. }
    rewrite !insert_insert_eq.
    rewrite live_blk_insert by (rewrite length_shr_steps; lia).
    rewrite Hfull by (rewrite length_insert, length_shr_steps; lia).
    assert (Hfin : <[index := v]> (shr_steps index n zs1)
                   = take index xs ++ v :: drop index xs).
    { unfold zs1, n. rewrite <- Hlen. apply shr_steps_insert; [lia|].
      rewrite last_lookup.
      replace (Init.Nat.pred (length xs)) with (size - 1) by lia. done. }
    rewrite Hfin. f_equal; [lia|]. by rewrite <- !app_assoc.
Qed.

(** *** [Erase] *)

Lemma wp_Erase this position vec xs o h t l :
  o !! this = Some vec -> vec_repr h vec xs -> position < size_ vec ->
  exists a, buffer_ (data_ vec) = Some a /\
  wp (Erase this position) (mkWorld o h t l)
     (fun p w' =>
        p = Ptr (Some a) position /\
        (nothrow_move_assignable = false -> no_throw t (size_ vec - S position)) /\
        w' = mkWorld (<[this := mkVec (data_ vec) (size_ vec - 1)]> o)
               (<[a := full_blk (delete position xs) (capacity_ (data_ vec))]> h)
               (t + cost nothrow_move_assignable * (size_ vec - S position))
               (l ++ [EvDestroy a (size_ vec - 1)]))
     (fun e w' =>
        exists k ws, k < size_ vec - S position /\ nothrow_move_assignable = false /\
          first_throw t k /\ e = thrown MoveAssign /\ length ws = size_ vec /\
          w' = mkWorld o (<[a := full_blk ws (capacity_ (data_ vec))]> h) (S (t + k)) l).
Proof.
  intros Hthis Hrepr Hpos.
  destruct (vec_repr_nonempty h vec xs Hrepr) as (a & Hb & Ha).
  { destruct Hrepr as (_ & ? & _). lia. }
  destruct Hrepr as (Hlen & Hcap & _).
  set (size := size_ vec) in *. set (cap := capacity_ (data_ vec)) in *.
  exists a. split; [done|]. unfold Erase.
  apply wp_bind. eapply wp_get_obj; [done|]. fold size.
  rewrite (proj2 (Nat.leb_gt _ _)) by lia.
  assert (Hfull : forall ws, length ws = size ->
            live_blk ws (replicate (cap - length xs) None) = full_blk ws cap).
  { intros ws Hws. unfold full_blk, live_blk. by rewrite Hws, Hlen. }
  apply wp_bind. unfold std_move, begin_, end_, GetAddress, padd.
  simpl base. simpl off. rewrite Hb. fold size.
  rewrite (proj2 (Nat.ltb_ge _ _)) by lia.
  replace (position + 1) with (S position) by lia.
  eapply wp_mono;
    [eapply (wp_move_n (size - S position) a position xs
               (replicate (cap - length xs) None));
     [by rewrite <- full_blk_live|lia]| |].
  2:{ intros e w' (k & Hk & Hn & Hft & -> & ->).
      exists k, (shl_steps position k xs). repeat (split; [done|]).
      split; [by rewrite length_shl_steps|].
      by rewrite Hfull by (by rewrite length_shl_steps). }
  intros _ w' [Hnt ->].
  set (ws := shl_steps position (size - S position) xs).
  assert (Hws : length ws = size) by (unfold ws; by rewrite length_shl_steps).
  rewrite Hfull by done.
  apply wp_bind. unfold RawMemory_at. fold cap size.
  rewrite (proj2 (Nat.ltb_lt _ _)) by lia. apply wp_ret. rewrite Hb.
  destruct (lookup_lt_is_Some_2 ws (size - 1)) as [z Hz]; [lia|].
  apply wp_bind. eapply wp_destroy_at;
    [apply lookup_insert_eq|by apply full_blk_lookup_live|].
  simpl. apply wp_bind, wp_put_obj, wp_ret. simpl.
  split; [done|]. split; [done|]. f_equal.
  rewrite insert_insert_eq. f_equal.
  rewrite (full_blk_pop ws cap (size - 1)) by lia. f_equal.
  unfold ws. rewrite <- Hlen. apply shl_steps_delete. lia.
Qed.

(** *** The algorithms on pointers that may be null *)

Lemma spec_uninitialized_copy_n n xs b i b' j o h t l bs bd :
  distinct b b' -> blk_at h b bs -> blk_at h b' bd -> length xs = n ->
  vals_at bs i xs -> (b' = None -> n = 0) ->
  (forall k, k < n -> j + k < length bd -> bd !! (j + k) = Some None) ->
  spec (uninitialized_copy_n (Ptr b i) n (Ptr b' j)) (mkWorld o h t l)
     (fun _ w' => (n = 0 \/ j + n <= length bd) /\ no_throw t n /\
        w' = mkWorld o (upd_blk b' (list_inserts j (Some <$> xs) bd) h) (t + n)
               (l ++ (EvConstruct (addr_of b') <$> seq j n)))
     (fun e' w' => exists k, k < n /\ (k = 0 \/ j + k <= length bd) /\
        first_throw t k /\ e' = thrown CopyCtor /\
        w' = mkWorld o h (S (t + k))
               (l ++ (EvConstruct (addr_of b') <$> seq j k) ++
                  (EvDestroy (addr_of b') <$> seq j k)))
     (0 < n /\ length bd < j + n /\ no_throw t (S (length bd - j))).
Proof.
  intros Hd Hb Hb' Hlen Hsrc Hnull Hraw. unfold uninitialized_copy_n.
  assert (Hsame : forall m, list_inserts i (Some <$> take m xs) bs = bs).
  { intros m. apply list_inserts_vals_same. intros k x Hk.
    apply lookup_take_Some in Hk as [Hk _]. by apply Hsrc. }
  eapply spec_mono.
  - eapply (spec_uninitialized_n_opt copy_construct Some false (thrown CopyCtor));
      try done.
    intros a0 i0 a0' j0 o0 h0 t0 l0 bs0 bd0 x Hne Ha Ha' Hx.
    eapply spec_mono; [by eapply spec_copy_construct| | |by intros [? ?]].
    + intros _ w' (Hj & H1 & ->). split; [done|]. split; [done|]. simpl.
      f_equal; [|lia].
      rewrite (list_insert_id bs0 i0 (Some x) Hx). symmetry. apply insert_id.
      by rewrite lookup_insert_ne.
    + intros e' w' (H1 & -> & ->). done.
  - intros _ w' (Hroom & H1 & ->). split; [done|]. split; [by apply H1|]. f_equal.
    + rewrite <- (take_ge xs n) at 2 by lia. rewrite Hsame.
      by rewrite (upd_blk_id h b bs).
    + simpl. lia.
  - intros e' w' (k & Hk & Hroom & _ & H1 & -> & ->). exists k.
    repeat (split; [done|]). f_equal. rewrite Hsame. by apply upd_blk_id.
  - intros (? & ? & H1). split; [done|]. split; [done|]. by apply H1.
Qed.

Lemma wp_uninitialized_copy_n n xs b i b' j o h t l bs bd :
  distinct b b' -> blk_at h b bs -> blk_at h b' bd -> length xs = n ->
  vals_at bs i xs -> raw_range bd j n ->
  wp (uninitialized_copy_n (Ptr b i) n (Ptr b' j)) (mkWorld o h t l)
     (fun _ w' => no_throw t n /\
        w' = mkWorld o (upd_blk b' (list_inserts j (Some <$> xs) bd) h) (t + n)
               (l ++ (EvConstruct (addr_of b') <$> seq j n)))
     (fun e' w' => exists k, k < n /\ first_throw t k /\ e' = thrown CopyCtor /\
        w' = mkWorld o h (S (t + k))
               (l ++ (EvConstruct (addr_of b') <$> seq j k) ++
                  (EvDestroy (addr_of b') <$> seq j k))).
Proof.
  intros Hd Hb Hb' Hlen Hsrc Hdst. eapply wp_mono.
  - eapply spec_wp; [|by eapply raw_range_room].
    eapply (spec_uninitialized_copy_n n xs b i b' j); try done.
    + by eapply raw_range_null.
    + by apply raw_range_where.
  - intros _ w' (_ & H1 & ->). done.
  - intros e' w' (k & Hk & _ & Hft & -> & ->). exists k. done.
Qed.

Lemma wp_copy_n_opt n ys b i b' j bs zs rest o h t l :
  distinct b b' -> blk_at h b bs -> blk_at h b' (live_blk zs rest) ->
  length ys = n -> vals_at bs i ys -> j + n <= length zs ->
  wp (copy_n (Ptr b i) n (Ptr b' j)) (mkWorld o h t l)
     (fun _ w' => no_throw t n /\
        w' = mkWorld o (upd_blk b' (live_blk (list_inserts j ys zs) rest) h) (t + n) l)
     (fun e w' => exists k, k < n /\ first_throw t k /\ e = thrown CopyAssign /\
        w' = mkWorld o (upd_blk b' (live_blk (list_inserts j (take k ys) zs) rest) h)
               (S (t + k)) l).
Proof.
  intros Hd Hb Hb' Hlen Hsrc Hj.
  assert (Hnil : n = 0 -> wp (copy_n (Ptr b i) n (Ptr b' j)) (mkWorld o h t l)
     (fun _ w' => no_throw t n /\
        w' = mkWorld o (upd_blk b' (live_blk (list_inserts j ys zs) rest) h) (t + n) l)
     (fun e w' => exists k, k < n /\ first_throw t k /\ e = thrown CopyAssign /\
        w' = mkWorld o (upd_blk b' (live_blk (list_inserts j (take k ys) zs) rest) h)
               (S (t + k)) l)).
  { intros ->. destruct ys; [|done]. simpl. apply wp_ret.
    split; [apply no_throw_0|]. by rewrite upd_blk_id, Nat.add_0_r. }
  destruct b as [a|], b' as [a'|]; simpl in *.
  - eapply (wp_copy_n n ys a i a' j bs); try done. intros ->. by eapply Hd.
  - apply Hnil. apply (f_equal length) in Hb'. rewrite live_blk_length in Hb'.
    simpl in Hb'. lia.
  - apply Hnil. subst bs. apply vals_at_nil_inv in Hsrc. by subst ys.
  - apply Hnil. subst bs. apply vals_at_nil_inv in Hsrc. by subst ys.
Qed.

(** ** The invariant of the object store *)

Lemma vec_repr_live_prefix h v xs : vec_repr h v xs -> live_prefix h v.
Proof.
  intros (Hlen & Hcap & Hblk). split; [done|].
  exists (full_blk xs (capacity_ (data_ v))). split; [done|].
  split; [apply length_full_blk; lia|]. split.
  - intros i Hi. destruct (lookup_lt_is_Some_2 xs i) as [x Hx]; [lia|].
    exists x. by apply full_blk_lookup_live.
  - intros i Hi. apply full_blk_lookup_raw. lia.
Qed.

Lemma vec_repr_heap h h' v xs :
  vec_repr h v xs ->
  (forall c, buffer_ (data_ v) = Some c -> h' !! c = h !! c) ->
  vec_repr h' v xs.
Proof.
  intros (Hlen & Hcap & Hblk) Hsame. repeat (split; [done|]).
  destruct (buffer_ (data_ v)) as [c|]; simpl in *; [|done].
  by rewrite Hsame.
Qed.

Lemma vec_repr_block h v xs a :
  vec_repr h v xs -> buffer_ (data_ v) = Some a -> is_Some (h !! a).
Proof. intros (_ & _ & Hblk) Hb. rewrite Hb in Hblk. simpl in Hblk. eauto. Qed.

Lemma Inv_updated this v o h t l w' :
  Inv (mkWorld o h t l) -> o !! this = Some v -> updated this v o h w' -> Inv w'.
Proof.
  intros [Hvec Huniq] Hthis (v' & xs' & Hobjs & Hrepr & _ & Hother & Hnew).
  simpl in Hvec, Huniq.
  assert (Hfar : forall id u c, id <> this -> o !! id = Some u ->
            buffer_ (data_ u) = Some c ->
            buffer_ (data_ v) <> Some c /\ buffer_ (data_ v') <> Some c).
  { intros id u c Hid Hu Hc.
    assert (Hv : buffer_ (data_ v) <> Some c).
    { intros Hv. apply Hid. by eapply (Huniq id this u v c). }
    split; [done|]. destruct Hnew as [->|[->|(a' & -> & Ha')]]; [done|done|].
    intros [= ->]. destruct (Hvec id u Hu) as [xs Hxs].
    destruct (vec_repr_block h u xs c Hxs Hc) as [blk Hblk]. congruence. }
  split.
  - intros id u. rewrite Hobjs. intros Hu.
    destruct (decide (id = this)) as [->|Hid].
    + rewrite lookup_insert_eq in Hu. injection Hu as <-. by exists xs'.
    + rewrite lookup_insert_ne in Hu by done.
      destruct (Hvec id u Hu) as [xs Hxs]. exists xs.
      eapply vec_repr_heap; [done|]. intros c Hc.
      destruct (Hfar id u c Hid Hu Hc). by apply Hother.
  - intros id1 id2 v1 v2 a. rewrite Hobjs. intros H1 H2 Hb1 Hb2.
    destruct (decide (id1 = this)) as [->|Hid1], (decide (id2 = this)) as [->|Hid2];
      [done| | |].
    + rewrite lookup_insert_eq in H1. injection H1 as <-.
      rewrite lookup_insert_ne in H2 by done.
      by destruct (Hfar id2 v2 a Hid2 H2 Hb2).
    + rewrite lookup_insert_eq in H2. injection H2 as <-.
      rewrite lookup_insert_ne in H1 by done.
      by destruct (Hfar id1 v1 a Hid1 H1 Hb1).
    + rewrite lookup_insert_ne in H1, H2 by done. by eapply Huniq.
Qed.

Lemma frame_refl h b : frame h h b b.
Proof. split; [done|by left]. Qed.

Lemma frame_upd h b blk : frame h (upd_blk b blk h) b b.
Proof.
  split; [|by left]. intros c Hc _. destruct b as [a|]; simpl; [|done].
  apply lookup_insert_ne. congruence.
Qed.

Lemma frame_realloc h b a' blk :
  h !! a' = None -> frame h (free_blk b (<[a' := blk]> h)) b (Some a').
Proof.
  intros Ha'. split; [|right; right; eauto]. intros c Hc Hc'.
  destruct b as [a|]; simpl.
  - rewrite lookup_delete_ne by congruence. apply lookup_insert_ne. congruence.
  - apply lookup_insert_ne. congruence.
Qed.

Lemma updated_same this v xs o h t l :
  o !! this = Some v -> vec_repr h v xs -> updated this v o h (mkWorld o h t l).
Proof.
  intros Hthis Hrepr. exists v, xs. simpl.
  split; [by rewrite insert_id|]. split; [done|]. split; [done|apply frame_refl].
Qed.

Lemma updated_upd this v v' xs' blk o h t l :
  buffer_ (data_ v') = buffer_ (data_ v) ->
  capacity_ (data_ v') = capacity_ (data_ v) ->
  vec_repr (upd_blk (buffer_ (data_ v)) blk h) v' xs' ->
  updated this v o h
    (mkWorld (<[this := v']> o) (upd_blk (buffer_ (data_ v)) blk h) t l).
Proof.
  intros Hb Hc Hrepr. exists v', xs'. simpl. split; [done|]. split; [done|].
  split; [lia|]. rewrite Hb. apply frame_upd.
Qed.

Lemma updated_realloc this v xs xs' n size a' o h t l :
  vec_repr h v xs ->
  h !! a' = None -> capacity_ (data_ v) <= n -> length xs' = size -> size <= n ->
  updated this v o h
    (mkWorld (<[this := mkVec (mkRaw (Some a') n) size]> o)
       (free_blk (buffer_ (data_ v)) (<[a' := full_blk xs' n]> h)) t l).
Proof.
  intros Hrepr Ha' Hcap Hlen Hsz. exists (mkVec (mkRaw (Some a') n) size), xs'. simpl.
  split; [done|]. split; [|split; [done|by apply frame_realloc]].
  repeat (split; [done|]). simpl.
  destruct (buffer_ (data_ v)) as [a|] eqn:Hb; simpl.
  - destruct (vec_repr_block h v xs a Hrepr Hb) as [blk Hblk].
    rewrite lookup_delete_ne by congruence. apply lookup_insert_eq.
  - apply lookup_insert_eq.
Qed.

Lemma xfer_after_val x : xfer_after x = Some (xfer_val x).
Proof. unfold xfer_after, xfer_val. by destruct moves_elements. Qed.

Lemma src_after_full m xs cap :
  src_after m xs cap = full_blk ((xfer_val <$> take m xs) ++ drop m xs) cap.
Proof.
  unfold src_after.
  assert (Hl : length ((xfer_val <$> take m xs) ++ drop m xs) = length xs).
  { rewrite length_app, length_fmap, length_take, length_drop. lia. }
  apply list_eq. intros i.
  destruct (decide (i < length (take m xs))) as [Hlt|Hge].
  - rewrite list_lookup_inserts.
    2:{ rewrite length_fmap. lia. }
    2:{ unfold full_blk. rewrite length_app, length_fmap. rewrite length_take in Hlt. lia. }
    rewrite Nat.sub_0_r, list_lookup_fmap.
    destruct (lookup_lt_is_Some_2 _ _ Hlt) as [x Hx]. rewrite Hx. simpl.
    rewrite xfer_after_val. symmetry. apply full_blk_lookup_live.
    rewrite lookup_app_l by (by rewrite length_fmap).
    by rewrite list_lookup_fmap, Hx.
  - rewrite list_lookup_inserts_ge by (rewrite length_fmap; lia).
    unfold full_blk. rewrite Hl.
    destruct (decide (i < length xs)) as [Hlt|Hge'].
    + rewrite !lookup_app_l by (rewrite length_fmap; lia).
      rewrite !list_lookup_fmap. f_equal.
      rewrite lookup_app_r by (rewrite length_fmap; lia).
      rewrite length_fmap, lookup_drop. f_equal. rewrite length_take in *. lia.
    + rewrite !lookup_app_r by (rewrite length_fmap; lia).
      by rewrite !length_fmap, Hl.
Qed.

Lemma inserts_append (zs ys : list T) cap :
  length zs + length ys <= cap ->
  list_inserts (length zs) (Some <$> ys) (full_blk zs cap) = full_blk (zs ++ ys) cap.
Proof.
  intros Hle. apply list_eq. intros i.
  destruct (decide (i < length zs)) as [H1|H1].
  - rewrite list_lookup_inserts_lt by done.
    destruct (lookup_lt_is_Some_2 zs i H1) as [z Hz].
    rewrite (full_blk_lookup_live zs cap i z Hz). symmetry.
    apply full_blk_lookup_live. by rewrite lookup_app_l.
  - destruct (decide (i < length zs + length ys)) as [H2|H2].
    + rewrite list_lookup_inserts
        by (rewrite ?length_fmap, ?length_full_blk; lia).
      destruct (lookup_lt_is_Some_2 ys (i - length zs)) as [y Hy]; [lia|].
      rewrite list_lookup_fmap, Hy. symmetry. apply full_blk_lookup_live.
      by rewrite lookup_app_r by lia.
    + rewrite list_lookup_inserts_ge by (rewrite length_fmap; lia).
      destruct (decide (i < cap)).
      * rewrite !full_blk_lookup_raw; [done| |lia]. rewrite length_app. lia.
      * rewrite !full_blk_lookup_ge; [done| |lia|lia|lia]. rewrite length_app. lia.
Qed.

Lemma inserts_truncate (xs : list T) m cap :
  m <= length xs -> length xs <= cap ->
  list_inserts m (replicate (length xs - m) None) (full_blk xs cap)
  = full_blk (take m xs) cap.
Proof.
  intros Hm Hle. apply list_eq. intros i.
  assert (Ht : length (take m xs) = m) by (rewrite length_take; lia).
  destruct (decide (i < m)) as [H1|H1].
  - rewrite list_lookup_inserts_lt by done.
    destruct (lookup_lt_is_Some_2 xs i) as [x Hx]; [lia|].
    rewrite (full_blk_lookup_live xs cap i x Hx). symmetry.
    apply full_blk_lookup_live. by rewrite lookup_take_lt.
  - destruct (decide (i < length xs)) as [H2|H2].
    + rewrite list_lookup_inserts
        by (rewrite ?length_replicate, ?length_full_blk; lia).
      rewrite lookup_replicate_2 by lia. symmetry.
      apply full_blk_lookup_raw. lia.
    + rewrite list_lookup_inserts_ge by (rewrite length_replicate; lia).
      destruct (decide (i < cap)).
      * rewrite !full_blk_lookup_raw; [done|lia|lia].
      * rewrite !full_blk_lookup_ge; [done|lia|lia|lia|lia].
Qed.

Lemma live_range_full_blk xs cap i n :
  i + n <= length xs -> live_range (full_blk xs cap) i n.
Proof.
  intros Hle k Hk. destruct (lookup_lt_is_Some_2 xs (i + k)) as [x Hx]; [lia|].
  exists x. by apply full_blk_lookup_live.
Qed.

Lemma raw_range_full_blk xs cap j n :
  length xs <= j -> j + n <= cap -> raw_range (full_blk xs cap) j n.
Proof. intros H1 H2 k Hk. apply full_blk_lookup_raw. lia. Qed.

Lemma Inv_insert this v' xs' o h h' t l t' l' :
  Inv (mkWorld o h t l) -> vec_repr h' v' xs' ->
  frame h h' (buf_of o this) (buffer_ (data_ v')) ->
  Inv (mkWorld (<[this := v']> o) h' t' l').
Proof.
  intros [Hvec Huniq] Hrepr (Hother & Hnew). simpl in Hvec, Huniq.
  assert (Hfar : forall id u c, id <> this -> o !! id = Some u ->
            buffer_ (data_ u) = Some c ->
            buf_of o this <> Some c /\ buffer_ (data_ v') <> Some c).
  { intros id u c Hid Hu Hc.
    assert (Hv : buf_of o this <> Some c).
    { unfold buf_of. destruct (o !! this) as [v|] eqn:Hthis; [|done].
      intros Hv. apply Hid. by eapply (Huniq id this u v c). }
    split; [done|]. destruct Hnew as [->|[->|(a' & -> & Ha')]]; [done|done|].
    intros [= ->]. destruct (Hvec id u Hu) as [xs Hxs].
    destruct (vec_repr_block h u xs c Hxs Hc) as [blk Hblk]. congruence. }
  split; simpl.
  - intros id u Hu.
    destruct (decide (id = this)) as [->|Hid].
    + rewrite lookup_insert_eq in Hu. injection Hu as <-. by exists xs'.
    + rewrite lookup_insert_ne in Hu by done.
      destruct (Hvec id u Hu) as [xs Hxs]. exists xs.
      eapply vec_repr_heap; [done|]. intros c Hc.
      destruct (Hfar id u c Hid Hu Hc). by apply Hother.
  - intros id1 id2 v1 v2 a H1 H2 Hb1 Hb2.
    destruct (decide (id1 = this)) as [->|Hid1], (decide (id2 = this)) as [->|Hid2];
      [done| | |].
    + rewrite lookup_insert_eq in H1. injection H1 as <-.
      rewrite lookup_insert_ne in H2 by done.
      by destruct (Hfar id2 v2 a Hid2 H2 Hb2).
    + rewrite lookup_insert_eq in H2. injection H2 as <-.
      rewrite lookup_insert_ne in H1 by done.
      by destruct (Hfar id1 v1 a Hid1 H1 Hb1).
    + rewrite lookup_insert_ne in H1, H2 by done. by eapply Huniq.
Qed.

Lemma Inv_delete this v o h h' t l t' l' :
  Inv (mkWorld o h t l) -> o !! this = Some v ->
  (forall c, buffer_ (data_ v) <> Some c -> h' !! c = h !! c) ->
  Inv (mkWorld (delete this o) h' t' l').
Proof.
  intros [Hvec Huniq] Hthis Hother. simpl in Hvec, Huniq. split; simpl.
  - intros id u Hu. apply lookup_delete_Some in Hu as [Hid Hu].
    destruct (Hvec id u Hu) as [xs Hxs]. exists xs.
    eapply vec_repr_heap; [done|]. intros c Hc. apply Hother.
    intros Hv. apply Hid. symmetry. by eapply (Huniq id this u v c).
  - intros id1 id2 v1 v2 a H1 H2.
    apply lookup_delete_Some in H1 as [_ H1]. apply lookup_delete_Some in H2 as [_ H2].
    by eapply Huniq.
Qed.

Lemma Inv_swap this other tv ov o h t l t' l' :
  Inv (mkWorld o h t l) -> o !! this = Some tv -> o !! other = Some ov ->
  Inv (mkWorld (<[other := tv]> (<[this := ov]> o)) h t' l').
Proof.
  intros [Hvec Huniq] Hthis Hother. simpl in Hvec, Huniq.
  assert (Hlk : forall id u, (<[other := tv]> (<[this := ov]> o)) !! id = Some u ->
            exists id', o !! id' = Some u /\
              (id = other /\ id' = this \/ id = this /\ id' = other \/
               id <> this /\ id <> other /\ id' = id)).
  { intros id u Hu. destruct (decide (id = other)) as [->|Ho].
    - rewrite lookup_insert_eq in Hu. injection Hu as <-. exists this. eauto.
    - rewrite lookup_insert_ne in Hu by done.
      destruct (decide (id = this)) as [->|Ht].
      + rewrite lookup_insert_eq in Hu. injection Hu as <-. exists other. eauto.
      + rewrite lookup_insert_ne in Hu by done. exists id. eauto 10. }
  split; simpl.
  - intros id u Hu. destruct (Hlk id u Hu) as (id' & Hu' & _). by eapply Hvec.
  - intros id1 id2 v1 v2 a H1 H2 Hb1 Hb2.
    destruct (Hlk id1 v1 H1) as (id1' & H1' & Hc1).
    destruct (Hlk id2 v2 H2) as (id2' & H2' & Hc2).
    pose proof (Huniq id1' id2' v1 v2 a H1' H2' Hb1 Hb2) as Heq.
    destruct Hc1 as [[-> ->]|[[-> ->]|(? & ? & ->)]],
             Hc2 as [[-> ->]|[[-> ->]|(? & ? & ->)]]; congruence.
Qed.

(** *** [Reserve], [Resize], [PopBack] on a well-formed vector *)

Lemma frame_then_upd h h1 b b1 blk :
  frame h h1 b b1 -> frame h (upd_blk b1 blk h1) b b1.
Proof.
  intros [Hother Hnew]. split; [|done]. intros c Hc Hc1.
  destruct b1 as [a1|]; simpl; [|by apply Hother].
  rewrite lookup_insert_ne by congruence. by apply Hother.
Qed.

Lemma vec_repr_upd h v v' xs' :
  buffer_ (data_ v') = buffer_ (data_ v) ->
  length xs' = size_ v' -> size_ v' <= capacity_ (data_ v') ->
  (buffer_ (data_ v) = None -> capacity_ (data_ v') = 0) ->
  vec_repr (upd_blk (buffer_ (data_ v)) (full_blk xs' (capacity_ (data_ v'))) h) v' xs'.
Proof.
  intros Hb Hlen Hcap Hnull. repeat (split; [done|]). rewrite Hb.
  destruct (buffer_ (data_ v)) as [a|]; simpl; [apply lookup_insert_eq|].
  unfold full_blk. specialize (Hnull eq_refl). rewrite Hnull in *.
  destruct xs'; [done|]. simpl in *. lia.
Qed.

Lemma vec_repr_null h v xs : vec_repr h v xs -> buffer_ (data_ v) = None ->
  capacity_ (data_ v) = 0.
Proof.
  intros (Hlen & Hcap & Hblk) Hb. rewrite Hb in Hblk. simpl in Hblk.
  apply (f_equal length) in Hblk. rewrite length_full_blk in Hblk by lia. done.
Qed.

Lemma wp_Reserve_abs this n v xs o h t l :
  o !! this = Some v -> vec_repr h v xs -> (capacity_ (data_ v) < n -> fits n) ->
  wp (Reserve this n) (mkWorld o h t l)
     (fun _ w' => exists v1,
        objs w' = <[this := v1]> o /\ size_ v1 = size_ v /\
        vec_repr (heap w') v1 xs /\
        capacity_ (data_ v1) = n `max` capacity_ (data_ v) /\
        frame h (heap w') (buffer_ (data_ v)) (buffer_ (data_ v1)))
     (fun e w' =>
        objs w' = o /\ frame h (heap w') (buffer_ (data_ v)) (buffer_ (data_ v)) /\
        exists xs', vec_repr (heap w') v xs').
Proof.
  intros Hthis Hrepr Hfits. eapply wp_mono; [by eapply wp_Reserve| |].
  - intros _ w' [[Hle ->]|(Hlt & _ & _ & ->)].
    + exists v. simpl. split; [by rewrite insert_id|]. split; [done|].
      split; [done|]. split; [lia|apply frame_refl].
    + destruct Hrepr as (Hlen & Hcap & Hblk).
      eexists. simpl. split; [done|]. simpl. split; [done|].
      split; [|split; [lia|apply frame_realloc, fresh_heap_None]].
      repeat (split; [simpl; lia|]). simpl.
      destruct (buffer_ (data_ v)) as [a|] eqn:Hb; simpl.
      * simpl in Hblk. rewrite lookup_delete_ne; [apply lookup_insert_eq|].
        intros ->. by rewrite fresh_heap_None in Hblk.
      * apply lookup_insert_eq.
  - intros e w' [Hlt [(_ & _ & ->)|(_ & k & Hk & _ & _ & _ & ->)]]; simpl.
    + split; [done|]. split; [apply frame_refl|]. by exists xs.
    + split; [done|]. split; [apply frame_upd|].
      fold (src_after k xs (capacity_ (data_ v))). rewrite src_after_full.
      destruct Hrepr as (Hlen & Hcap & Hblk).
      eexists. apply vec_repr_upd; try done.
      * rewrite length_app, length_fmap, length_take, length_drop. lia.
      * intros Hb. by eapply (vec_repr_null h v xs).
Qed.

Lemma wp_Resize this new_size v xs o h t l :
  o !! this = Some v -> vec_repr h v xs ->
  (capacity_ (data_ v) < new_size -> fits new_size) ->
  wp (Resize this new_size) (mkWorld o h t l)
     (fun _ w' => exists v',
        objs w' = <[this := v']> o /\ size_ v' = new_size /\
        vec_repr (heap w') v'
          (take new_size xs ++ replicate (new_size - size_ v) T_default) /\
        capacity_ (data_ v') = new_size `max` capacity_ (data_ v) /\
        frame h (heap w') (buffer_ (data_ v)) (buffer_ (data_ v')))
     (fun e w' => updated this v o h w').
Proof.
  intros Hthis Hrepr Hfits. pose proof Hrepr as (Hlen & Hcap & Hblk).
  unfold Resize. apply wp_bind. eapply wp_get_obj; [done|].
  destruct (Nat.ltb_spec new_size (size_ v)) as [Hlt|Hge].
  - (* shrinking *)
    apply wp_bind. unfold GetAddress, padd. simpl base. simpl off.
    eapply wp_mono;
      [eapply (wp_destroy_n_opt (size_ v - new_size) (buffer_ (data_ v)) new_size);
       [done|apply live_range_full_blk; lia]| |done].
    intros _ w1 ->. apply wp_bind. eapply wp_get_obj; [done|].
    apply wp_put_obj. simpl. rewrite <- Hlen, inserts_truncate by lia.
    eexists. split; [done|]. simpl. split; [done|].
    replace (new_size - length xs) with 0 by lia. simpl. rewrite app_nil_r.
    split; [|split; [lia|apply frame_upd]].
    apply (vec_repr_upd h v (mkVec (data_ v) new_size)); simpl; try done.
    + rewrite length_take. lia.
    + lia.
    + intros Hb. by eapply vec_repr_null.
  - (* growing *)
    apply wp_bind, wp_bind. eapply wp_mono; [by eapply wp_Reserve_abs| |].
    2:{ intros e w1 (Hobjs & Hfr & xs' & Hxs'). exists v, xs'.
        split; [by rewrite Hobjs, insert_id|]. done. }
    intros _ [o1 h1 t1 l1] (v1 & Ho1 & Hsz1 & Hr1 & Hc1 & Hfr1). simpl in *. subst o1.
    apply wp_bind. eapply wp_get_obj; [apply lookup_insert_eq|].
    pose proof Hr1 as (Hlen1 & Hcap1 & Hblk1).
    unfold GetAddress, padd. simpl base. simpl off. rewrite Hsz1.
    eapply wp_mono;
      [eapply (wp_uninitialized_value_construct_n_opt (new_size - size_ v)
                 (buffer_ (data_ v1)) (size_ v));
       [done|apply raw_range_full_blk; lia]| |].
    2:{ intros e w2 (k & _ & _ & _ & ->). exists v1, xs. simpl.
        split; [done|]. split; [done|]. split; [lia|done]. }
    intros _ w2 [_ ->]. apply wp_bind. eapply wp_get_obj; [apply lookup_insert_eq|].
    apply wp_put_obj. simpl. rewrite insert_insert_eq.
    rewrite <- fmap_replicate. rewrite <- Hlen.
    rewrite inserts_append by (rewrite length_replicate; lia).
    rewrite take_ge by lia.
    eexists. split; [done|]. simpl. split; [done|].
    split; [|split; [done|by apply frame_then_upd]].
    apply (vec_repr_upd h1 v1 (mkVec (data_ v1) new_size)); simpl; try done.
    + rewrite length_app, length_replicate. lia.
    + lia.
    + intros Hb. by eapply vec_repr_null.
Qed.

Lemma wp_PopBack this v xs o h t l :
  o !! this = Some v -> vec_repr h v xs -> 0 < size_ v ->
  exists a, buffer_ (data_ v) = Some a /\
  wp (PopBack this) (mkWorld o h t l)
     (fun _ w' =>
        w' = mkWorld (<[this := mkVec (data_ v) (size_ v - 1)]> o)
               (<[a := full_blk (take (size_ v - 1) xs) (capacity_ (data_ v))]> h)
               t (l ++ [EvDestroy a (size_ v - 1)]))
     (fun _ _ => False).
Proof.
  intros Hthis Hrepr Hpos.
  destruct (vec_repr_nonempty h v xs Hrepr) as (a & Hb & Ha).
  { destruct Hrepr as (_ & ? & _). lia. }
  destruct Hrepr as (Hlen & Hcap & _).
  exists a. split; [done|]. unfold PopBack.
  apply wp_bind. eapply wp_get_obj; [done|].
  rewrite (proj2 (Nat.eqb_neq _ _)) by lia.
  apply wp_bind, wp_put_obj. simpl.
  apply wp_bind. unfold RawMemory_plus.
  rewrite (proj2 (Nat.leb_le _ _)) by lia. apply wp_ret. rewrite Hb.
  destruct (lookup_lt_is_Some_2 xs (size_ v - 1)) as [x Hx]; [lia|].
  eapply wp_destroy_at; [done|by apply full_blk_lookup_live|]. simpl.
  f_equal. f_equal. apply full_blk_pop; lia.
Qed.

(** *** Copy assignment *)

Lemma upd_blk_twice b blk blk' h : upd_blk b blk (upd_blk b blk' h) = upd_blk b blk h.
Proof. destruct b; simpl; [apply insert_insert_eq|done]. Qed.

Lemma free_upd_blk b blk h : free_blk b (upd_blk b blk h) = free_blk b h.
Proof. destruct b; simpl; [apply delete_insert_eq|done]. Qed.

Lemma blk_at_upd_ne h b blk b' blk' :
  blk_at h b blk -> distinct b b' -> blk_at (upd_blk b' blk' h) b blk.
Proof.
  destruct b' as [a'|]; simpl; [|done]. apply blk_at_insert_ne.
Qed.

Lemma blk_at_upd h b blk : (b = None -> blk = []) -> blk_at (upd_blk b blk h) b blk.
Proof. destruct b; simpl; [intros _; apply lookup_insert_eq|auto]. Qed.

Lemma distinct_sym b b' : distinct b b' -> distinct b' b.
Proof. intros H a Ha Ha'. by eapply H. Qed.

(** The right-hand side is larger than the capacity: a copy is built in a
    new block and takes the place of the old contents. *)
Lemma spec_copy_assign_realloc this rhs tv rv xs ys o h t l :
  this <> rhs -> o !! this = Some tv -> o !! rhs = Some rv ->
  vec_repr h tv xs -> vec_repr h rv ys ->
  capacity_ (data_ tv) < size_ rv ->
  let a' := fresh (dom h) in
  let bt := buffer_ (data_ tv) in
  spec (Vector_copy_assign this rhs) (mkWorld o h t l)
     (fun _ w' =>
        throws t = false /\ no_throw (S t) (size_ rv) /\
        w' = mkWorld (<[this := mkVec (mkRaw (Some a') (size_ rv)) (size_ rv)]> o)
               (free_blk bt (<[a' := full_blk ys (size_ rv)]> h))
               (S t + size_ rv)
               (l ++ [EvAlloc a' (size_ rv)] ++
                  (EvConstruct a' <$> seq 0 (size_ rv)) ++
                  (EvDestroy (addr_of bt) <$> seq 0 (size_ tv)) ++ free_ev bt))
     (fun e w' =>
        (throws t = true /\ e = bad_alloc /\ w' = mkWorld o h (S t) l) \/
        (throws t = false /\ exists k, k < size_ rv /\ first_throw (S t) k /\
           e = thrown CopyCtor /\
           w' = mkWorld o h (S (S t + k))
                  (l ++ [EvAlloc a' (size_ rv)] ++
                     (EvConstruct a' <$> seq 0 k) ++
                     (EvDestroy a' <$> seq 0 k) ++ [EvFree a'])))
     (slots (size_ rv) < size_ rv).
Proof.
  intros Hne Hthis Hrhs (Hlx & Hcx & Hbx) (Hly & Hcy & Hby) Hbig a' bt.
  fold bt in Hbx.
  unfold Vector_copy_assign. rewrite decide_False by done.
  apply spec_bind, wp_spec. eapply wp_get_obj; [done|].
  apply spec_bind, wp_spec. eapply wp_get_obj; [done|].
  rewrite (proj2 (Nat.ltb_lt _ _)) by done.
  assert (Hdt : distinct bt (Some a')) by (by eapply blk_at_fresh).
  apply spec_bind, wp_spec. eapply wp_mono; [apply wp_RawMemory_ctor| |].
  2:{ intros e w' (_ & Ht & -> & ->). by left. }
  intros r w1 [(Hz & _)|(_ & Ht & -> & ->)]; [lia|]. fold a'.
  apply spec_bind, spec_on_unwind. unfold GetAddress. simpl buffer_.
  eapply spec_mono.
  { eapply (spec_uninitialized_copy_n (size_ rv) ys (buffer_ (data_ rv)) 0 (Some a') 0);
      try done.
    - by eapply blk_at_fresh.
    - apply blk_at_insert_ne; [done|by eapply blk_at_fresh].
    - simpl. apply lookup_insert_eq.
    - apply vals_at_prefix.
    - intros k Hk Hk'. rewrite length_replicate in Hk'. by apply lookup_replicate_2. }
  3:{ rewrite length_replicate. intros (? & ? & _). lia. }
  2:{ intros e w' (k & Hk & _ & Hft & -> & ->).
      eapply wp_mono; [eapply (wp_RawMemory_dtor (mkRaw (Some a') (size_ rv)))| |done].
      { simpl. apply lookup_insert_eq. }
      intros _ w2 ->. right. split; [done|]. exists k. repeat (split; [done|]).
      simpl. f_equal.
      - rewrite delete_insert_eq. apply delete_id, fresh_heap_None.
      - by rewrite <- !app_assoc. }
  intros _ w2 (Hroom & Hnt & ->). rewrite length_replicate in Hroom.
  assert (Hfit : fits (size_ rv)) by (apply slots_fits; lia).
  rewrite (fits_slots _ Hfit).
  simpl upd_blk. rewrite insert_insert_eq.
  rewrite inserts_fill by lia.
  apply spec_bind, wp_spec, wp_put_obj. simpl.
  unfold Vector_dtor_local, DestroyN, GetAddress. fold bt.
  apply spec_bind, wp_spec.
  eapply wp_mono; [eapply (wp_destroy_n_opt (size_ tv) bt 0)| |done].
  { by apply blk_at_insert_ne. }
  { apply live_range_full_blk. lia. }
  intros _ w3 ->. apply wp_spec.
  eapply wp_mono; [eapply wp_RawMemory_dtor| |done].
  { fold bt. apply blk_at_upd. intros Hb. rewrite Hb in Hbx. simpl in Hbx.
    rewrite Hbx. apply list_inserts_nil. }
  intros _ w4 ->. split; [done|]. split; [done|]. fold bt. f_equal.
  - by rewrite free_upd_blk.
  - by rewrite <- !app_assoc.
Qed.

(** The right-hand side fits: the existing block is reused. *)
Lemma wp_copy_assign_inplace this rhs tv rv xs ys o h t l :
  this <> rhs -> o !! this = Some tv -> o !! rhs = Some rv ->
  vec_repr h tv xs -> vec_repr h rv ys ->
  distinct (buffer_ (data_ rv)) (buffer_ (data_ tv)) ->
  size_ rv <= capacity_ (data_ tv) ->
  wp (Vector_copy_assign this rhs) (mkWorld o h t l)
     (fun _ w' =>
        objs w' = <[this := mkVec (data_ tv) (size_ rv)]> o /\
        heap w' = upd_blk (buffer_ (data_ tv)) (full_blk ys (capacity_ (data_ tv))) h)
     (fun e w' =>
        objs w' = o /\ exists ws, length ws = size_ tv /\
        heap w' = upd_blk (buffer_ (data_ tv)) (full_blk ws (capacity_ (data_ tv))) h).
Proof.
  intros Hne Hthis Hrhs (Hlx & Hcx & Hbx) (Hly & Hcy & Hby) Hd Hfit.
  set (bt := buffer_ (data_ tv)) in *. set (br := buffer_ (data_ rv)) in *.
  set (cap := capacity_ (data_ tv)) in *.
  unfold Vector_copy_assign. rewrite decide_False by done.
  apply wp_bind. eapply wp_get_obj; [done|].
  apply wp_bind. eapply wp_get_obj; [done|]. fold cap.
  rewrite (proj2 (Nat.ltb_ge _ _)) by done.
  set (m := size_ rv `min` size_ tv).
  set (rest := replicate (cap - length xs) (@None T)).
  assert (Hfull : forall ws, length ws = size_ tv -> live_blk ws rest = full_blk ws cap).
  { intros ws Hws. unfold full_blk, live_blk, rest. by rewrite Hws, Hlx. }
  assert (Hnull : forall ws, length ws = size_ tv -> bt = None -> full_blk ws cap = []).
  { intros ws Hws Hb. rewrite Hb in Hbx. simpl in Hbx.
    apply (f_equal length) in Hbx. rewrite length_full_blk in Hbx by lia.
    simpl in Hbx. unfold full_blk. rewrite Hbx in *.
    destruct ws; [done|]. simpl in Hws. lia. }
  apply wp_bind. unfold GetAddress. fold bt br.
  eapply wp_mono.
  { eapply (wp_copy_n_opt m (take m ys) br 0 bt 0 (full_blk ys (capacity_ (data_ rv)))
              xs rest); try done.
    - rewrite length_take. unfold m. lia.
    - intros k x Hk. apply lookup_take_Some in Hk as [Hk _]. by apply vals_at_prefix.
    - unfold m. lia. }
  2:{ intros e w' (k & Hk & Hft & -> & ->). simpl. split; [done|].
      eexists. split; [|by rewrite Hfull by (rewrite length_inserts; lia)].
      by rewrite length_inserts. }
  intros _ w1 [Hnt ->].
  set (zs1 := list_inserts 0 (take m ys) xs).
  assert (Hz1 : length zs1 = size_ tv) by (unfold zs1; by rewrite length_inserts).
  rewrite Hfull by done.
  destruct (Nat.ltb_spec (size_ rv) (size_ tv)) as [Hlt|Hge].
  - apply wp_bind. unfold padd. simpl base. simpl off.
    eapply wp_mono;
      [eapply (wp_destroy_n_opt (size_ tv - size_ rv) bt (size_ rv))| |done].
    { apply blk_at_upd. intros Hb. by apply Hnull. }
    { apply live_range_full_blk. lia. }
    intros _ w2 ->. apply wp_put_obj. simpl. split; [done|].
    rewrite upd_blk_twice. f_equal.
    rewrite <- Hz1, inserts_truncate by lia. f_equal.
    unfold zs1, m. rewrite Nat.min_l by lia.
    rewrite (take_ge ys) by lia. rewrite inserts_prefix by lia.
    by rewrite take_app_length' by lia.
  - assert (Hzs : zs1 = take (size_ tv) ys).
    { unfold zs1, m. rewrite Nat.min_r by lia.
      rewrite inserts_prefix by (rewrite length_take; lia).
      rewrite drop_ge by (rewrite length_take; lia). apply app_nil_r. }
    apply wp_bind. unfold padd. simpl base. simpl off.
    eapply wp_mono.
    { eapply (wp_uninitialized_copy_n (size_ rv - size_ tv) (drop (size_ tv) ys)
                br (size_ tv) bt (size_ tv)); try done.
      - by apply blk_at_upd_ne.
      - apply blk_at_upd. intros Hb. by apply Hnull.
      - rewrite length_drop. lia.
      - intros k x Hk. rewrite lookup_drop in Hk. by apply full_blk_lookup_live.
      - apply raw_range_full_blk; lia. }
    2:{ intros e w' (k & Hk & Hft & -> & ->). simpl. split; [done|]. by exists zs1. }
    intros _ w2 [Hnt2 ->]. apply wp_put_obj. simpl. split; [done|].
    rewrite upd_blk_twice. f_equal.
    rewrite <- Hz1, inserts_append by (rewrite length_drop; lia).
    by rewrite Hz1, Hzs, take_drop.
Qed.

(** *** [Swap], move construction, construction, destruction *)

Lemma Vector_eta (v : Vector) : mkVec (data_ v) (size_ v) = v.
Proof. by destruct v. Qed.

Lemma wp_Swap this other tv ov o h t l :
  o !! this = Some tv -> o !! other = Some ov ->
  wp (Swap this other) (mkWorld o h t l)
     (fun _ w' => w' = mkWorld (<[other := tv]> (<[this := ov]> o)) h t l)
     (fun _ _ => False).
Proof.
  intros Hthis Hother. unfold Swap.
  apply wp_bind. eapply wp_get_obj; [done|].
  apply wp_bind. eapply wp_get_obj; [done|].
  apply wp_bind, wp_put_obj. simpl. apply wp_bind, wp_put_obj. simpl.
  destruct (decide (this = other)) as [->|Hne].
  - assert (tv = ov) as -> by congruence.
    apply wp_bind. eapply wp_get_obj; [apply lookup_insert_eq|].
    apply wp_bind. eapply wp_get_obj; [apply lookup_insert_eq|].
    apply wp_bind, wp_put_obj. simpl. apply wp_put_obj. simpl.
    by rewrite !insert_insert_eq, Vector_eta.
  - apply wp_bind. eapply wp_get_obj;
      [simpl; rewrite lookup_insert_ne by done; apply lookup_insert_eq|].
    apply wp_bind. eapply wp_get_obj; [apply lookup_insert_eq|].
    apply wp_bind, wp_put_obj. simpl. apply wp_put_obj. simpl.
    rewrite !Vector_eta. f_equal. heap_eq.
Qed.

Lemma fresh_objs_None (o : gmap nat Vector) : o !! fresh (dom o) = None.
Proof. apply not_elem_of_dom, is_fresh. Qed.

Lemma wp_Vector_move other ov o h t l :
  o !! other = Some ov ->
  wp (Vector_move other) (mkWorld o h t l)
     (fun id w' => id = fresh (dom o) /\
        w' = mkWorld (<[other := Vector_empty]> (<[fresh (dom o) := ov]> o)) h t l)
     (fun _ _ => False).
Proof.
  intros Hother. unfold Vector_move.
  apply wp_bind. eapply wp_get_obj; [done|].
  apply wp_bind. unfold wp, new_obj. simpl.
  set (id := fresh (dom o)).
  assert (Hid : id <> other).
  { intros Heq. rewrite <- Heq in Hother. unfold id in Hother.
    by rewrite fresh_objs_None in Hother. }
  apply wp_bind. eapply wp_mono; [eapply (wp_Swap id other Vector_empty ov)| |done].
  - apply lookup_insert_eq.
  - simpl. by rewrite lookup_insert_ne.
  - intros _ w' ->. apply wp_ret. split; [done|]. f_equal.
    by rewrite insert_insert_eq.
Qed.

Lemma vec_repr_empty h : vec_repr h Vector_empty [].
Proof. done. Qed.

Lemma frame_alloc h a' blk : h !! a' = None -> frame h (<[a' := blk]> h) None (Some a').
Proof. intros Ha'. apply (frame_realloc h None a' blk Ha'). Qed.

(** A constructor that builds [n] elements in a new block: the sized
    constructor with [fill], the copy constructor with a transfer. *)
Lemma spec_construct_new (fill : RawMemory -> M unit) n (xs : list T) o h t l :
  length xs = n ->
  (forall t1 l1,
     spec (fill (mkRaw (Some (fresh (dom h))) n))
        (mkWorld o (<[fresh (dom h) := replicate (slots n) None]> h) t1 l1)
        (fun _ w' => n <= slots n /\ exists t2 l2,
           w' = mkWorld o
                  (<[fresh (dom h) :=
                       list_inserts 0 (Some <$> xs) (replicate (slots n) None)]> h)
                  t2 l2)
        (fun _ w' => exists t2 l2,
           w' = mkWorld o (<[fresh (dom h) := replicate (slots n) None]> h) t2 l2)
        (slots n < n)) ->
  (n = 0 -> forall t1 l1,
     wp (fill (mkRaw None 0)) (mkWorld o h t1 l1)
        (fun _ w' => exists t2 l2, w' = mkWorld o h t2 l2) (fun _ _ => False)) ->
  spec (d <- RawMemory_ctor n ;;
        on_unwind (fill d) (RawMemory_dtor d) ;;;
        new_obj (mkVec d n)) (mkWorld o h t l)
     (fun id w' => id = fresh (dom o) /\ exists v',
        objs w' = <[fresh (dom o) := v']> o /\ size_ v' = n /\
        capacity_ (data_ v') = n /\
        vec_repr (heap w') v' xs /\ frame h (heap w') None (buffer_ (data_ v')))
     (fun _ w' => objs w' = o /\ heap w' = h)
     (slots n < n).
Proof.
  intros Hlen Hfill Hnil.
  apply spec_bind, wp_spec. eapply wp_mono; [apply wp_RawMemory_ctor| |].
  2:{ intros e w' (_ & _ & _ & ->). done. }
  intros d w1 [(-> & -> & ->)|(Hn & Ht & -> & ->)].
  - apply spec_bind, wp_spec, wp_on_unwind. eapply wp_mono; [by apply Hnil| |done].
    intros _ w2 (t2 & l2 & ->). unfold spec, new_obj. simpl.
    split; [done|]. eexists. split; [done|]. simpl. repeat (split; [done|]).
    destruct xs; [|done]. split; [done|apply frame_refl].
  - apply spec_bind, spec_on_unwind. eapply spec_mono; [apply Hfill| | |done].
    + intros _ w2 (Hroom & t2 & l2 & ->). unfold spec, new_obj. simpl.
      assert (Hfit : fits n) by (by apply slots_fits).
      rewrite (fits_slots _ Hfit).
      split; [done|]. eexists. split; [done|]. simpl. repeat (split; [done|]).
      split; [|apply frame_alloc, fresh_heap_None].
      repeat (split; [simpl; lia|]). simpl.
      rewrite inserts_fill by lia. apply lookup_insert_eq.
    + intros e w2 (t2 & l2 & ->).
      eapply wp_mono; [eapply (wp_RawMemory_dtor (mkRaw (Some (fresh (dom h))) n))| |done].
      { simpl. apply lookup_insert_eq. }
      intros _ w3 ->. simpl. split; [done|].
      rewrite delete_insert_eq. apply delete_id, fresh_heap_None.
Qed.

Lemma spec_Vector_sized n o h t l :
  spec (Vector_sized n) (mkWorld o h t l)
     (fun id w' => id = fresh (dom o) /\ exists v',
        objs w' = <[fresh (dom o) := v']> o /\ size_ v' = n /\
        capacity_ (data_ v') = n /\
        vec_repr (heap w') v' (replicate n T_default) /\
        frame h (heap w') None (buffer_ (data_ v')))
     (fun _ w' => objs w' = o /\ heap w' = h)
     (slots n < n).
Proof.
  unfold Vector_sized.
  apply (spec_construct_new
           (fun d => uninitialized_value_construct_n (GetAddress d) n) n
           (replicate n T_default)).
  - apply length_replicate.
  - intros t1 l1. unfold GetAddress. simpl.
    eapply spec_mono;
      [eapply (spec_uninitialized_value_construct_n n (Some (fresh (dom h))) 0);
       [simpl; apply lookup_insert_eq|done|]| | |].
    + intros k Hk Hk'. rewrite length_replicate in Hk'. by apply lookup_replicate_2.
    + intros _ w' (Hroom & _ & ->). rewrite length_replicate in Hroom.
      split; [lia|]. simpl. rewrite insert_insert_eq, fmap_replicate. eauto.
    + intros e w' (k & _ & _ & _ & _ & ->). eauto.
    + rewrite length_replicate. lia.
  - intros -> t1 l1. simpl. apply wp_ret. eauto.
Qed.

Lemma spec_Vector_copy other ov ys o h t l :
  o !! other = Some ov -> vec_repr h ov ys ->
  spec (Vector_copy other) (mkWorld o h t l)
     (fun id w' => id = fresh (dom o) /\ exists v',
        objs w' = <[fresh (dom o) := v']> o /\ size_ v' = size_ ov /\
        capacity_ (data_ v') = size_ ov /\
        vec_repr (heap w') v' ys /\ frame h (heap w') None (buffer_ (data_ v')))
     (fun _ w' => objs w' = o /\ heap w' = h)
     (slots (size_ ov) < size_ ov).
Proof.
  intros Hother (Hly & Hcy & Hby). unfold Vector_copy.
  apply spec_bind, wp_spec. eapply wp_get_obj; [done|].
  apply (spec_construct_new
           (fun d => uninitialized_copy_n (GetAddress (data_ ov)) (size_ ov)
                       (GetAddress d)) (size_ ov) ys); [done| |].
  - intros t1 l1. unfold GetAddress. simpl.
    assert (Hd : distinct (buffer_ (data_ ov)) (Some (fresh (dom h))))
      by (by eapply blk_at_fresh).
    eapply spec_mono;
      [eapply (spec_uninitialized_copy_n (size_ ov) ys (buffer_ (data_ ov)) 0
                 (Some (fresh (dom h))) 0);
       [done|by apply blk_at_insert_ne|simpl; apply lookup_insert_eq|done
       |apply vals_at_prefix|done|]| | |].
    + intros k Hk Hk'. rewrite length_replicate in Hk'. by apply lookup_replicate_2.
    + intros _ w' (Hroom & _ & ->). rewrite length_replicate in Hroom.
      split; [lia|]. simpl. rewrite insert_insert_eq. eauto.
    + intros e w' (k & _ & _ & _ & _ & ->). eauto.
    + rewrite length_replicate. intros (? & ? & _). lia.
  - intros Hz t1 l1. rewrite Hz. simpl. apply wp_ret. eauto.
Qed.

Lemma wp_Vector_dtor this v xs o h t l :
  o !! this = Some v -> vec_repr h v xs ->
  wp (Vector_dtor this) (mkWorld o h t l)
     (fun _ w' => objs w' = delete this o /\ heap w' = free_blk (buffer_ (data_ v)) h)
     (fun _ _ => False).
Proof.
  intros Hthis (Hlen & Hcap & Hblk). unfold Vector_dtor, DestroyN, GetAddress.
  apply wp_bind. eapply wp_get_obj; [done|].
  apply wp_bind.
  eapply wp_mono; [eapply (wp_destroy_n_opt (size_ v) (buffer_ (data_ v)) 0)| |done].
  { done. }
  { apply live_range_full_blk. lia. }
  intros _ w1 ->. apply wp_bind.
  eapply wp_mono; [eapply wp_RawMemory_dtor| |done].
  { apply blk_at_upd. intros Hb. rewrite Hb in Hblk. simpl in Hblk.
    rewrite Hblk. apply list_inserts_nil. }
  intros _ w2 ->. apply wp_modify. simpl. split; [done|apply free_upd_blk].
Qed.

(** *** [Emplace] on a well-formed vector *)

Lemma vec_repr_src_after h v xs k :
  vec_repr h v xs ->
  exists xs', vec_repr (upd_blk (buffer_ (data_ v)) (src_after k xs (capacity_ (data_ v))) h)
                v xs'.
Proof.
  intros Hrepr. pose proof Hrepr as (Hlen & Hcap & Hblk).
  rewrite src_after_full. eexists. apply vec_repr_upd; try done.
  - rewrite length_app, length_fmap, length_take, length_drop. lia.
  - intros Hb. by eapply vec_repr_null.
Qed.

Lemma updated_src_after this v xs k o h t l :
  o !! this = Some v -> vec_repr h v xs ->
  updated this v o h
    (mkWorld o (upd_blk (buffer_ (data_ v)) (src_after k xs (capacity_ (data_ v))) h) t l).
Proof.
  intros Hthis Hrepr. destruct (vec_repr_src_after h v xs k Hrepr) as [xs' Hxs'].
  exists v, xs'. simpl. split; [by rewrite insert_id|]. split; [done|].
  split; [done|apply frame_upd].
Qed.

Lemma spec_Emplace this index via v vec xs o h t l :
  o !! this = Some vec -> vec_repr h vec xs -> index <= size_ vec ->
  spec (Emplace this index via v) (mkWorld o h t l)
     (fun p w' => exists v',
        objs w' = <[this := v']> o /\ size_ v' = S (size_ vec) /\
        vec_repr (heap w') v' (take index xs ++ v :: drop index xs) /\
        capacity_ (data_ v') =
          (if decide (size_ vec = capacity_ (data_ vec))
           then grown (size_ vec) else capacity_ (data_ vec)) /\
        frame h (heap w') (buffer_ (data_ vec)) (buffer_ (data_ v')) /\
        p = Ptr (buffer_ (data_ v')) index)
     (fun e w' =>
        (exists k, k < size_ vec + 2 /\ throws (t + k) = true) /\
        (updated this vec o h w' \/
         (e = thrown MoveAssign /\ nothrow_move_assignable = false /\
          index < size_ vec /\ objs w' = o)))
     (size_ vec = capacity_ (data_ vec) /\ slots (grown (size_ vec)) <= size_ vec).
Proof.
  intros Hthis Hrepr Hidx. pose proof Hrepr as (Hlen & Hcap & Hblk).
  assert (Hl' : length (take index xs ++ v :: drop index xs) = S (size_ vec)).
  { rewrite length_app, length_take. simpl. rewrite length_drop. lia. }
  unfold Emplace. apply spec_bind, wp_spec. eapply wp_get_obj; [done|].
  rewrite (proj2 (Nat.ltb_ge _ _)) by done.
  destruct (Nat.eqb_spec (size_ vec) (capacity_ (data_ vec))) as [Heq|Hne].
  - rewrite decide_True by done. pose proof (grown_gt (size_ vec)) as Hg.
    eapply spec_mono; [by eapply spec_EmplaceWithRelocation| | |done].
    + intros p w' (_ & _ & _ & -> & ->). eexists. simpl.
      split; [done|]. simpl. split; [done|].
      split; [|split; [done|split; [apply frame_realloc, fresh_heap_None|done]]].
      repeat (split; [simpl; lia|]). simpl.
      destruct (buffer_ (data_ vec)) as [a|] eqn:Hb; simpl.
      * simpl in Hblk. rewrite lookup_delete_ne.
        -- replace (grown (size_ vec))
             with (grown (size_ vec)) by done.
           rewrite lookup_insert_eq. unfold full_blk. by rewrite Hl'.
        -- intros ->. by rewrite fresh_heap_None in Hblk.
      * rewrite lookup_insert_eq. unfold full_blk. by rewrite Hl'.
    + intros e w' [(Ht & -> & ->)|[(_ & _ & Ht & -> & ->)|
        (_ & Hct & Hn & -> & [(k & Hk & [_ Hft] & ->)|(k & Hk & _ & [_ Hft] & ->)])]].
      * split; [exists 0; rewrite Nat.add_0_r; split; [lia|done]|].
        left. by eapply updated_same.
      * split; [exists 1; rewrite Nat.add_1_r; split; [lia|done]|].
        left. by eapply updated_same.
      * split.
        { exists (1 + cost (ctor_nothrow via) + k).
          split; [destruct (ctor_nothrow via); simpl; lia|].
          by replace (t + (1 + cost (ctor_nothrow via) + k))
               with (S t + cost (ctor_nothrow via) + k) by lia. }
        left. by apply updated_src_after.
      * split.
        { exists (1 + cost (ctor_nothrow via) + index + k).
          split; [destruct (ctor_nothrow via); simpl; lia|].
          by replace (t + (1 + cost (ctor_nothrow via) + index + k))
               with (S t + cost (ctor_nothrow via) + index + k) by lia. }
        left. by apply updated_src_after.
  - rewrite decide_False by done.
    destruct (wp_EmplaceWithoutRelocation this index via v vec xs o h t l)
      as (a & Hb & Hwp); [done|done|done|lia|].
    apply wp_spec. eapply wp_mono; [apply Hwp| |].
    + intros p w' (-> & _ & ->). eexists. simpl.
      split; [done|]. simpl. split; [done|].
      split; [|split; [done|split; [|by rewrite Hb]]].
      * repeat (split; [simpl; lia|]). simpl. rewrite Hb. simpl.
        rewrite lookup_insert_eq. unfold full_blk. by rewrite Hl'.
      * split; [|by left]. intros c Hc _. apply lookup_insert_ne. congruence.
    + intros e w' (k & Hk & [_ Hft] & Hobjs & Hcase). split.
      { exists k. split; [|done]. unfold inplace_cost in Hk.
        destruct (ctor_nothrow via), nothrow_move_constructible,
          nothrow_move_assignable; simpl in Hk; case_decide; lia. }
      destruct Hcase as [[_ Hh]|(-> & Hn & Hlt & _)]; [left|by right].
      destruct w' as [o' h' t' l']. simpl in *. subst. by eapply updated_same.
Qed.

(** When nothing throws, the element is inserted. *)
Lemma Emplace_returns this index via v vec xs o h t l :
  o !! this = Some vec -> vec_repr h vec xs -> index <= size_ vec ->
  (size_ vec = capacity_ (data_ vec) -> fits (grown (size_ vec))) ->
  no_throw t (size_ vec + 2) ->
  exists p w', Emplace this index via v (mkWorld o h t l) = Ret p w'.
Proof.
  intros Hthis Hrepr Hidx Hfits Hnt.
  pose proof (spec_Emplace this index via v vec xs o h t l Hthis Hrepr Hidx) as Hwp.
  unfold spec in Hwp.
  destruct (Emplace this index via v (mkWorld o h t l)) as [p w'|e w'|]; [eauto| |].
  - destruct Hwp as [(k & Hk & Hthrow) _]. by rewrite Hnt in Hthrow.
  - destruct Hwp as [Heq Hs]. rewrite (fits_slots _ (Hfits Heq)) in Hs.
    pose proof (grown_gt (size_ vec)). lia.
Qed.

Lemma Erase_returns this position vec xs o h t l :
  o !! this = Some vec -> vec_repr h vec xs -> position < size_ vec ->
  no_throw t (size_ vec) ->
  exists p w', Erase this position (mkWorld o h t l) = Ret p w'.
Proof.
  intros Hthis Hrepr Hpos Hnt.
  destruct (wp_Erase this position vec xs o h t l Hthis Hrepr Hpos) as (a & _ & Hwp).
  unfold wp in Hwp.
  destruct (Erase this position (mkWorld o h t l)) as [p w'|e w'|];
    [eauto| |done].
  destruct Hwp as (k & ws & Hk & _ & [_ Hthrow] & _).
  rewrite Hnt in Hthrow; [done|lia].
Qed.

(** ** Every public operation keeps the invariant *)

Lemma wp_outcome {A} (m : M A) w Q E : wp m w Q E -> outcome_ok (m w) Q E.
Proof. unfold wp, outcome_ok. by destruct (m w). Qed.

Lemma spec_outcome {A} (m : M A) w Q E U : spec m w Q E U -> outcome_ok (m w) Q E.
Proof. unfold spec, outcome_ok. by destruct (m w). Qed.

Lemma outcome_mono {A} (r : Res A) (Q Q' : A -> World -> Prop)
    (E E' : exn -> World -> Prop) :
  outcome_ok r Q E ->
  (forall a w', Q a w' -> Q' a w') -> (forall e w', E e w' -> E' e w') ->
  outcome_ok r Q' E'.
Proof. destruct r; simpl; eauto. Qed.

Lemma outcome_returning {A} (f : A -> retval) (m : M A) w Q E :
  outcome_ok (m w) (fun a w' => Q (f a) w') E ->
  outcome_ok (returning f m w) Q E.
Proof. unfold returning, bind, outcome_ok. by destruct (m w). Qed.

Lemma updated_grows this v o h w' :
  o !! this = Some v -> updated this v o h w' -> grows o w' this.
Proof.
  intros Hthis (v' & xs' & Hobjs & _ & Hcap & _) v0 Hv0.
  assert (v0 = v) as -> by congruence.
  exists v'. by rewrite Hobjs, lookup_insert_eq.
Qed.

Lemma same_grows o w' this : objs w' = o -> grows o w' this.
Proof. intros <- v Hv. eauto. Qed.

Lemma Inv_same o h t l w' :
  Inv (mkWorld o h t l) -> objs w' = o -> heap w' = h -> Inv w'.
Proof. destruct w'. simpl. by intros H -> ->. Qed.

Lemma Inv_vec o h t l this v :
  Inv (mkWorld o h t l) -> o !! this = Some v -> exists xs, vec_repr h v xs.
Proof. intros [Hvec _] Hthis. by apply (Hvec this v). Qed.

Lemma Inv_distinct o h t l this rhs tv rv :
  Inv (mkWorld o h t l) -> this <> rhs -> o !! this = Some tv -> o !! rhs = Some rv ->
  distinct (buffer_ (data_ rv)) (buffer_ (data_ tv)).
Proof.
  intros [_ Huniq] Hne Hthis Hrhs a Hr Ht. apply Hne.
  by eapply (Huniq this rhs tv rv a).
Qed.

Lemma Reserve_ok this n o h t l :
  Inv (mkWorld o h t l) -> fits n ->
  in_place_ok this o h (Reserve this n (mkWorld o h t l)) (fun _ => False).
Proof.
  intros HI Hfits. destruct (o !! this) as [v|] eqn:Hthis.
  2:{ unfold in_place_ok, Reserve, bind, get_obj. simpl. by rewrite Hthis. }
  destruct (Inv_vec _ _ _ _ _ _ HI Hthis) as [xs Hxs].
  apply wp_outcome. eapply wp_mono; [by eapply wp_Reserve_abs| |].
  - intros _ w' (v1 & Hobjs & _ & Hr & Hc & Hf). exists v. split; [done|].
    exists v1, xs. repeat (split; [done|]). split; [lia|done].
  - intros e w' (Hobjs & Hf & xs' & Hr). left. exists v. split; [done|].
    exists v, xs'. split; [by rewrite Hobjs, insert_id|]. done.
Qed.

Lemma Resize_ok this n o h t l :
  Inv (mkWorld o h t l) -> fits n ->
  in_place_ok this o h (Resize this n (mkWorld o h t l)) (fun _ => False).
Proof.
  intros HI Hfits. destruct (o !! this) as [v|] eqn:Hthis.
  2:{ unfold in_place_ok, Resize, bind, get_obj. simpl. by rewrite Hthis. }
  destruct (Inv_vec _ _ _ _ _ _ HI Hthis) as [xs Hxs].
  apply wp_outcome. eapply wp_mono; [by eapply wp_Resize| |].
  - intros _ w' (v1 & Hobjs & _ & Hr & Hc & Hf). exists v. split; [done|].
    eexists v1, _. repeat (split; [done|]). split; [lia|done].
  - intros e w' Hu. left. eauto.
Qed.

Lemma updated_shrunk this v xs xs' a o h t l size' :
  vec_repr h v xs -> buffer_ (data_ v) = Some a ->
  length xs' = size' -> size' <= capacity_ (data_ v) ->
  updated this v o h
    (mkWorld (<[this := mkVec (data_ v) size']> o)
       (<[a := full_blk xs' (capacity_ (data_ v))]> h) t l).
Proof.
  intros Hrepr Hb Hlen Hcap.
  exists (mkVec (data_ v) size'), xs'. simpl. split; [done|].
  split; [|split; [done|]].
  - repeat (split; [done|]). simpl. rewrite Hb. simpl. apply lookup_insert_eq.
  - rewrite Hb. split; [|by left]. intros c Hc _. apply lookup_insert_ne. congruence.
Qed.

Lemma updated_contents this v xs xs' a o h t l :
  o !! this = Some v -> vec_repr h v xs -> buffer_ (data_ v) = Some a ->
  length xs' = size_ v ->
  updated this v o h (mkWorld o (<[a := full_blk xs' (capacity_ (data_ v))]> h) t l).
Proof.
  intros Hthis Hrepr Hb Hlen. pose proof Hrepr as (_ & Hcap & _).
  replace o with (<[this := mkVec (data_ v) (size_ v)]> o) at 2
    by (by rewrite Vector_eta, insert_id).
  by eapply updated_shrunk.
Qed.

Lemma PopBack_ok this o h t l :
  Inv (mkWorld o h t l) ->
  in_place_ok this o h (PopBack this (mkWorld o h t l)) (fun _ => False).
Proof.
  intros HI. destruct (o !! this) as [v|] eqn:Hthis.
  2:{ unfold in_place_ok, PopBack, bind, get_obj. simpl. by rewrite Hthis. }
  destruct (Inv_vec _ _ _ _ _ _ HI Hthis) as [xs Hxs].
  destruct (Nat.eqb_spec (size_ v) 0) as [Hz|Hnz].
  { unfold in_place_ok, PopBack, bind, get_obj. simpl. rewrite Hthis. simpl.
    by rewrite (proj2 (Nat.eqb_eq _ _) Hz). }
  destruct (wp_PopBack this v xs o h t l) as (a & Hb & Hwp); [done|done|lia|].
  apply wp_outcome. eapply wp_mono; [apply Hwp| |done].
  intros _ w' ->. exists v. split; [done|].
  pose proof Hxs as (Hlen & Hcap & _).
  eapply updated_shrunk; [done|done| |lia]. rewrite length_take. lia.
Qed.

Lemma Erase_ok this pos o h t l :
  Inv (mkWorld o h t l) ->
  in_place_ok this o h (Erase this pos (mkWorld o h t l)) (fun _ => False).
Proof.
  intros HI. destruct (o !! this) as [v|] eqn:Hthis.
  2:{ unfold in_place_ok, Erase, bind, get_obj. simpl. by rewrite Hthis. }
  destruct (Inv_vec _ _ _ _ _ _ HI Hthis) as [xs Hxs].
  destruct (Nat.leb_spec (size_ v) pos) as [Hle|Hlt].
  { unfold in_place_ok, Erase, bind, get_obj. simpl. rewrite Hthis. simpl.
    by rewrite (proj2 (Nat.leb_le _ _) Hle). }
  destruct (wp_Erase this pos v xs o h t l) as (a & Hb & Hwp); [done|done|lia|].
  pose proof Hxs as (Hlen & Hcap & _).
  apply wp_outcome. eapply wp_mono; [apply Hwp| |].
  - intros p w' (_ & _ & ->). exists v. split; [done|].
    eapply updated_shrunk; [done|done| |lia].
    rewrite length_delete by (apply lookup_lt_is_Some_2; lia). lia.
  - intros e w' (k & ws & _ & _ & _ & _ & Hws & ->). left. exists v. split; [done|].
    by eapply updated_contents.
Qed.

Lemma Emplace_ok this pos via x o h t l :
  Inv (mkWorld o h t l) ->
  in_place_ok this o h (Emplace this pos via x (mkWorld o h t l))
    (fun e => e = thrown MoveAssign /\ nothrow_move_assignable = false).
Proof.
  intros HI. destruct (o !! this) as [v|] eqn:Hthis.
  2:{ unfold in_place_ok, Emplace, bind, get_obj. simpl. by rewrite Hthis. }
  destruct (Inv_vec _ _ _ _ _ _ HI Hthis) as [xs Hxs].
  destruct (Nat.ltb_spec (size_ v) pos) as [Hlt|Hle].
  { unfold in_place_ok, Emplace, bind, get_obj. simpl. rewrite Hthis. simpl.
    by rewrite (proj2 (Nat.ltb_lt _ _) Hlt). }
  eapply outcome_mono; [by eapply spec_outcome, spec_Emplace| |].
  - intros p w' (v1 & Hobjs & _ & Hr & Hc & Hf & _). exists v. split; [done|].
    eexists v1, _. repeat (split; [done|]). split; [|done].
    rewrite Hc. case_decide; [|done]. pose proof (grown_gt (size_ v)). lia.
  - intros e w' [_ [Hu|(-> & Hn & _ & Hobjs)]]; [left; eauto|by right].
Qed.

Lemma EmplaceBack_ok this via x o h t l :
  Inv (mkWorld o h t l) ->
  in_place_ok this o h (EmplaceBack this via x (mkWorld o h t l)) (fun _ => False).
Proof.
  intros HI. destruct (o !! this) as [v|] eqn:Hthis.
  2:{ unfold in_place_ok, EmplaceBack, bind, get_obj. simpl. by rewrite Hthis. }
  destruct (Inv_vec _ _ _ _ _ _ HI Hthis) as [xs Hxs].
  unfold in_place_ok, EmplaceBack. unfold bind at 1. unfold get_obj. simpl.
  rewrite Hthis.
  eapply outcome_mono; [by eapply spec_outcome, spec_Emplace| |].
  - intros p w' (v1 & Hobjs & _ & Hr & Hc & Hf & _). exists v. split; [done|].
    eexists v1, _. repeat (split; [done|]). split; [|done].
    rewrite Hc. case_decide; [|done]. pose proof (grown_gt (size_ v)). lia.
  - intros e w' [_ [Hu|(_ & _ & Hlt & _)]]; [left; eauto|lia].
Qed.

Lemma PushBack_ok this via x o h t l :
  Inv (mkWorld o h t l) ->
  in_place_ok this o h (PushBack this via x (mkWorld o h t l)) (fun _ => False).
Proof.
  intros HI. pose proof (EmplaceBack_ok this via x o h t l HI) as H.
  unfold in_place_ok, outcome_ok, PushBack, bind in *.
  by destruct (EmplaceBack this via x (mkWorld o h t l)).
Qed.

Lemma copy_assign_ok this rhs o h t l :
  Inv (mkWorld o h t l) ->
  outcome_ok (Vector_copy_assign this rhs (mkWorld o h t l))
    (fun _ w' => Inv w' /\ grows o w' this)
    (fun _ w' => Inv w' /\ grows o w' this).
Proof.
  intros HI. unfold Vector_copy_assign. case_decide as Hne.
  { simpl. split; [done|by apply same_grows]. }
  destruct (o !! this) as [tv|] eqn:Hthis.
  2:{ unfold outcome_ok, bind, get_obj. simpl. by rewrite Hthis. }
  destruct (o !! rhs) as [rv|] eqn:Hrhs.
  2:{ unfold outcome_ok, bind, get_obj. simpl. rewrite Hthis. simpl. by rewrite Hrhs. }
  destruct (Inv_vec _ _ _ _ _ _ HI Hthis) as [xs Hxs].
  destruct (Inv_vec _ _ _ _ _ _ HI Hrhs) as [ys Hys].
  pose proof (Inv_distinct _ _ _ _ _ _ _ _ HI Hne Hthis Hrhs) as Hd.
  pose proof Hxs as (Hlx & Hcx & Hbx). pose proof Hys as (Hly & Hcy & Hby).
  assert (Hgoal : outcome_ok (Vector_copy_assign this rhs (mkWorld o h t l))
            (fun _ w' => updated this tv o h w')
            (fun _ w' => updated this tv o h w')).
  { destruct (Nat.ltb_spec (capacity_ (data_ tv)) (size_ rv)) as [Hbig|Hfit].
    - eapply outcome_mono; [by eapply spec_outcome, spec_copy_assign_realloc| |].
      + intros _ w' (_ & _ & ->).
        eapply updated_realloc; [done|apply fresh_heap_None|lia|done|lia].
      + intros e w' [(_ & _ & ->)|(_ & k & _ & _ & _ & ->)]; by eapply updated_same.
    - apply wp_outcome. eapply wp_mono; [by eapply wp_copy_assign_inplace| |].
      + intros _ [o' h' t' l'] [Ho Hh]. simpl in *. subst o' h'.
        eexists (mkVec (data_ tv) (size_ rv)), ys. simpl. split; [done|].
        split; [|split; [done|apply frame_upd]].
        apply (vec_repr_upd h tv (mkVec (data_ tv) (size_ rv))); simpl; try done.
        intros Hb. by eapply vec_repr_null.
      + intros e [o' h' t' l'] (Ho & ws & Hws & Hh). simpl in *. subst o' h'.
        exists tv, ws. simpl. split; [by rewrite insert_id|].
        split; [|split; [done|apply frame_upd]].
        apply (vec_repr_upd h tv tv); try done.
        intros Hb. by eapply vec_repr_null. }
  unfold Vector_copy_assign in Hgoal. rewrite decide_False in Hgoal by done.
  eapply outcome_mono; [apply Hgoal| |]; intros ? w' Hu; simpl in Hu;
    (split; [eapply (Inv_updated this tv); eassumption
            |eapply (updated_grows this tv); eassumption]).
Qed.

Lemma in_place_finish this o h t l {A} (r : Res A) leak :
  Inv (mkWorld o h t l) -> in_place_ok this o h r leak ->
  outcome_ok r
    (fun _ w' => Inv w' /\ grows o w' this)
    (fun e w' => (Inv w' \/ leak e) /\ grows o w' this).
Proof.
  intros HI H. eapply outcome_mono; [apply H| |]; simpl.
  - intros _ w' (v & Hthis & Hu).
    split; [by eapply Inv_updated|by eapply updated_grows].
  - intros e w' [(v & Hthis & Hu)|[Hleak Hobjs]].
    + split; [left; by eapply Inv_updated|by eapply updated_grows].
    + split; [by right|by apply same_grows].
Qed.

Lemma buf_of_fresh (o : gmap nat Vector) : buf_of o (fresh (dom o)) = None.
Proof. unfold buf_of. by rewrite fresh_objs_None. Qed.

(** The step lemma: a public operation called in a world that satisfies
    the invariant leaves one that does, unless the exception of a move
    assignment escapes an [Insert] or [Emplace]; and the operations
    that work on a vector in place do not lower its capacity. *)
Lemma exec_ok op o h t l :
  Inv (mkWorld o h t l) -> fitting op ->
  outcome_ok (exec op (mkWorld o h t l))
    (fun _ w' => Inv w' /\ forall this, keeps_capacity op this -> grows o w' this)
    (fun e w' =>
       (Inv w' \/ (insert_leak op e /\ nothrow_move_assignable = false)) /\
       forall this, keeps_capacity op this -> grows o w' this).
Proof.
  intros HI Hfits. destruct op; simpl exec; apply outcome_returning.
  - (* Vector() *)
    unfold Vector_default, new_obj. simpl. split; [|done].
    eapply Inv_insert; [done|apply vec_repr_empty|].
    rewrite buf_of_fresh. apply frame_refl.
  - (* Vector(size) *)
    eapply outcome_mono; [eapply spec_outcome, spec_Vector_sized| |].
    + intros id w' (_ & v' & Hobjs & _ & _ & Hr & Hf). split; [|done].
      destruct w' as [o' h' t' l']. simpl in *. subst o'.
      eapply Inv_insert; [done|done|]. by rewrite buf_of_fresh.
    + intros e w' [Ho Hh]. split; [|done]. left. by eapply Inv_same.
  - (* Vector(const Vector &) *)
    destruct (o !! other) as [ov|] eqn:Hother.
    2:{ unfold outcome_ok, Vector_copy, bind, get_obj. simpl. by rewrite Hother. }
    destruct (Inv_vec _ _ _ _ _ _ HI Hother) as [ys Hys].
    eapply outcome_mono; [by eapply spec_outcome, spec_Vector_copy| |].
    + intros id w' (_ & v' & Hobjs & _ & _ & Hr & Hf). split; [|done].
      destruct w' as [o' h' t' l']. simpl in *. subst o'.
      eapply Inv_insert; [done|done|]. by rewrite buf_of_fresh.
    + intros e w' [Ho Hh]. split; [|done]. left. by eapply Inv_same.
  - (* Vector(Vector &&) *)
    destruct (o !! other) as [ov|] eqn:Hother.
    2:{ unfold outcome_ok, Vector_move, bind, get_obj. simpl. by rewrite Hother. }
    eapply outcome_mono; [by eapply wp_outcome, wp_Vector_move| |done].
    intros id w' [_ ->]. split; [|done].
    rewrite <- (insert_insert_eq o (fresh (dom o)) ov Vector_empty).
    eapply (Inv_swap (fresh (dom o)) other Vector_empty ov _ h t l).
    + eapply Inv_insert; [done|apply vec_repr_empty|].
      rewrite buf_of_fresh. apply frame_refl.
    + apply lookup_insert_eq.
    + rewrite lookup_insert_ne; [done|]. intros Heq. rewrite <- Heq in Hother.
      by rewrite fresh_objs_None in Hother.
  - (* ~Vector() *)
    destruct (o !! this) as [v|] eqn:Hthis.
    2:{ unfold outcome_ok, Vector_dtor, bind, get_obj. simpl. by rewrite Hthis. }
    destruct (Inv_vec _ _ _ _ _ _ HI Hthis) as [xs Hxs].
    eapply outcome_mono; [by eapply wp_outcome, wp_Vector_dtor| |done].
    intros _ [o' h' t' l'] [Ho Hh]. simpl in *. subst o' h'. split; [|done].
    eapply Inv_delete; [done|done|]. intros c Hc.
    destruct (buffer_ (data_ v)) as [a|]; simpl; [|done].
    apply lookup_delete_ne. congruence.
  - (* copy assignment *)
    eapply outcome_mono; [by apply copy_assign_ok| |]; simpl.
    + intros _ w' [H1 H2]. split; [done|]. by intros this0 <-.
    + intros e w' [H1 H2]. split; [by left|]. by intros this0 <-.
  - (* move assignment *)
    unfold Vector_move_assign. case_decide as Hne; [simpl; by split|].
    destruct (o !! this) as [tv|] eqn:Hthis.
    2:{ unfold outcome_ok, Swap, bind, get_obj. simpl. by rewrite Hthis. }
    destruct (o !! rhs) as [rv|] eqn:Hrhs.
    2:{ unfold outcome_ok, Swap, bind, get_obj. simpl. rewrite Hthis. simpl.
        by rewrite Hrhs. }
    eapply outcome_mono; [by eapply wp_outcome, wp_Swap| |done].
    intros _ w' ->. split; [|done]. by eapply Inv_swap.
  - (* Swap *)
    destruct (o !! this) as [tv|] eqn:Hthis.
    2:{ unfold outcome_ok, Swap, bind, get_obj. simpl. by rewrite Hthis. }
    destruct (o !! other) as [ov|] eqn:Hother.
    2:{ unfold outcome_ok, Swap, bind, get_obj. simpl. rewrite Hthis. simpl.
        by rewrite Hother. }
    eapply outcome_mono; [by eapply wp_outcome, wp_Swap| |done].
    intros _ w' ->. split; [|done]. by eapply Inv_swap.
  - (* Reserve *)
    eapply outcome_mono; [by eapply in_place_finish, Reserve_ok| |]; simpl.
    + intros _ w' [H1 H2]. split; [done|]. by intros this0 <-.
    + intros e w' [[H1|[]] H2]. split; [by left|]. by intros this0 <-.
  - (* Resize *)
    eapply outcome_mono; [by eapply in_place_finish, Resize_ok| |]; simpl.
    + intros _ w' [H1 H2]. split; [done|]. by intros this0 <-.
    + intros e w' [[H1|[]] H2]. split; [by left|]. by intros this0 <-.
  - (* Size *)
    unfold Size, bind, get_obj, ret. simpl. destruct (o !! this); simpl; by split.
  - (* Capacity *)
    unfold Capacity, bind, get_obj, ret. simpl. destruct (o !! this); simpl; by split.
  - (* operator[] *)
    unfold Vector_at, RawMemory_at, bind, get_obj, ret, undef. simpl.
    destruct (o !! this) as [v|]; simpl; [|done].
    destruct (index <? size_ v); simpl; [|done].
    destruct (index <? capacity_ (data_ v)); simpl; by split.
  - (* PushBack *)
    eapply outcome_mono; [by eapply in_place_finish, PushBack_ok| |]; simpl.
    + intros _ w' [H1 H2]. split; [done|]. by intros this0 <-.
    + intros e w' [[H1|[]] H2]. split; [by left|]. by intros this0 <-.
  - (* EmplaceBack *)
    eapply outcome_mono; [by eapply in_place_finish, EmplaceBack_ok| |]; simpl.
    + intros _ w' [H1 H2]. split; [done|]. by intros this0 <-.
    + intros e w' [[H1|[]] H2]. split; [by left|]. by intros this0 <-.
  - (* PopBack *)
    eapply outcome_mono; [by eapply in_place_finish, PopBack_ok| |]; simpl.
    + intros _ w' [H1 H2]. split; [done|]. by intros this0 <-.
    + intros e w' [[H1|[]] H2]. split; [by left|]. by intros this0 <-.
  - (* Insert *)
    unfold Insert.
    eapply outcome_mono; [by eapply in_place_finish, Emplace_ok| |]; simpl.
    + intros _ w' [H1 H2]. split; [done|]. by intros this0 <-.
    + intros e w' [[H1|[-> Hn]] H2].
      * split; [by left|]. by intros this0 <-.
      * split; [right; by repeat split|]. by intros this0 <-.
  - (* Emplace *)
    eapply outcome_mono; [by eapply in_place_finish, Emplace_ok| |]; simpl.
    + intros _ w' [H1 H2]. split; [done|]. by intros this0 <-.
    + intros e w' [[H1|[-> Hn]] H2].
      * split; [by left|]. by intros this0 <-.
      * split; [right; by repeat split|]. by intros this0 <-.
  - (* Erase *)
    eapply outcome_mono; [by eapply in_place_finish, Erase_ok| |]; simpl.
    + intros _ w' [H1 H2]. split; [done|]. by intros this0 <-.
    + intros e w' [[H1|[]] H2]. split; [by left|]. by intros this0 <-.
Qed.

(** ** The capacity, whatever the bytes asked for *)

(** [Resize] to more than the capacity: the vector ends with the capacity
    asked for when [Reserve] has returned, and as it was when [Reserve]
    has thrown. *)
Lemma Resize_grows_capacity this n v xs o h t l :
  o !! this = Some v -> vec_repr h v xs -> capacity_ (data_ v) < n ->
  outcome_ok (Resize this n (mkWorld o h t l))
    (fun _ w' => grows o w' this) (fun _ w' => grows o w' this).
Proof.
  intros Hthis Hrepr Hlt. pose proof Hrepr as (Hlen & Hcap & Hblk).
  eapply (spec_outcome _ _ _ _ True). unfold Resize.
  apply spec_bind, wp_spec. eapply wp_get_obj; [done|].
  rewrite (proj2 (Nat.ltb_ge _ _)) by lia.
  apply spec_bind, spec_bind.
  eapply spec_mono; [by eapply spec_Reserve| | |done].
  - intros _ w1 [[Hle _]|(_ & Ht & Hs & Hnt & ->)]; [lia|].
    apply spec_bind, wp_spec. eapply wp_get_obj; [apply lookup_insert_eq|].
    unfold GetAddress, padd. cbn [base off buffer_ data_ size_ Nat.add].
    set (a' := fresh (dom h)).
    set (h1 := free_blk (buffer_ (data_ v)) (<[a' := full_blk xs (slots n)]> h)).
    assert (Hnew : h1 !! a' = Some (full_blk xs (slots n))).
    { unfold h1. destruct (buffer_ (data_ v)) as [a|] eqn:Hb; simpl.
      - simpl in Hblk. rewrite lookup_delete_ne; [apply lookup_insert_eq|].
        intros Heq. subst a. unfold a' in Hblk. by rewrite fresh_heap_None in Hblk.
      - apply lookup_insert_eq. }
    assert (Hgrows : forall o' size' h' t' l',
              o' !! this = Some (mkVec (mkRaw (Some a') n) size') ->
              grows o (mkWorld o' h' t' l') this).
    { intros o' size' h' t' l' Ho' v0 Hv0. assert (v0 = v) as -> by congruence.
      eexists. split; [exact Ho'|]. simpl. lia. }
    eapply spec_mono;
      [eapply (spec_uninitialized_value_construct_n (n - size_ v) (Some a') (size_ v));
       [exact Hnew|done|]| | |done].
    + intros k Hk Hk'. rewrite length_full_blk in Hk' by lia.
      apply full_blk_lookup_raw. lia.
    + intros _ w2 (_ & _ & ->).
      apply spec_bind, wp_spec. eapply wp_get_obj; [apply lookup_insert_eq|].
      apply wp_spec, wp_put_obj. simpl. eapply Hgrows. apply lookup_insert_eq.
    + intros e w2 (k & _ & _ & _ & _ & ->). eapply Hgrows. apply lookup_insert_eq.
  - intros e w1 (_ & [(_ & _ & ->)|(_ & k & _ & _ & _ & _ & _ & ->)]);
      by apply same_grows.
Qed.

(** Each of the operations that work on a vector in place leaves it with
    at least the capacity it had, also when the bytes it asks for
    wrap. *)
Lemma exec_grows op o h t l :
  Inv (mkWorld o h t l) ->
  outcome_ok (exec op (mkWorld o h t l))
    (fun _ w' => forall this, keeps_capacity op this -> grows o w' this)
    (fun _ w' => forall this, keeps_capacity op this -> grows o w' this).
Proof.
  intros HI.
  assert (Hfit : fitting op ->
            outcome_ok (exec op (mkWorld o h t l))
              (fun _ w' => forall this, keeps_capacity op this -> grows o w' this)
              (fun _ w' => forall this, keeps_capacity op this -> grows o w' this)).
  { intros Hf. eapply outcome_mono; [by apply exec_ok| |]; by intros ? ? [_ ?]. }
  destruct op; try (apply Hfit; exact I); simpl exec; apply outcome_returning.
  - (* Reserve *)
    destruct (o !! this) as [v|] eqn:Hthis.
    2:{ unfold outcome_ok, Reserve, bind, get_obj. simpl. by rewrite Hthis. }
    destruct (Inv_vec _ _ _ _ _ _ HI Hthis) as [xs Hxs].
    eapply outcome_mono; [by eapply spec_outcome, spec_Reserve| |].
    + intros _ w' [[_ ->]|(Hlt & _ & _ & _ & ->)] this0 <-.
      * by apply same_grows.
      * intros v0 Hv0. assert (v0 = v) as -> by congruence.
        eexists. simpl. split; [apply lookup_insert_eq|]. simpl. lia.
    + intros e w' (_ & [(_ & _ & ->)|(_ & k & _ & _ & _ & _ & _ & ->)]) this0 <-;
        by apply same_grows.
  - (* Resize *)
    destruct (o !! this) as [v|] eqn:Hthis.
    2:{ unfold outcome_ok, Resize, bind, get_obj. simpl. by rewrite Hthis. }
    destruct (Inv_vec _ _ _ _ _ _ HI Hthis) as [xs Hxs].
    destruct (Nat.le_gt_cases n (capacity_ (data_ v))) as [Hle|Hgt].
    + eapply outcome_mono; [eapply wp_outcome, (wp_Resize this n v xs); [done..|lia]| |].
      * intros _ w' (v' & Hobjs & _ & _ & Hc & _) this0 <- v0 Hv0.
        assert (v0 = v) as -> by congruence.
        exists v'. rewrite Hobjs, lookup_insert_eq. split; [done|lia].
      * intros e w' Hu this0 <-. simpl in Hu. by eapply updated_grows.
    + eapply outcome_mono; [by eapply Resize_grows_capacity| |];
        by intros ? w' Hg this0 <-.
Qed.



(** ** The specification of the vector, statement by statement *)

Lemma returning_Ret {A} (f : A -> retval) (m : M A) w r w' :
  returning f m w = Ret r w' -> exists a, m w = Ret a w' /\ r = f a.
Proof.
  unfold returning, bind, ret. destruct (m w) as [a w1| |]; [|done..].
  intros Heq. injection Heq as <- <-. eauto.
Qed.

Lemma returning_Raise {A} (f : A -> retval) (m : M A) w e w' :
  returning f m w = Raise e w' -> m w = Raise e w'.
Proof.
  unfold returning, bind, ret. destruct (m w); intros Heq; [discriminate|..].
  - by injection Heq as <- <-.
  - discriminate.
Qed.

Lemma Emplace_unfold this index via v vec w :
  objs w !! this = Some vec -> index <= size_ vec ->
  Emplace this index via v w =
    if size_ vec =? capacity_ (data_ vec)
    then EmplaceWithRelocation this index via v w
    else EmplaceWithoutRelocation this index via v w.
Proof.
  intros Hthis Hidx. unfold Emplace, bind, get_obj. rewrite Hthis.
  rewrite (proj2 (Nat.ltb_ge _ _)) by done.
  by destruct (size_ vec =? capacity_ (data_ vec)).
Qed.

Lemma EmplaceBack_unfold this via v vec w :
  objs w !! this = Some vec ->
  EmplaceBack this via v w = Emplace this (size_ vec) via v w.
Proof. intros Hthis. unfold EmplaceBack, bind at 1, get_obj. by rewrite Hthis. Qed.

(** What a successful insertion at [index] leaves. *)
Lemma Emplace_Ret this index via v vec xs w p w' :
  objs w !! this = Some vec -> vec_repr (heap w) vec xs -> index <= size_ vec ->
  Emplace this index via v w = Ret p w' ->
  exists v',
    objs w' = <[this := v']> (objs w) /\ size_ v' = S (size_ vec) /\
    vec_repr (heap w') v' (take index xs ++ v :: drop index xs) /\
    capacity_ (data_ v') =
      (if decide (size_ vec = capacity_ (data_ vec))
       then grown (size_ vec) else capacity_ (data_ vec)) /\
    p = Ptr (buffer_ (data_ v')) index.
Proof.
  intros Hthis Hrepr Hidx Hex. destruct w as [o h t l]. simpl in *.
  pose proof (spec_Emplace this index via v vec xs o h t l Hthis Hrepr Hidx) as Hwp.
  apply (spec_Ret _ _ _ _ _ _ _ Hwp) in Hex as (v' & H1 & H2 & H3 & H4 & _ & H5).
  by exists v'.
Qed.

(** C2 -- [Reserve] gives the strong guarantee on the copy path.  The
    elements are transferred by copy, the requested capacity exceeds the
    current one, the allocation succeeds, and the copy constructor throws
    on element [k].  Whenever [Reserve] then throws, it throws that
    exception and leaves the object store and the heap exactly as they
    were; the log shows the [k] elements built in the new block
    destroyed, first to last, and the new block released.  It does throw
    when the block [Allocate] handed out has room for the [k] elements
    copied before the throw, as it has whenever [n * sizeof(T)] does
    not wrap; when it has not, the copies leave the block first, which
    is undefined behaviour. *)
Theorem C2_Reserve_strong_guarantee w this n v xs k :
  objs w !! this = Some v -> vec_repr (heap w) v xs ->
  moves_elements = false ->
  capacity_ (data_ v) < n ->
  throws (tick w) = false ->
  k < size_ v -> first_throw (S (tick w)) k ->
  let a' := fresh (dom (heap w)) in
  let rolled_back :=
    mkWorld (objs w) (heap w) (S (S (tick w) + k))
      (log w ++ [EvAlloc a' n] ++ (EvConstruct a' <$> seq 0 k) ++
         (EvDestroy a' <$> seq 0 k) ++ [EvFree a']) in
  (forall e w', Reserve this n w = Raise e w' ->
     e = thrown CopyCtor /\ w' = rolled_back) /\
  (k <= slots n -> Reserve this n w = Raise (thrown CopyCtor) rolled_back) /\
  (fits n -> Reserve this n w = Raise (thrown CopyCtor) rolled_back) /\
  (slots n < k -> Reserve this n w = Undef).
Proof.
  intros Hthis Hrepr Hcopy Hlt Halloc Hk Hft a' rolled_back.
  destruct w as [o h t l]. simpl in *.
  pose proof (spec_Reserve this n v xs o h t l Hthis Hrepr) as Hwp. unfold spec in Hwp.
  pose proof (moves_elements_false_nothrow Hcopy) as Hn.
  assert (Hroom : fits n -> k <= slots n).
  { intros Hfit. rewrite (fits_slots n Hfit). destruct Hrepr as (_ & ? & _). lia. }
  destruct (Reserve this n (mkWorld o h t l)) as [[] w'|e w'|].
  - exfalso. destruct Hwp as [[Hle _]|(_ & _ & _ & Hnt & _)]; [lia|].
    destruct (first_throw_not_no_throw _ _ _ Hk Hft (Hnt Hn)).
  - destruct Hwp as [_ [(Ht & _)|(_ & k' & Hk' & Hs & _ & Hft' & -> & ->)]];
      [congruence|].
    assert (k' = k) as -> by (by eapply first_throw_unique).
    assert (Heq : xfer_exn = thrown CopyCtor /\
              mkWorld o
                (upd_blk (buffer_ (data_ v))
                   (list_inserts 0 (xfer_after <$> take k xs)
                      (full_blk xs (capacity_ (data_ v)))) h)
                (S (S t + k))
                (l ++ [EvAlloc (fresh (dom h)) n] ++
                   (EvConstruct (fresh (dom h)) <$> seq 0 k) ++
                   (EvDestroy (fresh (dom h)) <$> seq 0 k) ++
                   [EvFree (fresh (dom h))]) = rolled_back).
    { unfold xfer_exn. rewrite Hcopy. split; [done|]. unfold rolled_back. f_equal.
      fold (src_after k xs (capacity_ (data_ v))).
      rewrite src_after_copy by done. apply upd_blk_id.
      by destruct Hrepr as (_ & _ & ?). }
    destruct Heq as [-> ->].
    split; [by intros e w' [= <- <-]|]. split; [done|]. split; [done|]. lia.
  - destruct Hwp as (_ & Hs & _ & Hnt).
    assert (Hnot : k <= slots n -> False).
    { intros Hle. eapply (first_throw_not_no_throw _ k); [|exact Hft|exact (Hnt Hn)].
      lia. }
    split; [done|]. split; [by intros ?%Hnot|]. split; [by intros ?%Hroom%Hnot|done].
Qed.

(** C3 -- [Reserve(n)] changes nothing when [n <= capacity]; otherwise,
    when it returns, the capacity is exactly [n], the size is the same
    and the elements are the same objects' values, position by
    position, and when [n * sizeof(T)] does not wrap the vector holds
    them in a block of [n] slots; and it does return when nothing throws
    and the block [Allocate] handed out has room for the elements. *)
Theorem C3_Reserve w this n v xs :
  objs w !! this = Some v -> vec_repr (heap w) v xs ->
  (n <= capacity_ (data_ v) -> Reserve this n w = Ret tt w) /\
  (capacity_ (data_ v) < n ->
     (forall w', Reserve this n w = Ret tt w' ->
        exists v', objs w' !! this = Some v' /\ capacity_ (data_ v') = n /\
          size_ v' = size_ v /\
          (forall i x, xs !! i = Some x ->
             load (Ptr (buffer_ (data_ v')) i) w' = Ret x w') /\
          (fits n -> vec_repr (heap w') v' xs)) /\
     (size_ v <= slots n -> no_throw (tick w) (S (size_ v)) ->
        exists w', Reserve this n w = Ret tt w') /\
     (fits n -> size_ v <= slots n)).
Proof.
  intros Hthis Hrepr. destruct w as [o h t l]. simpl in *.
  pose proof (spec_Reserve this n v xs o h t l Hthis Hrepr) as Hwp. unfold spec in Hwp.
  pose proof Hrepr as (Hlen & Hcap & Hblk).
  assert (Hfits : fits n -> capacity_ (data_ v) < n -> size_ v <= slots n).
  { intros Hfit Hlt. rewrite (fits_slots n Hfit). lia. }
  destruct (Reserve this n (mkWorld o h t l)) as [[] w1|e w1|].
  - split.
    + intros Hle. destruct Hwp as [[_ ->]|[Hlt _]]; [done|lia].
    + intros Hlt. split; [|split; [eauto|auto]]. intros w' [= <-].
      destruct Hwp as [[Hle _]|(_ & _ & Hs & _ & ->)]; [lia|].
      eexists. simpl. rewrite lookup_insert_eq. split; [done|]. simpl.
      split; [done|]. split; [done|].
      assert (Hnew : free_blk (buffer_ (data_ v))
                       (<[fresh (dom h) := full_blk xs (slots n)]> h)
                     !! fresh (dom h) = Some (full_blk xs (slots n))).
      { destruct (buffer_ (data_ v)) as [a|] eqn:Hb; simpl.
        - simpl in Hblk. rewrite lookup_delete_ne; [apply lookup_insert_eq|].
          intros ->. by rewrite fresh_heap_None in Hblk.
        - apply lookup_insert_eq. }
      split.
      * intros i x Hx. unfold load, bind, slot. simpl. rewrite Hnew.
        by rewrite (full_blk_lookup_live xs (slots n) i x Hx).
      * intros Hfit. rewrite (fits_slots n Hfit) in Hnew |- *.
        repeat (split; [simpl; lia|]). done.
  - destruct Hwp as [Hlt Hcase]. split; [lia|]. intros _. split; [done|].
    split; [|auto]. intros _ Hnt. exfalso.
    destruct Hcase as [(Ht & _)|(_ & k & Hk & _ & _ & [_ Hft] & _)].
    + specialize (Hnt 0). rewrite Nat.add_0_r in Hnt. rewrite Hnt in Ht; [done|lia].
    + specialize (Hnt (S k)). replace (t + S k) with (S t + k) in Hnt by lia.
      rewrite Hnt in Hft; [done|lia].
  - destruct Hwp as (Hlt & Hs & _). split; [lia|]. intros _. split; [done|].
    split; [intros; lia|auto].
Qed.

Lemma Emplace_Ret_index this index via v vec w p w' :
  objs w !! this = Some vec -> Emplace this index via v w = Ret p w' ->
  index <= size_ vec.
Proof.
  intros Hthis. unfold Emplace, bind, get_obj. rewrite Hthis.
  destruct (Nat.ltb_spec (size_ vec) index); [done|lia].
Qed.

Lemma PushBack_Ret this via v w w' :
  PushBack this via v w = Ret tt w' -> exists p, EmplaceBack this via v w = Ret p w'.
Proof.
  unfold PushBack, bind, ret. destruct (EmplaceBack this via v w) as [p w1| |];
    intros Heq; [|discriminate..].
  injection Heq as <-. eauto.
Qed.

(** An insertion that returns was an [Emplace] at some position. *)
Lemma insertion_Ret op this vec w r w' :
  objs w !! this = Some vec -> inserts_into op this -> exec op w = Ret r w' ->
  exists index via v p,
    index <= size_ vec /\ Emplace this index via v w = Ret p w'.
Proof.
  intros Hthis Hins Hex.
  destruct op; simpl in Hins; try done; subst this0; simpl in Hex;
    apply returning_Ret in Hex as (a & Hex & _).
  - destruct a. apply PushBack_Ret in Hex as [p Hex].
    rewrite (EmplaceBack_unfold _ _ _ vec) in Hex by done. eauto 10.
  - rewrite (EmplaceBack_unfold _ _ _ vec) in Hex by done. eauto 10.
  - unfold Insert in Hex. pose proof (Emplace_Ret_index _ _ _ _ _ _ _ _ Hthis Hex).
    eauto 10.
  - pose proof (Emplace_Ret_index _ _ _ _ _ _ _ _ Hthis Hex). eauto 10.
Qed.

(** C4 -- an insertion ([PushBack], [EmplaceBack], [Insert], [Emplace])
    that finds [size == capacity] and returns leaves the capacity
    [max(1, 2 * capacity)], and the storage has grown with it: the vector
    holds its elements, one more than before, in a block of that many
    slots which did not exist before the call, and the old block has
    been released. *)
Theorem C4_growth_doubles w op this vec xs r w' :
  objs w !! this = Some vec -> vec_repr (heap w) vec xs ->
  inserts_into op this ->
  size_ vec = capacity_ (data_ vec) ->
  exec op w = Ret r w' ->
  exists v' a' blk xs',
    objs w' !! this = Some v' /\
    capacity_ (data_ v') = 1 `max` (2 * capacity_ (data_ vec)) /\
    size_ v' = S (size_ vec) /\
    buffer_ (data_ v') = Some a' /\ heap w !! a' = None /\
    heap w' !! a' = Some blk /\
    length blk = 1 `max` (2 * capacity_ (data_ vec)) /\
    vec_repr (heap w') v' xs' /\
    (forall a, buffer_ (data_ vec) = Some a -> heap w' !! a = None).
Proof.
  intros Hthis Hrepr Hins Hfull Hex.
  destruct (insertion_Ret op this vec w r w' Hthis Hins Hex)
    as (index & via & v & p & Hidx & Hem).
  rewrite (Emplace_unfold this index via v vec) in Hem by done.
  rewrite (proj2 (Nat.eqb_eq _ _) Hfull) in Hem.
  destruct w as [o h t l]. simpl in *.
  pose proof (spec_EmplaceWithRelocation this index via v vec xs o h t l
                Hthis Hrepr Hidx) as Hwp.
  apply (spec_Ret _ _ _ _ _ _ _ Hwp) in Hem as (_ & _ & _ & _ & ->).
  pose proof Hrepr as (Hlen & Hcap & Hblk).
  assert (Hg : grown (size_ vec) = 1 `max` (2 * capacity_ (data_ vec))).
  { unfold grown. rewrite <- Hfull. destruct (size_ vec); simpl; lia. }
  assert (Hl' : length (take index xs ++ v :: drop index xs) = S (size_ vec)).
  { rewrite length_app, length_take. simpl. rewrite length_drop. lia. }
  pose proof (grown_gt (size_ vec)) as Hgt.
  assert (Hnew : free_blk (buffer_ (data_ vec))
                   (<[fresh (dom h) :=
                        full_blk (take index xs ++ v :: drop index xs)
                          (grown (size_ vec))]> h)
                 !! fresh (dom h)
                 = Some (full_blk (take index xs ++ v :: drop index xs)
                           (grown (size_ vec)))).
  { destruct (buffer_ (data_ vec)) as [a|] eqn:Hb; simpl.
    - simpl in Hblk. rewrite lookup_delete_ne; [apply lookup_insert_eq|].
      intros ->. by rewrite fresh_heap_None in Hblk.
    - apply lookup_insert_eq. }
  eexists _, (fresh (dom h)), _, (take index xs ++ v :: drop index xs). simpl.
  rewrite lookup_insert_eq. split; [done|]. simpl.
  split; [done|]. split; [done|]. split; [done|].
  split; [apply fresh_heap_None|]. split; [exact Hnew|].
  split; [rewrite length_full_blk; lia|].
  split; [repeat (split; [simpl; lia|]); exact Hnew|].
  intros a ->. simpl. apply lookup_delete_eq.
Qed.

Lemma src_after_moved m xs cap i x :
  moves_elements = true -> xs !! i = Some x ->
  src_after m xs cap !! i = Some (Some (if decide (i < m) then moved_from x else x)).
Proof.
  intros Hm Hx. unfold src_after. pose proof (lookup_lt_Some _ _ _ Hx) as Hi.
  case_decide as Him.
  - rewrite list_lookup_inserts
      by (unfold full_blk; rewrite ?length_app, ?length_fmap, ?length_take; lia).
    rewrite Nat.sub_0_r, list_lookup_fmap, lookup_take_lt, Hx by done. simpl.
    unfold xfer_after. by rewrite Hm.
  - rewrite list_lookup_inserts_ge by (rewrite length_fmap, length_take; lia).
    by apply full_blk_lookup_live.
Qed.

(** C5, as the code has it -- an [Insert] or [Emplace] that relocates
    ([size == capacity]) while the transfer of an element can throw.  The
    allocation and the construction of the new element succeed.  If the
    transfer of element [k] of the prefix throws, or that of element [k]
    of the suffix, then whenever the call throws it throws that
    exception and leaves the object store as it was, and of the heap it
    has changed the old block at most: the new block is gone.  The log
    shows what is destroyed: in the first case the [k] objects built (by
    the algorithm, first to last) and the new element (by the handler);
    in the second the [k] objects of the suffix and then the prefix with
    the new element; in both the new block is released, and no element
    of the old block is destroyed.  The call does throw when the bytes
    of the doubled capacity do not wrap.  What the old block holds
    then: when the elements are copied, what it held, so the heap is
    exactly that before the call; when they are moved, the elements
    transferred before the throw in their moved-from state and the
    others as they were. *)
Theorem C5_relocation_rollback w this vec xs index via v :
  objs w !! this = Some vec -> vec_repr (heap w) vec xs ->
  index <= size_ vec -> size_ vec = capacity_ (data_ vec) ->
  nothrow_move_constructible = false ->
  throws (tick w) = false -> throws (S (tick w)) = false ->
  let a' := fresh (dom (heap w)) in
  let b := buffer_ (data_ vec) in
  let cap := capacity_ (data_ vec) in
  let ncap := grown (size_ vec) in
  let t2 := tick w + 2 in
  (forall k, k < index -> first_throw t2 k ->
     let rolled_back :=
       mkWorld (objs w) (upd_blk b (src_after k xs cap) (heap w)) (S (t2 + k))
         (log w ++ [EvAlloc a' ncap; EvConstruct a' index] ++
            (EvConstruct a' <$> seq 0 k) ++
            (EvDestroy a' <$> seq 0 k) ++
            [EvDestroy a' index; EvFree a']) in
     (forall e w', Emplace this index via v w = Raise e w' ->
        e = xfer_exn /\ w' = rolled_back) /\
     (fits ncap -> Emplace this index via v w = Raise xfer_exn rolled_back)) /\
  (forall k, k < size_ vec - index -> no_throw t2 index ->
     first_throw (t2 + index) k ->
     let rolled_back :=
       mkWorld (objs w) (upd_blk b (src_after (index + k) xs cap) (heap w))
         (S (t2 + index + k))
         (log w ++ [EvAlloc a' ncap; EvConstruct a' index] ++
            (EvConstruct a' <$> seq 0 index) ++
            (EvConstruct a' <$> seq (index + 1) k) ++
            (EvDestroy a' <$> seq (index + 1) k) ++
            (EvDestroy a' <$> seq 0 (index + 1)) ++
            [EvFree a']) in
     (forall e w', Emplace this index via v w = Raise e w' ->
        e = xfer_exn /\ w' = rolled_back) /\
     (fits ncap -> Emplace this index via v w = Raise xfer_exn rolled_back)) /\
  (moves_elements = false ->
     xfer_exn = thrown CopyCtor /\
     forall m, upd_blk b (src_after m xs cap) (heap w) = heap w) /\
  (moves_elements = true ->
     xfer_exn = thrown MoveCtor /\
     forall m i x, xs !! i = Some x ->
       src_after m xs cap !! i
       = Some (Some (if decide (i < m) then moved_from x else x))).
Proof.
  intros Hthis Hrepr Hidx Hfull Hn Halloc Hctor a' b cap ncap t2.
  destruct w as [o h t l]. simpl in *.
  assert (Hvia : ctor_nothrow via = false) by (destruct via; done).
  rewrite (Emplace_unfold this index via v vec) by done.
  rewrite (proj2 (Nat.eqb_eq _ _) Hfull).
  pose proof (spec_EmplaceWithRelocation this index via v vec xs o h t l
                Hthis Hrepr Hidx) as Hwp.
  unfold spec in Hwp. cbv zeta in Hwp. rewrite Hvia in Hwp.
  change (cost false) with 1 in Hwp.
  replace (S t + 1) with t2 in Hwp by (unfold t2; lia).
  fold a' b cap ncap in Hwp.
  assert (Hroom : fits ncap -> slots ncap <= size_ vec -> False).
  { intros Hfit. rewrite (fits_slots _ Hfit). unfold ncap.
    pose proof (grown_gt (size_ vec)). lia. }
  split; [|split; [|split]].
  - intros k Hk Hft.
    destruct (EmplaceWithRelocation this index via v (mkWorld o h t l))
      as [p w'|e w'|].
    + exfalso. destruct Hwp as (_ & _ & Hnt & _).
      destruct (first_throw_not_no_throw t2 k (size_ vec)); auto; lia.
    + destruct Hwp as [(Ht & _)|[(_ & _ & Ht & _)|
        (_ & _ & _ & -> & [(k' & Hk' & Hft' & ->)|(k' & _ & Hnt & _)])]];
        [congruence|congruence| |].
      * assert (k' = k) as -> by (by eapply first_throw_unique).
        split; [by intros e w' [= <- <-]|done].
      * by destruct (first_throw_not_no_throw t2 k index).
    + split; [done|]. intros Hfit. by destruct (Hroom Hfit).
  - intros k Hk Hnt Hft.
    destruct (EmplaceWithRelocation this index via v (mkWorld o h t l))
      as [p w'|e w'|].
    + exfalso. destruct Hwp as (_ & _ & Hnt' & _).
      destruct (first_throw_not_no_throw t2 (index + k) (size_ vec)); auto; [lia|].
      by apply first_throw_shift.
    + destruct Hwp as [(Ht & _)|[(_ & _ & Ht & _)|
        (_ & _ & _ & -> & [(k' & Hk' & Hft' & _)|(k' & Hk' & _ & Hft' & ->)])]];
        [congruence|congruence| |].
      * by destruct (first_throw_not_no_throw t2 k' index).
      * assert (k' = k) as -> by (by eapply first_throw_unique).
        split; [by intros e w' [= <- <-]|done].
    + split; [done|]. intros Hfit. by destruct (Hroom Hfit).
  - intros Hcopy. unfold xfer_exn. rewrite Hcopy. split; [done|].
    intros m. rewrite src_after_copy by done. apply upd_blk_id.
    by destruct Hrepr as (_ & _ & ?).
  - intros Hmove. unfold xfer_exn. rewrite Hmove. split; [done|].
    intros m i x Hx. by apply src_after_moved.
Qed.

Lemma blk_at_realloc h b bt blk nb :
  blk_at h b blk -> distinct b bt ->
  blk_at (free_blk bt (<[fresh (dom h) := nb]> h)) b blk.
Proof.
  intros Hb Hd. pose proof (blk_at_fresh h b blk Hb) as Hf.
  destruct b as [a|]; simpl in *; [|done].
  assert (fresh (dom h) <> a) by (intros Heq; by apply (Hf a); rewrite ?Heq).
  destruct bt as [c|]; simpl.
  - rewrite lookup_delete_ne by (intros ->; by apply (Hd a)).
    by rewrite lookup_insert_ne.
  - by rewrite lookup_insert_ne.
Qed.

(** C6 -- copy assignment from [rhs] into a different vector [this] whose
    capacity is smaller than the size of [rhs].  Whatever the call throws,
    the object store and the heap are those before the call, so the
    destination keeps its buffer, capacity, size and elements.  When the
    call returns, the destination holds the elements of the source and
    the source is unchanged.  Both cases occur, when the bytes of the
    copy do not wrap: the call throws the exception of the copy
    constructor that fails, and it returns when neither the allocation
    nor a copy throws. *)
Theorem C6_copy_assign_strong_guarantee w this rhs tv rv xs ys :
  this <> rhs -> objs w !! this = Some tv -> objs w !! rhs = Some rv ->
  vec_repr (heap w) tv xs -> vec_repr (heap w) rv ys ->
  distinct (buffer_ (data_ rv)) (buffer_ (data_ tv)) ->
  capacity_ (data_ tv) < size_ rv ->
  (forall e w', Vector_copy_assign this rhs w = Raise e w' ->
     objs w' = objs w /\ heap w' = heap w) /\
  (forall w', Vector_copy_assign this rhs w = Ret tt w' ->
     exists v', objs w' !! this = Some v' /\ size_ v' = size_ rv /\
       vec_repr (heap w') v' ys /\
       objs w' !! rhs = Some rv /\ vec_repr (heap w') rv ys) /\
  (fits (size_ rv) ->
   forall k, k < size_ rv -> throws (tick w) = false -> first_throw (S (tick w)) k ->
     exists w', Vector_copy_assign this rhs w = Raise (thrown CopyCtor) w') /\
  (fits (size_ rv) -> no_throw (tick w) (S (size_ rv)) ->
     exists w', Vector_copy_assign this rhs w = Ret tt w').
Proof.
  intros Hne Hthis Hrhs Hxs Hys Hd Hbig.
  destruct w as [o h t l]. simpl in *.
  pose proof (spec_copy_assign_realloc this rhs tv rv xs ys o h t l
                Hne Hthis Hrhs Hxs Hys Hbig) as Hwp.
  unfold spec in Hwp. cbv zeta in Hwp.
  destruct (Vector_copy_assign this rhs (mkWorld o h t l)) as [[] w1|e1 w1|].
  3:{ split; [done|]. split; [done|].
      split; intros Hfit; rewrite (fits_slots _ Hfit) in Hwp; lia. }
  - destruct Hwp as (Ht & Hnt & ->).
    split; [intros e w' Heq; discriminate|].
    split; [|split; [|eauto]].
    + intros w' [= <-]. simpl.
      eexists. rewrite lookup_insert_eq. split; [done|]. split; [done|].
      destruct Hys as (Hly & Hcy & Hby).
      split; [|split].
      * split; [done|]. split; [done|]. simpl.
        destruct (buffer_ (data_ tv)) as [c|] eqn:Hc; simpl.
        -- rewrite lookup_delete_ne; [by rewrite lookup_insert_eq|].
           intros ->. destruct Hxs as (_ & _ & Hbx). rewrite Hc in Hbx. simpl in Hbx.
           by rewrite fresh_heap_None in Hbx.
        -- by rewrite lookup_insert_eq.
      * by rewrite lookup_insert_ne.
      * split; [done|]. split; [done|]. by apply blk_at_realloc.
    + intros _ k Hk _ Hft.
      destruct (first_throw_not_no_throw (S t) k (size_ rv)); done.
  - split; [|split; [intros w' Heq; discriminate|split]].
    + intros e w' [= <- <-].
      destruct Hwp as [(_ & _ & ->)|(_ & k & _ & _ & _ & ->)]; done.
    + intros _ k Hk Ht Hft.
      destruct Hwp as [(Ht' & _)|(_ & k' & _ & _ & -> & _)]; [congruence|eauto].
    + intros _ Hnt.
      destruct Hwp as [(Ht' & _)|(_ & k' & Hk' & Hft & _)].
      * specialize (Hnt 0 ltac:(lia)). rewrite Nat.add_0_r in Hnt. congruence.
      * destruct (first_throw_not_no_throw t (S k') (S (size_ rv))); [lia| |done].
        apply first_throw_S; [|done].
        specialize (Hnt 0 ltac:(lia)). by rewrite Nat.add_0_r in Hnt.
Qed.

Lemma insert_at_end (xs : list T) n v :
  length xs = n -> take n xs ++ v :: drop n xs = xs ++ [v].
Proof. intros <-. by rewrite firstn_all, drop_all. Qed.

(** C7, as the code has it -- [PushBack] and [EmplaceBack] both insert the
    new element at the logical end: after a call that returns, the size is
    one greater and the elements are the old ones followed by the new
    value.  [EmplaceBack] returns a reference to the new element, the slot
    of index [size] of the buffer the vector has after the call;
    [PushBack] returns nothing. *)
Theorem C7_append_at_end w this vec xs via v :
  objs w !! this = Some vec -> vec_repr (heap w) vec xs ->
  (forall r w', exec (OpPushBack this via v) w = Ret r w' ->
     r = RVoid /\
     exists v', objs w' !! this = Some v' /\ size_ v' = S (size_ vec) /\
       vec_repr (heap w') v' (xs ++ [v])) /\
  (forall r w', exec (OpEmplaceBack this via v) w = Ret r w' ->
     exists v', objs w' !! this = Some v' /\ size_ v' = S (size_ vec) /\
       vec_repr (heap w') v' (xs ++ [v]) /\
       r = RRef (Ptr (buffer_ (data_ v')) (size_ vec))).
Proof.
  intros Hthis Hrepr. pose proof Hrepr as (Hlen & _).
  assert (Hback : forall p w', EmplaceBack this via v w = Ret p w' ->
            exists v', objs w' !! this = Some v' /\ size_ v' = S (size_ vec) /\
              vec_repr (heap w') v' (xs ++ [v]) /\
              p = Ptr (buffer_ (data_ v')) (size_ vec)).
  { intros p w' Hex. rewrite (EmplaceBack_unfold _ _ _ vec) in Hex by done.
    destruct (Emplace_Ret this (size_ vec) via v vec xs w p w' Hthis Hrepr
                (Nat.le_refl _) Hex) as (v' & Hobjs & Hsize & Hr & _ & Hp).
    exists v'. rewrite Hobjs, lookup_insert_eq.
    rewrite insert_at_end in Hr by done. done. }
  split; intros r w' Hex; simpl in Hex;
    apply returning_Ret in Hex as (a & Hex & ->).
  - split; [done|]. destruct a. apply PushBack_Ret in Hex as [p Hex].
    destruct (Hback p w' Hex) as (v' & ? & ? & ? & _). eauto.
  - destruct (Hback a w' Hex) as (v' & ? & ? & ? & ->). eauto 10.
Qed.

Lemma delete_inserted (xs : list T) p v :
  p <= length xs -> delete p (take p xs ++ v :: drop p xs) = xs.
Proof.
  intros Hp.
  assert (Hl : length (take p xs) = p) by (rewrite length_take; lia).
  transitivity (delete (length (take p xs)) (take p xs ++ v :: drop p xs));
    [by rewrite Hl|].
  rewrite delete_middle. apply take_drop.
Qed.

Lemma never_no_throw t n : (forall i, throws i = false) -> no_throw t n.
Proof. intros H i _. apply H. Qed.

(** C8 -- for a vector holding [xs], a value [v] and a position
    [p <= size]: when [Insert] at [p] and then [Erase] at [p] both return,
    the vector holds [xs] again, with the size it had.  And both calls do
    return when no operation of the element type throws and, where the
    vector has to grow, the bytes of the doubled capacity do not wrap. *)
Theorem C8_Insert_then_Erase w this vec xs p via v :
  objs w !! this = Some vec -> vec_repr (heap w) vec xs -> p <= size_ vec ->
  (forall it w1 it' w2,
     Insert this p via v w = Ret it w1 -> Erase this p w1 = Ret it' w2 ->
     exists v2, objs w2 !! this = Some v2 /\ size_ v2 = size_ vec /\
       vec_repr (heap w2) v2 xs) /\
  ((forall i, throws i = false) ->
   (size_ vec = capacity_ (data_ vec) -> fits (grown (size_ vec))) ->
     exists it w1 it' w2,
       Insert this p via v w = Ret it w1 /\ Erase this p w1 = Ret it' w2).
Proof.
  intros Hthis Hrepr Hp.
  assert (Hstep : forall it w1, Insert this p via v w = Ret it w1 ->
            exists v1, objs w1 !! this = Some v1 /\ size_ v1 = S (size_ vec) /\
              vec_repr (heap w1) v1 (take p xs ++ v :: drop p xs)).
  { intros it w1 Hins. unfold Insert in Hins.
    destruct (Emplace_Ret this p via v vec xs w it w1 Hthis Hrepr Hp Hins)
      as (v1 & Hobjs & Hsize & Hr1 & _).
    exists v1. by rewrite Hobjs, lookup_insert_eq. }
  split.
  - intros it w1 it' w2 Hins Her.
    destruct (Hstep it w1 Hins) as (v1 & Hthis1 & Hsize & Hr1).
    destruct w1 as [o1 h1 t1 l1]. simpl in *.
    destruct (wp_Erase this p v1 _ o1 h1 t1 l1 Hthis1 Hr1 ltac:(lia))
      as (a & Ha & Hwp).
    unfold wp in Hwp. rewrite Her in Hwp. destruct Hwp as (_ & _ & ->). simpl.
    eexists. rewrite lookup_insert_eq. split; [done|]. simpl.
    split; [lia|].
    destruct Hrepr as (Hlen & _). destruct Hr1 as (_ & Hcap1 & _).
    rewrite delete_inserted by lia.
    split; [simpl; lia|]. split; [simpl; lia|]. simpl. rewrite Ha. simpl.
    by rewrite lookup_insert_eq.
  - intros Hnever Hfits. destruct w as [o h t l]. simpl in *.
    destruct (Emplace_returns this p via v vec xs o h t l Hthis Hrepr Hp Hfits
                (never_no_throw _ _ Hnever)) as (it & w1 & Hins).
    destruct (Hstep it w1 Hins) as (v1 & Hthis1 & Hsize & Hr1).
    destruct w1 as [o1 h1 t1 l1]. simpl in *.
    destruct (Erase_returns this p v1 _ o1 h1 t1 l1 Hthis1 Hr1 ltac:(lia)
                (never_no_throw _ _ Hnever)) as (it' & w2 & Her).
    eauto 10.
Qed.

(** C9 -- assigning a vector to itself, by copy or by move, returns and
    leaves the whole world as it was: the vector with its size, capacity
    and elements, and the log, to which no construction and no
    destruction is added. *)
Theorem C9_self_assignment this w :
  Vector_copy_assign this this w = Ret tt w /\
  Vector_move_assign this this w = Ret tt w.
Proof.
  unfold Vector_copy_assign, Vector_move_assign.
  destruct (decide (this = this)) as [_|Hne]; [done|by destruct Hne].
Qed.

(** C10 -- a call of [Reserve], [Resize], [PushBack], [EmplaceBack],
    [PopBack], [Insert], [Emplace], [Erase] or copy assignment on a vector,
    in a world that satisfies the invariant, leaves the vector with at
    least the capacity it had, whether the call returns or throws, and
    whatever capacity it names. *)
Theorem C10_capacity_never_decreases w op this v w' :
  Inv w -> keeps_capacity op this -> objs w !! this = Some v ->
  (exists r, exec op w = Ret r w') \/ (exists e, exec op w = Raise e w') ->
  exists v', objs w' !! this = Some v' /\
    capacity_ (data_ v) <= capacity_ (data_ v').
Proof.
  intros HI Hop Hthis Hex. destruct w as [o h t l]. simpl in *.
  pose proof (exec_grows op o h t l HI) as Hok.
  destruct Hex as [[r Hex]|[e Hex]]; rewrite Hex in Hok; simpl in Hok;
    by apply (Hok this Hop v).
Qed.


Lemma run_reachable ops w w' :
  reachable (fun _ _ => True) w -> run ops w = Some w' ->
  reachable (fun _ _ => True) w'.
Proof.
  revert w. induction ops as [|op ops IH]; intros w Hw; simpl.
  - by intros [= <-].
  - destruct (exec op w) as [r w1|e w1|] eqn:Hex; [| |done]; apply IH.
    + by eapply reach_ret.
    + by eapply reach_raise.
Qed.

Lemma quiet_no_throw t n : quiet t n = true -> no_throw t n.
Proof.
  unfold quiet. rewrite forallb_forall. intros H i Hi.
  apply negb_true_iff, H, in_seq. lia.
Qed.

Lemma quiet_first_throw t k :
  quiet t k = true -> throws (t + k) = true -> first_throw t k.
Proof. intros H ?. split; [by apply quiet_no_throw|done]. Qed.

Lemma Inv_singleton id v xs h t l :
  vec_repr h v xs -> Inv (mkWorld {[id := v]} h t l).
Proof.
  intros Hr. split; simpl.
  - intros id' v' [<- <-]%lookup_singleton_Some. by exists xs.
  - intros id1 id2 v1 v2 a [<- _]%lookup_singleton_Some [<- _]%lookup_singleton_Some.
    done.
Qed.

(** ** Further properties of the member functions *)

Lemma wp_returns {A} (m : M A) w Q :
  wp m w Q (fun _ _ => False) -> exists a w', m w = Ret a w' /\ Q a w'.
Proof. unfold wp. destruct (m w) as [a w'| |]; [eauto|done..]. Qed.

(** X1 -- the move constructor never throws and touches no element: the
    new vector takes over the buffer, capacity and size of [other], which
    is left empty, with a null buffer and capacity 0; heap, tick and log
    are as before. *)
Theorem Vector_move_steals_buffer w other ov :
  objs w !! other = Some ov ->
  Vector_move other w =
    Ret (fresh (dom (objs w)))
      (mkWorld (<[other := Vector_empty]> (<[fresh (dom (objs w)) := ov]> (objs w)))
         (heap w) (tick w) (log w)).
Proof.
  intros Hother. destruct w as [o h t l]. simpl in *.
  destruct (wp_returns _ _ _ (wp_Vector_move other ov o h t l Hother))
    as (id & w' & Heq & -> & ->).
  done.
Qed.

(** X2 -- move assignment from a different vector never throws and
    destroys nothing: the two vectors exchange buffer, capacity and size,
    so [rhs] is left holding what [this] held. *)
Theorem move_assign_exchanges w this rhs tv rv :
  this <> rhs -> objs w !! this = Some tv -> objs w !! rhs = Some rv ->
  Vector_move_assign this rhs w =
    Ret tt (mkWorld (<[rhs := tv]> (<[this := rv]> (objs w)))
              (heap w) (tick w) (log w)).
Proof.
  intros Hne Hthis Hrhs. destruct w as [o h t l]. simpl in *.
  unfold Vector_move_assign. rewrite decide_False by done.
  destruct (wp_returns _ _ _ (wp_Swap this rhs tv rv o h t l Hthis Hrhs))
    as ([] & w' & Heq & ->).
  done.
Qed.

(** X3 -- [Swap] is its own inverse: two calls in a row leave the world as
    it was, also when a vector is swapped with itself. *)
Theorem Swap_twice w this other tv ov :
  objs w !! this = Some tv -> objs w !! other = Some ov ->
  (Swap this other ;;; Swap this other) w = Ret tt w.
Proof.
  intros Hthis Hother. destruct w as [o h t l]. simpl in *.
  destruct (wp_returns _ _ _ (wp_Swap this other tv ov o h t l Hthis Hother))
    as ([] & w1 & Heq1 & ->).
  unfold bind at 1. rewrite Heq1.
  set (o1 := <[other := tv]> (<[this := ov]> o)).
  assert (Hother1 : o1 !! other = Some tv) by apply lookup_insert_eq.
  assert (Hthis1 : exists x, o1 !! this = Some x /\
            <[other := x]> (<[this := tv]> o1) = o).
  { destruct (decide (this = other)) as [->|Hne].
    - exists tv. split; [done|]. unfold o1. rewrite !insert_insert_eq.
      apply insert_id. congruence.
    - exists ov. split; [unfold o1; by rewrite lookup_insert_ne, lookup_insert_eq|].
      unfold o1. apply map_eq. intros i.
      destruct (decide (i = other)) as [->|Hio]; [by rewrite lookup_insert_eq|].
      rewrite lookup_insert_ne by done.
      destruct (decide (i = this)) as [->|Hit]; [by rewrite lookup_insert_eq|].
      by rewrite !lookup_insert_ne. }
  destruct Hthis1 as (x & Hthis1 & Hback).
  destruct (wp_returns _ _ _ (wp_Swap this other x tv o1 h t l Hthis1 Hother1))
    as ([] & w2 & Heq2 & ->).
  by rewrite Heq2, Hback.
Qed.

(** X4 -- [PopBack] on a vector holding [xs ++ [x]] never throws: it
    destroys the last element and nothing else, the vector holds [xs] in
    the same buffer with the same capacity, and no tick is used. *)
Theorem PopBack_removes_last w this v xs x :
  objs w !! this = Some v -> vec_repr (heap w) v (xs ++ [x]) ->
  exists w', PopBack this w = Ret tt w' /\
    objs w' = <[this := mkVec (data_ v) (size_ v - 1)]> (objs w) /\
    vec_repr (heap w') (mkVec (data_ v) (size_ v - 1)) xs /\
    tick w' = tick w /\
    log w' = log w ++ [EvDestroy (addr_of (buffer_ (data_ v))) (size_ v - 1)].
Proof.
  intros Hthis Hrepr. destruct w as [o h t l]. simpl in *.
  pose proof Hrepr as (Hlen & Hcap & Hblk). rewrite length_app in Hlen. simpl in Hlen.
  destruct (wp_PopBack this v _ o h t l Hthis Hrepr ltac:(lia)) as (a & Ha & Hwp).
  destruct (wp_returns _ _ _ Hwp) as ([] & w' & Heq & ->).
  exists (mkWorld (<[this := mkVec (data_ v) (size_ v - 1)]> o)
            (<[a := full_blk (take (size_ v - 1) (xs ++ [x])) (capacity_ (data_ v))]> h)
            t (l ++ [EvDestroy a (size_ v - 1)])).
  split; [done|]. simpl. split; [done|]. rewrite Ha. simpl.
  split; [|done].
  replace (size_ v - 1) with (length xs) by lia.
  rewrite take_app_length.
  split; [simpl; lia|]. split; [simpl; lia|]. simpl. rewrite Ha. simpl.
  by rewrite lookup_insert_eq.
Qed.

(** X5 -- [PushBack] followed by [PopBack]: when the first returns, the
    second returns too, and the vector holds the elements it held before
    both, with its old size and at least its old capacity. *)
Theorem PushBack_then_PopBack w this vec xs via v w1 :
  objs w !! this = Some vec -> vec_repr (heap w) vec xs ->
  PushBack this via v w = Ret tt w1 ->
  exists w2 v2, PopBack this w1 = Ret tt w2 /\
    objs w2 !! this = Some v2 /\ size_ v2 = size_ vec /\
    vec_repr (heap w2) v2 xs /\
    capacity_ (data_ vec) <= capacity_ (data_ v2).
Proof.
  intros Hthis Hrepr Hpush. pose proof Hrepr as (Hlen & Hcap & _).
  apply PushBack_Ret in Hpush as [p Hpush].
  rewrite (EmplaceBack_unfold _ _ _ vec) in Hpush by done.
  destruct (Emplace_Ret this (size_ vec) via v vec xs w p w1 Hthis Hrepr
              (Nat.le_refl _) Hpush) as (v1 & Hobjs & Hsize & Hr1 & Hcap1 & _).
  rewrite insert_at_end in Hr1 by done.
  assert (Hthis1 : objs w1 !! this = Some v1) by (by rewrite Hobjs, lookup_insert_eq).
  destruct w1 as [o1 h1 t1 l1]. simpl in *.
  destruct (wp_PopBack this v1 _ o1 h1 t1 l1 Hthis1 Hr1 ltac:(lia)) as (a & Ha & Hwp).
  destruct (wp_returns _ _ _ Hwp) as ([] & w2 & Hpop & ->).
  eexists _, (mkVec (data_ v1) (size_ v1 - 1)).
  split; [exact Hpop|]. simpl. rewrite lookup_insert_eq. split; [done|]. simpl.
  split; [lia|]. split.
  - destruct Hr1 as (_ & Hc1 & _).
    replace (size_ v1 - 1) with (length xs) by lia. rewrite take_app_length.
    split; [simpl; lia|]. split; [simpl; lia|]. simpl. rewrite Ha. simpl.
    by rewrite lookup_insert_eq.
  - rewrite Hcap1. case_decide; [|lia]. pose proof (grown_gt (size_ vec)). lia.
Qed.

(** X6 -- [Erase] at a position below [size].  When it returns, the
    element at that position is gone and the others keep their order, in
    the same buffer with the same capacity, and the iterator returned
    points at the position.  It can only throw the exception of a move
    assignment that may throw; the vector then keeps its size and its
    buffer, and every slot below [size] still holds an element. *)
Theorem Erase_removes w this vec xs position :
  objs w !! this = Some vec -> vec_repr (heap w) vec xs -> position < size_ vec ->
  (forall p w', Erase this position w = Ret p w' ->
     p = Ptr (buffer_ (data_ vec)) position /\
     objs w' = <[this := mkVec (data_ vec) (size_ vec - 1)]> (objs w) /\
     vec_repr (heap w') (mkVec (data_ vec) (size_ vec - 1)) (delete position xs)) /\
  (forall e w', Erase this position w = Raise e w' ->
     e = thrown MoveAssign /\ nothrow_move_assignable = false /\
     objs w' = objs w /\ exists ws, vec_repr (heap w') vec ws).
Proof.
  intros Hthis Hrepr Hpos. destruct w as [o h t l]. simpl in *.
  pose proof Hrepr as (Hlen & Hcap & Hblk).
  destruct (wp_Erase this position vec xs o h t l Hthis Hrepr Hpos) as (a & Ha & Hwp).
  unfold wp in Hwp. split.
  - intros p w' Heq. rewrite Heq in Hwp. destruct Hwp as (-> & _ & ->). simpl.
    rewrite Ha. split; [done|]. split; [done|].
    split; [simpl; rewrite length_delete by (apply lookup_lt_is_Some; lia); lia|].
    split; [simpl; lia|]. simpl. rewrite Ha. simpl. by rewrite lookup_insert_eq.
  - intros e w' Heq. rewrite Heq in Hwp.
    destruct Hwp as (k & ws & _ & Hnma & _ & -> & Hws & ->). simpl.
    split; [done|]. split; [done|]. split; [done|]. exists ws.
    split; [done|]. split; [done|]. rewrite Ha. simpl. by rewrite lookup_insert_eq.
Qed.

(** X7 -- [Erase] does not throw when the move assignment of the element
    type is [noexcept], as its exception specification says; and erasing
    the last element does not throw whatever the element type, since
    nothing is moved. *)
Theorem Erase_does_not_throw w this vec xs position :
  objs w !! this = Some vec -> vec_repr (heap w) vec xs -> position < size_ vec ->
  nothrow_move_assignable = true \/ position = size_ vec - 1 ->
  exists p w', Erase this position w = Ret p w'.
Proof.
  intros Hthis Hrepr Hpos Hcase. destruct w as [o h t l]. simpl in *.
  destruct (wp_Erase this position vec xs o h t l Hthis Hrepr Hpos) as (a & Ha & Hwp).
  unfold wp in Hwp.
  destruct (Erase this position (mkWorld o h t l)) as [p w'|e w'|]; [eauto| |done].
  destruct Hwp as (k & ws & Hk & Hnma & _). destruct Hcase; [congruence|lia].
Qed.

Lemma delete_last (xs : list T) n : length xs = S n -> delete n xs = take n xs.
Proof.
  revert n. induction xs as [|z xs IH]; intros [|n] Hl; simpl in *; try lia.
  - destruct xs; [done|simpl in Hl; lia].
  - f_equal. apply IH. lia.
Qed.

(** X8 -- erasing the last element is [PopBack]: both calls return and
    lead to the same world. *)
Theorem Erase_last_is_PopBack w this v xs :
  objs w !! this = Some v -> vec_repr (heap w) v xs -> 0 < size_ v ->
  exists p w', Erase this (size_ v - 1) w = Ret p w' /\ PopBack this w = Ret tt w'.
Proof.
  intros Hthis Hrepr Hpos. destruct w as [o h t l]. simpl in *.
  pose proof Hrepr as (Hlen & Hcap & Hblk).
  destruct (wp_Erase this (size_ v - 1) v xs o h t l Hthis Hrepr ltac:(lia))
    as (a & Ha & Hwp).
  destruct (wp_PopBack this v xs o h t l Hthis Hrepr Hpos) as (a' & Ha' & Hwp').
  assert (a' = a) as -> by congruence.
  destruct (wp_returns _ _ _ Hwp') as ([] & w2 & Hpop & ->).
  unfold wp in Hwp.
  destruct (Erase this (size_ v - 1) (mkWorld o h t l)) as [p w'|e w'|]; [| |done].
  - destruct Hwp as (_ & _ & ->). exists p. eexists. split; [done|].
    rewrite Hpop. f_equal. f_equal; [|lia].
    f_equal. f_equal.
    symmetry. apply delete_last. lia.
  - destruct Hwp as (k & ws & Hk & _). lia.
Qed.

(** X9 -- [operator[]] with an index below [size] changes nothing and
    designates the slot of that index in the vector's buffer, which holds
    the element of that index; with an index from [size] on, the
    assertion fails. *)
Theorem Vector_at_element w this v xs index :
  objs w !! this = Some v -> vec_repr (heap w) v xs ->
  (forall x, xs !! index = Some x ->
     Vector_at this index w = Ret (Ptr (buffer_ (data_ v)) index) w /\
     load (Ptr (buffer_ (data_ v)) index) w = Ret x w) /\
  (size_ v <= index -> Vector_at this index w = Undef).
Proof.
  intros Hthis Hrepr. pose proof Hrepr as (Hlen & Hcap & Hblk).
  unfold Vector_at, bind, get_obj. rewrite Hthis. split.
  - intros x Hx. pose proof (lookup_lt_Some _ _ _ Hx) as Hlt.
    rewrite (proj2 (Nat.ltb_lt _ _)) by lia.
    unfold RawMemory_at. rewrite (proj2 (Nat.ltb_lt _ _)) by lia.
    split; [done|].
    destruct (vec_repr_nonempty _ _ _ Hrepr ltac:(lia)) as (a & Ha & Hh).
    rewrite Ha. unfold load, bind, slot. simpl. rewrite Hh.
    by rewrite (full_blk_lookup_live _ _ _ _ Hx).
  - intros Hge. by rewrite (proj2 (Nat.ltb_ge _ _)) by done.
Qed.

(** *** Exceptions come from the element type or the allocator only *)

Section neutral.

Hypothesis Hnever : forall i, throws i = false.

Lemma nr_ret {A} (a : A) : never_raises (ret a).
Proof. by intros w e w'. Qed.

Lemma nr_undef {A} : never_raises (@undef A).
Proof. by intros w e w'. Qed.

Lemma nr_modify f : never_raises (modify f).
Proof. by intros w e w'. Qed.

Lemma nr_bind {A B} (m : M A) (k : A -> M B) :
  never_raises m -> (forall a, never_raises (k a)) -> never_raises (bind m k).
Proof.
  intros Hm Hk w e w'. unfold bind. destruct (m w) as [a w1|e1 w1|] eqn:Hmw; [|by destruct (Hm w e1 w1)|done].
  apply Hk.
Qed.

Lemma nr_catch {A} (m : M A) h : never_raises m -> never_raises (catch m h).
Proof.
  intros Hm w e w'. unfold catch.
  destruct (m w) as [a w1|e1 w1|] eqn:Hmw; [done|by destruct (Hm w e1 w1)|done].
Qed.

Lemma nr_on_unwind {A} (m : M A) c : never_raises m -> never_raises (on_unwind m c).
Proof. apply nr_catch. Qed.

Lemma nr_may_throw nothrow e : never_raises (may_throw nothrow e).
Proof.
  intros w e' w'. unfold may_throw. destruct nothrow; [done|]. by rewrite Hnever.
Qed.

Lemma nr_slot p : never_raises (slot p).
Proof. intros w e w'. unfold slot. by repeat case_match. Qed.

Lemma nr_store p s : never_raises (store p s).
Proof. intros w e w'. unfold store. by repeat case_match. Qed.

Lemma nr_block_addr p : never_raises (block_addr p).
Proof. unfold block_addr. destruct (base p); [apply nr_ret|apply nr_undef]. Qed.

Lemma nr_get_obj this : never_raises (get_obj this).
Proof. intros w e w'. unfold get_obj. by case_match. Qed.

Lemma nr_new_obj v : never_raises (new_obj v).
Proof. by intros w e w'. Qed.

Lemma nr_Deallocate buf : never_raises (Deallocate buf).
Proof. intros w e w'. unfold Deallocate. by repeat case_match. Qed.

Lemma nr_Allocate n : never_raises (Allocate n).
Proof.
  unfold Allocate. destruct (n =? 0); [apply nr_ret|].
  apply nr_bind; [apply nr_may_throw|]. by intros _ w e w'.
Qed.

Ltac nr_step :=
  first
    [ apply nr_ret | apply nr_undef | apply nr_modify | apply nr_may_throw
    | apply nr_slot | apply nr_store | apply nr_block_addr | apply nr_get_obj
    | apply nr_new_obj | apply nr_Deallocate | apply nr_Allocate
    | apply nr_bind | apply nr_catch | apply nr_on_unwind
    | assumption
    | match goal with
      | |- never_raises (if ?c then _ else _) => destruct c
      | |- never_raises (match ?x with _ => _ end) => destruct x
      | |- never_raises _ => fail 1
      | |- forall _, _ => intro
      end ].

Ltac nr := repeat nr_step.

Lemma nr_load p : never_raises (load p).
Proof. unfold load. nr. Qed.

Lemma nr_construct_at p v : never_raises (construct_at p v).
Proof. unfold construct_at, emit. nr. Qed.

Lemma nr_destroy_at p : never_raises (destroy_at p).
Proof. unfold destroy_at, emit. nr; apply nr_load. Qed.

Lemma nr_copy_construct dst src : never_raises (copy_construct dst src).
Proof. unfold copy_construct. nr; first [apply nr_load|apply nr_construct_at]. Qed.

Lemma nr_move_construct dst src : never_raises (move_construct dst src).
Proof. unfold move_construct. nr; first [apply nr_load|apply nr_construct_at]. Qed.

Lemma nr_value_construct dst : never_raises (value_construct dst).
Proof. unfold value_construct. nr; apply nr_construct_at. Qed.

Lemma nr_args_construct via dst v : never_raises (args_construct via dst v).
Proof. unfold args_construct. nr; apply nr_construct_at. Qed.

Lemma nr_copy_assign dst src : never_raises (copy_assign dst src).
Proof. unfold copy_assign. nr; apply nr_load. Qed.

Lemma nr_move_assign dst src : never_raises (move_assign dst src).
Proof. unfold move_assign. nr; apply nr_load. Qed.

Lemma nr_destroy_n first n : never_raises (destroy_n first n).
Proof.
  revert first. induction n as [|n IH]; intros first; simpl; nr;
    first [apply nr_destroy_at|apply IH].
Qed.

Lemma nr_uninitialized_loop ctor first n result built :
  (forall d s, never_raises (ctor d s)) ->
  never_raises (uninitialized_loop ctor first n result built).
Proof.
  intros Hc. revert first built. induction n as [|n IH]; intros first built; simpl;
    nr; first [apply Hc|apply nr_destroy_n|apply IH].
Qed.

Lemma nr_uninitialized_n ctor first n result :
  (forall d s, never_raises (ctor d s)) ->
  never_raises (uninitialized_n ctor first n result).
Proof. intros Hc. unfold uninitialized_n. by apply nr_uninitialized_loop. Qed.

Lemma nr_uninitialized_value_construct_loop first n built :
  never_raises (uninitialized_value_construct_loop first n built).
Proof.
  revert built. induction n as [|n IH]; intros built; simpl; nr;
    first [apply nr_value_construct|apply nr_destroy_n|apply IH].
Qed.

Lemma nr_uninitialized_value_construct_n first n :
  never_raises (uninitialized_value_construct_n first n).
Proof.
  unfold uninitialized_value_construct_n.
  apply nr_uninitialized_value_construct_loop.
Qed.

Lemma nr_copy_n first n result : never_raises (copy_n first n result).
Proof.
  revert first result. induction n as [|n IH]; intros first result; simpl; nr;
    first [apply nr_copy_assign|apply IH].
Qed.

Lemma nr_move_n first n d_first : never_raises (move_n first n d_first).
Proof.
  revert first d_first. induction n as [|n IH]; intros first d_first; simpl; nr;
    first [apply nr_move_assign|apply IH].
Qed.

Lemma nr_move_backward_n first n d_first : never_raises (move_backward_n first n d_first).
Proof.
  induction n as [|n IH]; simpl; nr; first [apply nr_move_assign|apply IH].
Qed.

Lemma nr_MoveIfItsPossible data size new_data :
  never_raises (MoveIfItsPossible data size new_data).
Proof.
  unfold MoveIfItsPossible, uninitialized_move_n, uninitialized_copy_n.
  destruct moves_elements; apply nr_uninitialized_n; intros;
    [apply nr_move_construct|apply nr_copy_construct].
Qed.

Lemma nr_emit ev : never_raises (emit ev).
Proof. apply nr_modify. Qed.

Lemma nr_put_obj this v : never_raises (put_obj this v).
Proof. apply nr_modify. Qed.

Lemma nr_del_obj this : never_raises (del_obj this).
Proof. apply nr_modify. Qed.

Lemma nr_RawMemory_plus r offset : never_raises (RawMemory_plus r offset).
Proof. unfold RawMemory_plus. nr. Qed.

Lemma nr_RawMemory_at r index : never_raises (RawMemory_at r index).
Proof. unfold RawMemory_at. nr. Qed.

Lemma nr_RawMemory_ctor n : never_raises (RawMemory_ctor n).
Proof. unfold RawMemory_ctor. nr. Qed.

Lemma nr_RawMemory_dtor r : never_raises (RawMemory_dtor r).
Proof. apply nr_Deallocate. Qed.

Ltac nr_leaf :=
  first
    [ apply nr_load | apply nr_construct_at | apply nr_destroy_at
    | apply nr_copy_construct | apply nr_move_construct | apply nr_value_construct
    | apply nr_args_construct | apply nr_copy_assign | apply nr_move_assign
    | apply nr_uninitialized_value_construct_n | apply nr_destroy_n | apply nr_copy_n
    | apply nr_move_n | apply nr_move_backward_n | apply nr_MoveIfItsPossible
    | apply nr_emit | apply nr_put_obj | apply nr_del_obj
    | apply nr_RawMemory_plus | apply nr_RawMemory_at
    | apply nr_RawMemory_ctor | apply nr_RawMemory_dtor
    | (apply nr_uninitialized_n; intros;
       first [apply nr_copy_construct|apply nr_move_construct]) ].

Ltac nr_all := repeat first [nr_leaf | nr_step].

Lemma nr_Swap this other : never_raises (Swap this other).
Proof. unfold Swap. nr_all. Qed.

Lemma nr_Reserve this n : never_raises (Reserve this n).
Proof. unfold Reserve. nr_all. Qed.

Lemma nr_Emplace this index via v : never_raises (Emplace this index via v).
Proof.
  unfold Emplace, EmplaceWithRelocation, EmplaceWithoutRelocation, move_backward.
  nr_all.
Qed.

Lemma nr_Vector_copy_assign this rhs : never_raises (Vector_copy_assign this rhs).
Proof.
  unfold Vector_copy_assign, Vector_dtor_local, DestroyN, uninitialized_copy_n.
  nr_all.
Qed.

Lemma nr_Resize this n : never_raises (Resize this n).
Proof. unfold Resize. repeat first [apply nr_Reserve | nr_leaf | nr_step]. Qed.

Lemma nr_exec op : never_raises (exec op).
Proof.
  destruct op; simpl; unfold returning; apply nr_bind; try (intros; apply nr_ret).
  - apply nr_new_obj.
  - unfold Vector_sized. nr_all.
  - unfold Vector_copy, uninitialized_copy_n. nr_all.
  - unfold Vector_move. repeat first [apply nr_Swap | nr_leaf | nr_step].
  - unfold Vector_dtor, DestroyN. nr_all.
  - apply nr_Vector_copy_assign.
  - unfold Vector_move_assign. destruct (decide (this = rhs)); [apply nr_ret|apply nr_Swap].
  - apply nr_Swap.
  - apply nr_Reserve.
  - apply nr_Resize.
  - unfold Size. nr_all.
  - unfold Capacity. nr_all.
  - unfold Vector_at. nr_all.
  - unfold PushBack, EmplaceBack. repeat first [apply nr_Emplace | nr_leaf | nr_step].
  - unfold EmplaceBack. repeat first [apply nr_Emplace | nr_leaf | nr_step].
  - unfold PopBack. nr_all.
  - apply nr_Emplace.
  - apply nr_Emplace.
  - unfold Erase, std_move. nr_all.
Qed.

End neutral.


(** *** Construction and destruction *)

Lemma returning_Raise_of {A} (f : A -> retval) (m : M A) w e w' :
  m w = Raise e w' -> returning f m w = Raise e w'.
Proof. unfold returning, bind. by intros ->. Qed.

Lemma frame_new_keeps h h' b' :
  frame h h' None b' -> forall c blk, h !! c = Some blk -> h' !! c = Some blk.
Proof.
  intros [Hsame Hnew] c blk Hc. rewrite Hsame; [done|done|].
  intros ->. destruct Hnew as [[=]|[[=]|(a' & [= <-] & Ha')]]. congruence.
Qed.


(** X12 -- the copy constructor: when it returns, a new vector exists that
    holds the elements of [other] in a block of its own, with capacity
    equal to the size of [other] (not to its capacity); [other] and every
    block that existed are as they were.  When it throws, no vector has
    been created and the heap is as it was.  It returns when nothing
    throws and the bytes of the copy do not wrap. *)
Theorem Vector_copy_is_deep w other ov ys :
  objs w !! other = Some ov -> vec_repr (heap w) ov ys ->
  (forall id w', Vector_copy other w = Ret id w' ->
     objs w !! id = None /\
     exists v', objs w' = <[id := v']> (objs w) /\
       size_ v' = size_ ov /\ capacity_ (data_ v') = size_ ov /\
       vec_repr (heap w') v' ys /\ vec_repr (heap w') ov ys /\
       distinct (buffer_ (data_ v')) (buffer_ (data_ ov)) /\
       (forall c blk, heap w !! c = Some blk -> heap w' !! c = Some blk)) /\
  (forall e w', Vector_copy other w = Raise e w' ->
     objs w' = objs w /\ heap w' = heap w) /\
  ((forall i, throws i = false) -> fits (size_ ov) ->
     exists id w', Vector_copy other w = Ret id w').
Proof.
  intros Hother Hrepr. destruct w as [o h t l]. simpl in *.
  pose proof (spec_Vector_copy other ov ys o h t l Hother Hrepr) as Hwp.
  unfold spec in Hwp.
  destruct (Vector_copy other (mkWorld o h t l)) as [id w1|e w1|] eqn:Hrun.
  3:{ split; [done|]. split; [done|]. intros _ Hfit.
      rewrite (fits_slots _ Hfit) in Hwp. lia. }
  - split; [|split; [intros e w' Heq; discriminate|eauto]].
    intros id' w' [= <- <-]. destruct Hwp as (-> & v' & Ho & Hs & Hc & Hr & Hfr).
    split; [apply fresh_objs_None|]. exists v'.
    pose proof (frame_new_keeps _ _ _ Hfr) as Hkeep.
    repeat (split; [done|]). split; [|split; [|done]].
    + eapply vec_repr_heap; [exact Hrepr|]. intros c Hc'.
      destruct (vec_repr_block _ _ _ _ Hrepr Hc') as [blk Hblk].
      rewrite Hblk. by apply Hkeep.
    + intros a Hv' Hov.
      destruct (vec_repr_block _ _ _ _ Hrepr Hov) as [blk Hblk].
      destruct Hfr as [_ [Hb|[Hb|(a' & Ha' & Hnone)]]]; congruence.
  - split; [intros id w' Heq; discriminate|]. split.
    + intros e' w' [= <- <-]. done.
    + intros Hnever _.
      destruct (nr_exec Hnever (OpCopy other) (mkWorld o h t l) e w1).
      simpl. by apply returning_Raise_of.
Qed.

(** X13 -- the destructor never throws: the vector is gone from the
    object store, its block is released, and every other block is as it
    was. *)
Theorem Vector_dtor_releases w this v xs :
  objs w !! this = Some v -> vec_repr (heap w) v xs ->
  exists w', Vector_dtor this w = Ret tt w' /\
    objs w' = delete this (objs w) /\
    heap w' = free_blk (buffer_ (data_ v)) (heap w).
Proof.
  intros Hthis Hrepr. destruct w as [o h t l]. simpl in *.
  destruct (wp_returns _ _ _ (wp_Vector_dtor this v xs o h t l Hthis Hrepr))
    as ([] & w' & Heq & Ho & Hh).
  eauto.
Qed.

(** X14 -- a copy that is destroyed leaves no trace: after the copy
    constructor and the destructor of the copy, the object store and the
    heap are those before the copy. *)
Theorem copy_then_destroy w other ov ys id w1 :
  objs w !! other = Some ov -> vec_repr (heap w) ov ys ->
  Vector_copy other w = Ret id w1 ->
  exists w2, Vector_dtor id w1 = Ret tt w2 /\
    objs w2 = objs w /\ heap w2 = heap w.
Proof.
  intros Hother Hrepr Hcopy. destruct w as [o h t l]. simpl in *.
  pose proof (spec_Vector_copy other ov ys o h t l Hother Hrepr) as Hwp.
  unfold spec in Hwp.
  rewrite Hcopy in Hwp. destruct Hwp as (-> & v' & Ho & Hs & Hc & Hr & Hfr).
  destruct w1 as [o1 h1 t1 l1]. simpl in *. subst o1.
  destruct (wp_returns _ _ _ (wp_Vector_dtor (fresh (dom o)) v' ys
              (<[fresh (dom o) := v']> o) h1 t1 l1 (lookup_insert_eq _ _ _) Hr))
    as ([] & w2 & Heq & Ho2 & Hh2).
  exists w2. split; [done|]. rewrite Ho2, Hh2. split.
  - rewrite delete_insert_eq. apply delete_id, fresh_objs_None.
  - destruct Hfr as [Hsame Hnew]. apply map_eq. intros c.
    destruct (buffer_ (data_ v')) as [a'|] eqn:Hb; simpl.
    + destruct Hnew as [[=]|[[=]|(a'' & [= <-] & Hnone)]].
      destruct (decide (c = a')) as [->|Hne]; [by rewrite lookup_delete_eq|].
      rewrite lookup_delete_ne by done. apply Hsame; congruence.
    + by apply Hsame.
Qed.

(** *** Copy assignment without reallocation, [Resize] *)



(** X16 -- [Resize] to fewer elements never throws and uses no tick: the
    elements from the new size on are destroyed, the vector keeps the
    first ones in the buffer it had, with the capacity it had. *)
Theorem Resize_shrinks w this v xs new_size :
  objs w !! this = Some v -> vec_repr (heap w) v xs -> new_size < size_ v ->
  exists w', Resize this new_size w = Ret tt w' /\
    objs w' = <[this := mkVec (data_ v) new_size]> (objs w) /\
    vec_repr (heap w') (mkVec (data_ v) new_size) (take new_size xs) /\
    tick w' = tick w /\
    log w' = log w ++ (EvDestroy (addr_of (buffer_ (data_ v))) <$>
                         seq new_size (size_ v - new_size)).
Proof.
  intros Hthis Hrepr Hlt. destruct w as [o h t l]. simpl in *.
  pose proof Hrepr as (Hlen & Hcap & Hblk).
  assert (Hwp : wp (Resize this new_size) (mkWorld o h t l)
            (fun _ w' =>
               objs w' = <[this := mkVec (data_ v) new_size]> o /\
               vec_repr (heap w') (mkVec (data_ v) new_size) (take new_size xs) /\
               tick w' = t /\
               log w' = l ++ (EvDestroy (addr_of (buffer_ (data_ v))) <$>
                                seq new_size (size_ v - new_size)))
            (fun _ _ => False)); cycle 1.
  { destruct (wp_returns _ _ _ Hwp) as ([] & w' & Heq & HQ). eauto. }
  unfold Resize. apply wp_bind. eapply wp_get_obj; [done|].
  rewrite (proj2 (Nat.ltb_lt _ _) Hlt).
  apply wp_bind. unfold GetAddress, padd. simpl base. simpl off.
  eapply wp_mono;
    [eapply (wp_destroy_n_opt (size_ v - new_size) (buffer_ (data_ v)) new_size);
     [done|apply live_range_full_blk; lia]| |done].
  intros _ w1 ->. apply wp_bind. eapply wp_get_obj; [done|].
  apply wp_put_obj. simpl. split; [done|]. split; [|done].
  rewrite <- Hlen, inserts_truncate by lia.
  apply (vec_repr_upd h v (mkVec (data_ v) new_size)); simpl; try done.
  - rewrite length_take. lia.
  - lia.
  - intros Hb. by eapply vec_repr_null.
Qed.


(** *** Insertion *)

(** X18 -- [Insert] at a position up to [size]: when it returns, the
    vector holds the old elements with the new value at that position,
    those from there on shifted by one; the iterator returned points at
    that position of the buffer the vector now has, and the object there is
    the new value.  The call returns when none of the [size + 2] next
    fallible operations throws and, where the vector has to grow, the
    bytes of the doubled capacity do not wrap. *)
Theorem Insert_places w this vec xs p via v :
  objs w !! this = Some vec -> vec_repr (heap w) vec xs -> p <= size_ vec ->
  (forall it w', Insert this p via v w = Ret it w' ->
     exists v', objs w' = <[this := v']> (objs w) /\ size_ v' = S (size_ vec) /\
       vec_repr (heap w') v' (take p xs ++ v :: drop p xs) /\
       it = Ptr (buffer_ (data_ v')) p /\ load it w' = Ret v w') /\
  (no_throw (tick w) (size_ vec + 2) ->
   (size_ vec = capacity_ (data_ vec) -> fits (grown (size_ vec))) ->
   exists it w', Insert this p via v w = Ret it w').
Proof.
  intros Hthis Hrepr Hp. pose proof Hrepr as (Hlen & _). split.
  - intros it w' Hins. unfold Insert in Hins.
    destruct (Emplace_Ret this p via v vec xs w it w' Hthis Hrepr Hp Hins)
      as (v' & Hobjs & Hsize & Hr & _ & ->).
    exists v'. repeat (split; [done|]).
    pose proof Hr as (Hl' & Hc' & _).
    destruct (vec_repr_nonempty _ _ _ Hr ltac:(lia)) as (a & Ha & Hh).
    rewrite Ha. unfold load, bind, slot. simpl. rewrite Hh.
    rewrite (full_blk_lookup_live _ _ p v); [done|].
    rewrite lookup_app_r by (rewrite length_take; lia).
    rewrite length_take. by replace (p - p `min` length xs) with 0 by lia.
  - intros Hnt Hfits. destruct w as [o h t l]. simpl in *. unfold Insert.
    by eapply Emplace_returns.
Qed.

(** X19 -- an insertion into a vector with spare capacity does not
    reallocate: when it returns, the vector has the buffer and the capacity
    it had, and no other block has changed. *)
Theorem Insert_with_spare_capacity w this vec xs p via v it w' :
  objs w !! this = Some vec -> vec_repr (heap w) vec xs -> p <= size_ vec ->
  size_ vec < capacity_ (data_ vec) ->
  Insert this p via v w = Ret it w' ->
  objs w' = <[this := mkVec (data_ vec) (S (size_ vec))]> (objs w) /\
  it = Ptr (buffer_ (data_ vec)) p /\
  (forall c, buffer_ (data_ vec) <> Some c -> heap w' !! c = heap w !! c).
Proof.
  intros Hthis Hrepr Hp Hspare Hins. destruct w as [o h t l]. simpl in *.
  unfold Insert in Hins. rewrite (Emplace_unfold _ _ _ _ vec) in Hins by done.
  rewrite (proj2 (Nat.eqb_neq _ _)) in Hins by lia.
  destruct (wp_EmplaceWithoutRelocation this p via v vec xs o h t l
              Hthis Hrepr Hp Hspare) as (a & Ha & Hwp).
  unfold wp in Hwp. rewrite Hins in Hwp. destruct Hwp as (-> & _ & ->). simpl.
  rewrite Ha. split; [done|]. split; [done|].
  intros c Hc. apply lookup_insert_ne. congruence.
Qed.

Lemma Emplace_Raise_unchanged this p via v vec xs w e w' :
  objs w !! this = Some vec -> vec_repr (heap w) vec xs -> p <= size_ vec ->
  nothrow_move_constructible = true \/ copy_constructible = true ->
  p = size_ vec \/ nothrow_move_assignable = true ->
  Emplace this p via v w = Raise e w' ->
  objs w' = objs w /\ heap w' = heap w.
Proof.
  intros Hthis Hrepr Hp Htransfer Hshift Hrun. destruct w as [o h t l]. simpl in *.
  pose proof Hrepr as (Hlen & Hcap & Hblk).
  rewrite (Emplace_unfold _ _ _ _ vec) in Hrun by done.
  destruct (Nat.eqb_spec (size_ vec) (capacity_ (data_ vec))) as [Hfull|Hspare].
  - pose proof (spec_EmplaceWithRelocation this p via v vec xs o h t l
                  Hthis Hrepr Hp) as Hwp.
    unfold spec in Hwp. cbv zeta in Hwp. rewrite Hrun in Hwp.
    destruct Hwp as [(_ & _ & ->)|[(_ & _ & _ & _ & ->)|
      (_ & _ & Hnmc & _ & Hcase)]]; [done|done|].
    assert (Hcopy : moves_elements = false).
    { unfold moves_elements. rewrite Hnmc. destruct Htransfer as [? | ->]; [congruence|done]. }
    assert (Hsame : forall m, upd_blk (buffer_ (data_ vec))
                      (src_after m xs (capacity_ (data_ vec))) h = h).
    { intros m. rewrite src_after_copy by done. by apply upd_blk_id. }
    destruct Hcase as [(k & _ & _ & ->)|(k & _ & _ & _ & ->)]; simpl; by rewrite Hsame.
  - destruct (wp_EmplaceWithoutRelocation this p via v vec xs o h t l
                Hthis Hrepr Hp ltac:(lia)) as (a & Ha & Hwp).
    unfold wp in Hwp. rewrite Hrun in Hwp.
    destruct Hwp as (k & _ & _ & Ho & [[_ Hh]|(_ & Hnma & Hlt & _)]); [done|].
    destruct Hshift; [lia|congruence].
Qed.

(** X20 -- [Insert] gives the strong guarantee when the element type can
    be copied or has a [noexcept] move constructor, and the position is the
    end or the move assignment is [noexcept]: whatever the call throws, the
    object store and the heap are those before the call. *)
Theorem Insert_strong_guarantee w this vec xs p via v e w' :
  objs w !! this = Some vec -> vec_repr (heap w) vec xs -> p <= size_ vec ->
  nothrow_move_constructible = true \/ copy_constructible = true ->
  p = size_ vec \/ nothrow_move_assignable = true ->
  Insert this p via v w = Raise e w' ->
  objs w' = objs w /\ heap w' = heap w.
Proof. unfold Insert. apply Emplace_Raise_unchanged. Qed.

(** X21 -- [PushBack] and [EmplaceBack] give the strong guarantee when the
    element type can be copied or has a [noexcept] move constructor:
    whatever the call throws, the object store and the heap are those
    before the call. *)
Theorem PushBack_strong_guarantee w this vec xs op via v e w' :
  objs w !! this = Some vec -> vec_repr (heap w) vec xs ->
  op = OpPushBack this via v \/ op = OpEmplaceBack this via v ->
  nothrow_move_constructible = true \/ copy_constructible = true ->
  exec op w = Raise e w' ->
  objs w' = objs w /\ heap w' = heap w.
Proof.
  intros Hthis Hrepr Hop Htransfer Hrun.
  assert (Hback : EmplaceBack this via v w = Raise e w').
  { destruct Hop as [-> | ->]; simpl in Hrun; apply returning_Raise in Hrun; [|done].
    unfold PushBack, bind in Hrun.
    destruct (EmplaceBack this via v w) as [p w1|e1 w1|]; [done| |done].
    by injection Hrun as -> ->. }
  rewrite (EmplaceBack_unfold _ _ _ vec) in Hback by done.
  eapply Emplace_Raise_unchanged; eauto.
Qed.

(** *** [Reserve] beyond the copy path *)

(** X22 -- when the allocation of the new block fails, [Reserve] throws
    [std::bad_alloc] and has changed nothing but the count of fallible
    operations: nothing was allocated, constructed or destroyed. *)
Theorem Reserve_bad_alloc w this n v xs :
  objs w !! this = Some v -> vec_repr (heap w) v xs ->
  capacity_ (data_ v) < n -> throws (tick w) = true ->
  Reserve this n w = Raise bad_alloc (mkWorld (objs w) (heap w) (S (tick w)) (log w)).
Proof.
  intros Hthis Hrepr Hlt Hfail. destruct w as [o h t l]. simpl in *.
  pose proof (spec_Reserve this n v xs o h t l Hthis Hrepr) as Hwp. unfold spec in Hwp.
  destruct (Reserve this n (mkWorld o h t l)) as [[] w'|e w'|].
  - destruct Hwp as [[Hle _]|(_ & Hok & _)]; [lia|congruence].
  - destruct Hwp as [_ [(_ & -> & ->)|(Hok & _)]]; [done|congruence].
  - destruct Hwp as (_ & _ & Hok & _). congruence.
Qed.



(** *** Who owns which block *)

Lemma same_store_trans w1 w2 w3 : same_store w1 w2 -> same_store w2 w3 -> same_store w1 w3.
Proof. intros [? ?] [? ?]. split; congruence. Qed.

Lemma st_ret {A} (a : A) : stable (ret a).
Proof. by intros w. Qed.

Lemma st_undef {A} : stable (@undef A).
Proof. by intros w. Qed.

Lemma st_raise {A} e : stable (@raise A e).
Proof. by intros w. Qed.

Lemma st_emit ev : stable (emit ev).
Proof. by intros w. Qed.

Lemma st_bind {A B} (m : M A) (k : A -> M B) :
  stable m -> (forall a, stable (k a)) -> stable (bind m k).
Proof.
  intros Hm Hk w. specialize (Hm w). unfold bind.
  destruct (m w) as [a w1|e w1|]; simpl in *; [|done|done].
  specialize (Hk a w1). destruct (k a w1); simpl in *; [| |done];
    by eapply same_store_trans.
Qed.

Lemma st_catch {A} (m : M A) h :
  stable m -> (forall e, stable (h e)) -> stable (catch m h).
Proof.
  intros Hm Hh w. specialize (Hm w). unfold catch.
  destruct (m w) as [a w1|e w1|]; simpl in *; [done| |done].
  specialize (Hh e w1). destruct (h e w1); simpl in *; [| |done];
    by eapply same_store_trans.
Qed.

Lemma st_on_unwind {A} (m : M A) c : stable m -> stable c -> stable (on_unwind m c).
Proof.
  intros Hm Hc. apply st_catch; [done|]. intros e.
  apply st_bind; [done|]. intros _. apply st_raise.
Qed.

Lemma st_may_throw nothrow e : stable (may_throw nothrow e).
Proof.
  intros w. unfold may_throw. destruct nothrow; [done|].
  by destruct (throws (tick w)).
Qed.

Lemma st_slot p : stable (slot p).
Proof. intros w. unfold slot. by repeat case_match. Qed.

Lemma st_store p s : stable (store p s).
Proof.
  intros w. unfold store. repeat case_match; try done. simpl.
  split; [done|]. simpl. by apply dom_insert_lookup_L.
Qed.

Lemma st_block_addr p : stable (block_addr p).
Proof. unfold block_addr. destruct (base p); [apply st_ret|apply st_undef]. Qed.

Lemma st_get_obj this : stable (get_obj this).
Proof. intros w. unfold get_obj. by case_match. Qed.

Ltac st_step :=
  first
    [ apply st_ret | apply st_undef | apply st_raise | apply st_emit
    | apply st_may_throw | apply st_slot | apply st_store | apply st_block_addr
    | apply st_get_obj | apply st_bind | apply st_catch | apply st_on_unwind
    | assumption
    | match goal with
      | |- stable (if ?c then _ else _) => destruct c
      | |- stable (match ?x with _ => _ end) => destruct x
      | |- stable _ => fail 1
      | |- forall _, _ => intro
      end ].

Ltac st := repeat st_step.

Lemma st_load p : stable (load p).
Proof. unfold load. st. Qed.

Lemma st_construct_at p v : stable (construct_at p v).
Proof. unfold construct_at. st. Qed.

Lemma st_destroy_at p : stable (destroy_at p).
Proof. unfold destroy_at. st; apply st_load. Qed.

Lemma st_copy_construct dst src : stable (copy_construct dst src).
Proof. unfold copy_construct. st; first [apply st_load|apply st_construct_at]. Qed.

Lemma st_move_construct dst src : stable (move_construct dst src).
Proof. unfold move_construct. st; first [apply st_load|apply st_construct_at]. Qed.

Lemma st_value_construct dst : stable (value_construct dst).
Proof. unfold value_construct. st; apply st_construct_at. Qed.

Lemma st_args_construct via dst v : stable (args_construct via dst v).
Proof. unfold args_construct. st; apply st_construct_at. Qed.

Lemma st_copy_assign dst src : stable (copy_assign dst src).
Proof. unfold copy_assign. st; apply st_load. Qed.

Lemma st_move_assign dst src : stable (move_assign dst src).
Proof. unfold move_assign. st; apply st_load. Qed.

Lemma st_destroy_n first n : stable (destroy_n first n).
Proof.
  revert first. induction n as [|n IH]; intros first; simpl; st;
    first [apply st_destroy_at|apply IH].
Qed.

Lemma st_uninitialized_n ctor first n result :
  (forall d s, stable (ctor d s)) -> stable (uninitialized_n ctor first n result).
Proof.
  intros Hc. unfold uninitialized_n. generalize 0 as built. revert first.
  induction n as [|n IH]; intros first built; simpl; st;
    first [apply Hc|apply st_destroy_n|apply IH].
Qed.

Lemma st_uninitialized_value_construct_n first n :
  stable (uninitialized_value_construct_n first n).
Proof.
  unfold uninitialized_value_construct_n. generalize 0 as built.
  induction n as [|n IH]; intros built; simpl; st;
    first [apply st_value_construct|apply st_destroy_n|apply IH].
Qed.

Lemma st_copy_n first n result : stable (copy_n first n result).
Proof.
  revert first result. induction n as [|n IH]; intros first result; simpl; st;
    first [apply st_copy_assign|apply IH].
Qed.

Lemma st_move_n first n d_first : stable (move_n first n d_first).
Proof.
  revert first d_first. induction n as [|n IH]; intros first d_first; simpl; st;
    first [apply st_move_assign|apply IH].
Qed.

Lemma st_move_backward_n first n d_first : stable (move_backward_n first n d_first).
Proof.
  induction n as [|n IH]; simpl; st; first [apply st_move_assign|apply IH].
Qed.

Lemma st_MoveIfItsPossible data size new_data :
  stable (MoveIfItsPossible data size new_data).
Proof.
  unfold MoveIfItsPossible, uninitialized_move_n, uninitialized_copy_n.
  destruct moves_elements; apply st_uninitialized_n; intros;
    [apply st_move_construct|apply st_copy_construct].
Qed.

Lemma st_RawMemory_plus r offset : stable (RawMemory_plus r offset).
Proof. unfold RawMemory_plus. st. Qed.

Lemma st_RawMemory_at r index : stable (RawMemory_at r index).
Proof. unfold RawMemory_at. st. Qed.

Ltac st_leaf :=
  first
    [ apply st_load | apply st_construct_at | apply st_destroy_at
    | apply st_copy_construct | apply st_move_construct | apply st_value_construct
    | apply st_args_construct | apply st_copy_assign | apply st_move_assign
    | apply st_uninitialized_value_construct_n | apply st_destroy_n | apply st_copy_n
    | apply st_move_n | apply st_move_backward_n | apply st_MoveIfItsPossible
    | apply st_RawMemory_plus | apply st_RawMemory_at
    | (apply st_uninitialized_n; intros;
       first [apply st_copy_construct|apply st_move_construct]) ].

Ltac st_all := repeat first [st_leaf | st_step].

(** The steps that do change the store. *)

Lemma spec_stable {A} (m : M A) w (Q : A -> World -> Prop) (E : exn -> World -> Prop) :
  stable m ->
  (forall a w', same_store w w' -> Q a w') ->
  (forall e w', same_store w w' -> E e w') ->
  spec m w Q E True.
Proof.
  intros Hm HQ HE. specialize (Hm w). unfold spec.
  destruct (m w); simpl in *; auto.
Qed.

Lemma spec_get_obj_any this w (Q : Vector -> World -> Prop) (E : exn -> World -> Prop) :
  (forall v, objs w !! this = Some v -> Q v w) -> spec (get_obj this) w Q E True.
Proof. intros H. unfold spec, get_obj. destruct (objs w !! this); auto. Qed.

Lemma spec_modify f w (Q : unit -> World -> Prop) (E : exn -> World -> Prop) U :
  Q tt (f w) -> spec (modify f) w Q E U.
Proof. done. Qed.

Lemma spec_RawMemory_ctor_any n w (Q : RawMemory -> World -> Prop)
    (E : exn -> World -> Prop) :
  (n = 0 -> Q (mkRaw None n) w) ->
  (forall w1, n <> 0 -> objs w1 = objs w ->
     dom (heap w1) = {[fresh (dom (heap w))]} ∪ dom (heap w) ->
     Q (mkRaw (Some (fresh (dom (heap w)))) n) w1) ->
  (forall e w1, same_store w w1 -> E e w1) ->
  spec (RawMemory_ctor n) w Q E True.
Proof.
  intros H0 HQ HE. unfold spec, RawMemory_ctor, Allocate, bind, may_throw.
  destruct (n =? 0) eqn:Hn.
  - apply Nat.eqb_eq in Hn. simpl. by apply H0.
  - apply Nat.eqb_neq in Hn. destruct (throws (tick w)); simpl.
    + by apply HE.
    + apply HQ; [done|done|]. simpl. by rewrite dom_insert_L.
Qed.

Lemma spec_RawMemory_dtor_any r w (Q : unit -> World -> Prop) (E : exn -> World -> Prop) :
  (forall w1, objs w1 = objs w ->
     dom (heap w1) = dom (heap w) ∖ block_of (buffer_ r) -> Q tt w1) ->
  spec (RawMemory_dtor r) w Q E True.
Proof.
  intros HQ. unfold spec, RawMemory_dtor, Deallocate.
  destruct (buffer_ r) as [a|]; simpl.
  - destruct (heap w !! a); [|done]. apply HQ; [done|]. simpl. by rewrite dom_delete_L.
  - apply HQ; [done|]. simpl. by rewrite difference_empty_L.
Qed.

Lemma spec_guarded {A} (m : M A) r w (Q : A -> World -> Prop) (E : exn -> World -> Prop) :
  stable m ->
  (forall a w1, same_store w w1 -> Q a w1) ->
  (forall e w1, objs w1 = objs w ->
     dom (heap w1) = dom (heap w) ∖ block_of (buffer_ r) -> E e w1) ->
  spec (on_unwind m (RawMemory_dtor r)) w Q E True.
Proof.
  intros Hm HQ HE. specialize (Hm w). unfold spec, on_unwind, catch, bind.
  destruct (m w) as [a w1|e w1|]; simpl in *; [by apply HQ| |done].
  destruct Hm as [Ho Hd].
  assert (Hs : spec (RawMemory_dtor r) w1 (fun _ w2 => E e w2) (fun _ _ => False) True).
  { apply spec_RawMemory_dtor_any. intros w2 Ho2 Hd2. apply HE; congruence. }
  unfold spec in Hs. by destruct (RawMemory_dtor r w1).
Qed.

(** How the buffers and the blocks may change together. *)

Lemma bufs_lookup o id v : o !! id = Some v -> bufs o !! id = Some (buffer_ (data_ v)).
Proof. intros H. unfold bufs. by rewrite lookup_fmap, H. Qed.

Lemma bufs_insert o id v : bufs (<[id := v]> o) = <[id := buffer_ (data_ v)]> (bufs o).
Proof. unfold bufs. by rewrite fmap_insert. Qed.

Lemma bufs_delete o id : bufs (delete id o) = delete id (bufs o).
Proof. unfold bufs. by rewrite fmap_delete. Qed.

Lemma bufs_insert_same o id t v :
  o !! id = Some t -> buffer_ (data_ v) = buffer_ (data_ t) ->
  bufs (<[id := v]> o) = bufs o.
Proof.
  intros Ht Hb. rewrite bufs_insert, Hb. apply insert_id. by apply bufs_lookup.
Qed.

Lemma apart_same B D D' : apart B D -> D ⊆ D' -> apart B D'.
Proof. intros [Hin Hu] Hsub. split; [|done]. intros id a H. apply Hsub. eauto. Qed.

Lemma apart_fresh B D id a' D' :
  apart B D -> a' ∉ D -> a' ∈ D' -> D ⊆ D' -> apart (<[id := Some a']> B) D'.
Proof.
  intros [Hin Hu] Hfresh Ha' Hsub. split.
  - intros i a. rewrite lookup_insert_Some. intros [[_ [= <-]]|[_ H]]; [done|].
    apply Hsub. eauto.
  - intros i j a. rewrite !lookup_insert_Some.
    intros [[? ?]|[? H1]] [[? ?]|[? H2]]; simplify_eq; eauto; destruct Hfresh; eauto.
Qed.

Lemma apart_realloc B D this b a' D' :
  apart B D -> B !! this = Some b -> a' ∉ D -> ({[a']} ∪ D) ∖ block_of b ⊆ D' ->
  apart (<[this := Some a']> B) D'.
Proof.
  intros [Hin Hu] Hthis Hfresh Hsub. split.
  - intros i a. rewrite lookup_insert_Some. intros [[_ [= <-]]|[Hne H]].
    { apply Hsub. apply elem_of_difference. split; [set_solver|].
      destruct b as [a0|]; simpl; [|set_solver].
      intros ->%elem_of_singleton. destruct Hfresh. eauto. }
    apply Hsub. apply elem_of_difference. split; [apply elem_of_union_r; eauto|].
    destruct b as [a0|]; simpl; [|set_solver].
    intros ->%elem_of_singleton. apply Hne. eauto.
  - intros i j a. rewrite !lookup_insert_Some.
    intros [[? ?]|[? H1]] [[? ?]|[? H2]]; simplify_eq; eauto; destruct Hfresh; eauto.
Qed.

Lemma apart_null B D id D' : apart B D -> D ⊆ D' -> apart (<[id := None]> B) D'.
Proof.
  intros [Hin Hu] Hsub. split.
  - intros i a. rewrite lookup_insert_Some. intros [[_ [=]]|[_ H]]. apply Hsub. eauto.
  - intros i j a. rewrite !lookup_insert_Some.
    intros [[_ [=]]|[_ H1]] [[_ [=]]|[_ H2]]. eauto.
Qed.

Lemma apart_dtor B D this b D' :
  apart B D -> B !! this = Some b -> D ∖ block_of b ⊆ D' -> apart (delete this B) D'.
Proof.
  intros [Hin Hu] Hthis Hsub. split.
  - intros i a. rewrite lookup_delete_Some. intros [Hne H].
    apply Hsub. apply elem_of_difference. split; [eauto|].
    destruct b as [a0|]; simpl; [|set_solver].
    intros ->%elem_of_singleton. apply Hne. eauto.
  - intros i j a. rewrite !lookup_delete_Some. intros [_ H1] [_ H2]. eauto.
Qed.

Lemma apart_swap B D i j bi bj :
  apart B D -> B !! i = Some bi -> B !! j = Some bj ->
  apart (<[j := bi]> (<[i := bj]> B)) D.
Proof.
  intros [Hin Hu] Hi Hj. split.
  - intros k a. rewrite !lookup_insert_Some.
    intros [[? ?]|[? [[? ?]|[? H]]]]; simplify_eq; eauto.
  - intros k1 k2 a. rewrite !lookup_insert_Some.
    intros [[? ?]|[? [[? ?]|[? H1]]]] [[? ?]|[? [[? ?]|[? H2]]]];
      simplify_eq; eauto; exfalso; eauto.
Qed.

Lemma spec_new_obj v w (Q : nat -> World -> Prop) (E : exn -> World -> Prop) U :
  Q (fresh (dom (objs w))) (set_objs (<[fresh (dom (objs w)) := v]> (objs w)) w) ->
  spec (new_obj v) w Q E U.
Proof. done. Qed.

Lemma spec_undef {A} w (Q : A -> World -> Prop) (E : exn -> World -> Prop) :
  spec undef w Q E True.
Proof. done. Qed.

Lemma block_added (D : gset nat) a : D ⊆ {[a]} ∪ D.
Proof. apply union_subseteq_r. Qed.

Lemma block_added_in (D : gset nat) a : a ∈ {[a]} ∪ D.
Proof. apply elem_of_union_l. by apply elem_of_singleton. Qed.

Lemma block_added_removed (D : gset nat) a : a ∉ D -> D ⊆ ({[a]} ∪ D) ∖ {[a]}.
Proof.
  intros Ha x Hx. apply elem_of_difference. split; [by apply elem_of_union_r|].
  intros ->%elem_of_singleton. done.
Qed.

Lemma owns_same w w' :
  owns_apart w -> bufs (objs w') = bufs (objs w) -> dom (heap w) ⊆ dom (heap w') ->
  owns_apart w'.
Proof. unfold owns_apart. intros H -> Hsub. by eapply apart_same. Qed.

Lemma owns_same_store w w' : owns_apart w -> same_store w w' -> owns_apart w'.
Proof. intros H [Ho Hd]. eapply owns_same; [done|by rewrite Ho|by rewrite Hd]. Qed.

Ltac own_rw :=
  unfold owns_apart, same_store;
  repeat first
    [ progress simpl
    | match goal with
      | H : same_store _ _ |- _ => destruct H as [? ?]
      | H : objs ?w = _ |- context [objs ?w] => rewrite H
      | H : dom (heap ?w) = _ |- context [dom (heap ?w)] => rewrite H
      end ];
  rewrite ?bufs_insert, ?bufs_delete; simpl.

Ltac own_stable := intros; eapply owns_same_store; [eassumption|]; by own_rw.

(** Each member function keeps the vectors' blocks apart, from any world
    in which they are. *)

Lemma Swap_owns this other w :
  owns_apart w ->
  spec (Swap this other) w (fun _ w' => owns_apart w') (fun _ w' => owns_apart w') True.
Proof.
  intros HO. destruct w as [o h t l].
  destruct (o !! this) as [tv|] eqn:Ht; [destruct (o !! other) as [ov|] eqn:Ho|].
  - eapply wp_spec, wp_mono; [by eapply wp_Swap| |done].
    intros _ w' ->. own_rw. eapply apart_swap; [exact HO| |]; by apply bufs_lookup.
  - unfold spec, Swap, bind, get_obj. simpl. rewrite Ht. simpl. by rewrite Ho.
  - unfold spec, Swap, bind, get_obj. simpl. by rewrite Ht.
Qed.

Lemma construct_new_owns (fill : RawMemory -> M unit) n w :
  (forall d, stable (fill d)) -> owns_apart w ->
  spec (d <- RawMemory_ctor n ;;
        on_unwind (fill d) (RawMemory_dtor d) ;;; new_obj (mkVec d n)) w
    (fun _ w' => owns_apart w') (fun _ w' => owns_apart w') True.
Proof.
  intros Hfill HO. pose proof (is_fresh (dom (heap w))) as Hfresh.
  apply spec_bind, spec_RawMemory_ctor_any.
  - intros _. apply spec_bind, spec_guarded; [done| |].
    + intros _ w1 Hs. apply spec_new_obj. own_rw. by eapply apart_null.
    + intros e w1 Ho1 Hd1. simpl in Hd1. rewrite difference_empty_L in Hd1.
      by eapply owns_same_store.
  - intros w1 _ Ho1 Hd1. apply spec_bind, spec_guarded; [done| |].
    + intros _ w2 Hs. apply spec_new_obj. own_rw.
      eapply apart_fresh; [exact HO|done|apply block_added_in|apply block_added].
    + intros e w2 Ho2 Hd2. eapply owns_same; [exact HO|by own_rw|].
      own_rw. by apply block_added_removed.
  - intros e w1 Hs. by eapply owns_same_store.
Qed.

Lemma Vector_dtor_owns this w :
  owns_apart w ->
  spec (Vector_dtor this) w (fun _ w' => owns_apart w') (fun _ w' => owns_apart w') True.
Proof.
  intros HO. unfold Vector_dtor, DestroyN. apply spec_bind, spec_get_obj_any. intros t Ht.
  apply spec_bind, spec_stable; [apply st_destroy_n| |by own_stable].
  intros _ w1 Hs. apply spec_bind, spec_RawMemory_dtor_any. intros w2 Ho2 Hd2.
  apply spec_modify. own_rw.
  eapply apart_dtor; [exact HO|by apply bufs_lookup|done].
Qed.

Lemma Reserve_owns this n w :
  owns_apart w ->
  spec (Reserve this n) w (fun _ w' => owns_apart w') (fun _ w' => owns_apart w') True.
Proof.
  intros HO. unfold Reserve. apply spec_bind, spec_get_obj_any. intros t Ht.
  destruct (n <=? capacity_ (data_ t)) eqn:Hle; [by apply spec_ret|].
  apply Nat.leb_gt in Hle. pose proof (is_fresh (dom (heap w))) as Hfresh.
  apply spec_bind, spec_RawMemory_ctor_any.
  - intros ->. lia.
  - intros w1 _ Ho1 Hd1.
    apply spec_bind, spec_guarded; [apply st_MoveIfItsPossible| |].
    + intros _ w2 Hs2. apply spec_bind, spec_stable; [apply st_destroy_n| |].
      * intros _ w3 Hs3. apply spec_bind, spec_modify.
        apply spec_RawMemory_dtor_any. intros w4 Ho4 Hd4. own_rw.
        eapply apart_realloc; [exact HO|by apply bufs_lookup|done|done].
      * intros e w3 Hs3. eapply owns_same; [exact HO|by own_rw|]. own_rw.
        apply block_added.
    + intros e w2 Ho2 Hd2. eapply owns_same; [exact HO|by own_rw|]. own_rw.
      by apply block_added_removed.
  - intros e w1 Hs. by eapply owns_same_store.
Qed.

Lemma Resize_owns this n w :
  owns_apart w ->
  spec (Resize this n) w (fun _ w' => owns_apart w') (fun _ w' => owns_apart w') True.
Proof.
  intros HO. unfold Resize. apply spec_bind, spec_get_obj_any. intros t Ht.
  apply spec_bind.
  eapply (spec_mono _ _ (fun _ w' => owns_apart w') _ (fun _ w' => owns_apart w') _ True);
    [| |done|done].
  - destruct (n <? size_ t).
    + apply spec_stable; [apply st_destroy_n| |]; by own_stable.
    + apply spec_bind. eapply spec_mono; [by apply Reserve_owns| |done|done].
      intros ? w1 HO1. cbv beta. apply spec_bind, spec_get_obj_any. intros t1 Ht1.
      apply spec_stable; [apply st_uninitialized_value_construct_n| |]; by own_stable.
  - intros ? w1 HO1. cbv beta. apply spec_bind, spec_get_obj_any. intros t1 Ht1.
    apply spec_modify. eapply owns_same; [exact HO1| |done]. simpl.
    by eapply bufs_insert_same.
Qed.

Lemma Vector_copy_assign_owns this rhs w :
  owns_apart w ->
  spec (Vector_copy_assign this rhs) w
    (fun _ w' => owns_apart w') (fun _ w' => owns_apart w') True.
Proof.
  intros HO. unfold Vector_copy_assign.
  destruct (decide (this = rhs)); [by apply spec_ret|].
  apply spec_bind, spec_get_obj_any. intros t Ht.
  apply spec_bind, spec_get_obj_any. intros r Hr.
  pose proof (is_fresh (dom (heap w))) as Hfresh.
  destruct (capacity_ (data_ t) <? size_ r) eqn:Hlt.
  - apply Nat.ltb_lt in Hlt. apply spec_bind, spec_RawMemory_ctor_any.
    + intros Hz. lia.
    + intros w1 _ Ho1 Hd1.
      apply spec_bind, spec_guarded;
        [apply st_uninitialized_n; intros; apply st_copy_construct| |].
      * intros _ w2 Hs2. apply spec_bind, spec_modify.
        unfold Vector_dtor_local, DestroyN.
        apply spec_bind, spec_stable; [apply st_destroy_n| |].
        -- intros _ w3 Hs3. apply spec_RawMemory_dtor_any. intros w4 Ho4 Hd4. own_rw.
           eapply apart_realloc; [exact HO|by apply bufs_lookup|done|done].
        -- intros e w3 Hs3. own_rw.
           eapply apart_fresh; [exact HO|done|apply block_added_in|apply block_added].
      * intros e w2 Ho2 Hd2. eapply owns_same; [exact HO|by own_rw|]. own_rw.
        by apply block_added_removed.
    + intros e w1 Hs. by eapply owns_same_store.
  - apply spec_bind, spec_stable; [apply st_copy_n| |by own_stable].
    intros _ w1 Hs1.
    apply spec_bind, spec_stable;
      [destruct (size_ r <? size_ t);
         [apply st_destroy_n|apply st_uninitialized_n; intros; apply st_copy_construct]
      | |by own_stable].
    intros _ w2 Hs2. apply spec_modify.
    eapply owns_same; [exact HO| |by own_rw]. own_rw. rewrite <- bufs_insert.
    by eapply bufs_insert_same.
Qed.

Lemma EmplaceWithRelocation_owns this index via v w :
  owns_apart w ->
  spec (EmplaceWithRelocation this index via v) w
    (fun _ w' => owns_apart w') (fun _ w' => owns_apart w') True.
Proof.
  intros HO. unfold EmplaceWithRelocation. apply spec_bind, spec_get_obj_any. intros t Ht.
  pose proof (is_fresh (dom (heap w))) as Hfresh.
  apply spec_bind, spec_RawMemory_ctor_any.
  - intros Hz. destruct (size_ t =? 0) eqn:Hs; [done|]. apply Nat.eqb_neq in Hs. lia.
  - intros w1 _ Ho1 Hd1. apply spec_bind, spec_guarded; [st_all| |].
    + intros _ w2 Hs2. apply spec_bind, spec_stable; [apply st_destroy_n| |].
      * intros _ w3 Hs3. apply spec_bind, spec_modify.
        apply spec_bind, spec_RawMemory_dtor_any. intros w4 Ho4 Hd4. apply spec_ret.
        own_rw. eapply apart_realloc; [exact HO|by apply bufs_lookup|done|done].
      * intros e w3 Hs3. eapply owns_same; [exact HO|by own_rw|]. own_rw.
        apply block_added.
    + intros e w2 Ho2 Hd2. eapply owns_same; [exact HO|by own_rw|]. own_rw.
      by apply block_added_removed.
  - intros e w1 Hs. by eapply owns_same_store.
Qed.

Lemma EmplaceWithoutRelocation_owns this index via v w :
  owns_apart w ->
  spec (EmplaceWithoutRelocation this index via v) w
    (fun _ w' => owns_apart w') (fun _ w' => owns_apart w') True.
Proof.
  intros HO. unfold EmplaceWithoutRelocation, move_backward.
  apply spec_bind, spec_get_obj_any. intros t Ht.
  apply spec_bind, spec_stable; [st_all| |by own_stable].
  intros _ w1 Hs1. apply spec_bind, spec_modify. apply spec_ret.
  eapply owns_same; [exact HO| |by own_rw]. own_rw. rewrite <- bufs_insert.
  by eapply bufs_insert_same.
Qed.

Lemma Emplace_owns this index via v w :
  owns_apart w ->
  spec (Emplace this index via v) w
    (fun _ w' => owns_apart w') (fun _ w' => owns_apart w') True.
Proof.
  intros HO. unfold Emplace. apply spec_bind, spec_get_obj_any. intros t Ht.
  destruct (size_ t <? index); [apply spec_undef|].
  destruct (size_ t =? capacity_ (data_ t));
    [by apply EmplaceWithRelocation_owns|by apply EmplaceWithoutRelocation_owns].
Qed.

Lemma EmplaceBack_owns this via v w :
  owns_apart w ->
  spec (EmplaceBack this via v) w
    (fun _ w' => owns_apart w') (fun _ w' => owns_apart w') True.
Proof.
  intros HO. unfold EmplaceBack. apply spec_bind, spec_get_obj_any. intros t Ht.
  by apply Emplace_owns.
Qed.

Lemma PopBack_owns this w :
  owns_apart w ->
  spec (PopBack this) w (fun _ w' => owns_apart w') (fun _ w' => owns_apart w') True.
Proof.
  intros HO. unfold PopBack. apply spec_bind, spec_get_obj_any. intros t Ht.
  destruct (size_ t =? 0); [apply spec_undef|].
  apply spec_bind, spec_modify.
  assert (HO1 : owns_apart (set_objs (<[this := mkVec (data_ t) (size_ t - 1)]> (objs w)) w)).
  { eapply owns_same; [exact HO| |done]. simpl. by eapply bufs_insert_same. }
  apply spec_stable; [st_all| |]; intros; by eapply owns_same_store.
Qed.

Lemma Erase_owns this position w :
  owns_apart w ->
  spec (Erase this position) w (fun _ w' => owns_apart w') (fun _ w' => owns_apart w') True.
Proof.
  intros HO. unfold Erase, std_move. apply spec_bind, spec_get_obj_any. intros t Ht.
  destruct (size_ t <=? position); [apply spec_undef|].
  apply spec_bind, spec_stable; [st_all| |by own_stable]. intros _ w1 Hs1.
  apply spec_bind, spec_stable; [st_all| |by own_stable]. intros q w2 Hs2.
  apply spec_bind, spec_stable; [st_all| |by own_stable]. intros _ w3 Hs3.
  apply spec_bind, spec_modify. apply spec_ret.
  eapply owns_same; [exact HO| |by own_rw]. own_rw. rewrite <- bufs_insert.
  by eapply bufs_insert_same.
Qed.

Lemma exec_owns op w :
  owns_apart w ->
  outcome_ok (exec op w) (fun _ w' => owns_apart w') (fun _ w' => owns_apart w').
Proof.
  intros HO. eapply (spec_outcome _ _ _ _ True).
  assert (Hret : forall A (f : A -> retval) (m : M A),
    spec m w (fun _ w' => owns_apart w') (fun _ w' => owns_apart w') True ->
    spec (returning f m) w (fun _ w' => owns_apart w') (fun _ w' => owns_apart w') True).
  { intros A f m Hm. unfold returning. apply spec_bind.
    eapply spec_mono; [exact Hm| |done|done]. intros a w' H. by apply spec_ret. }
  assert (Hst : forall A (m : M A), stable m ->
    spec m w (fun _ w' => owns_apart w') (fun _ w' => owns_apart w') True).
  { intros A m Hm. apply spec_stable; [done| |]; intros; by eapply owns_same_store. }
  destruct op; simpl; apply Hret.
  - apply spec_new_obj. own_rw. by eapply apart_null.
  - unfold Vector_sized.
    by apply (construct_new_owns
                (fun d => uninitialized_value_construct_n (GetAddress d) n));
      [intros; apply st_uninitialized_value_construct_n|].
  - unfold Vector_copy. apply spec_bind, spec_get_obj_any. intros o Ho.
    by apply (construct_new_owns
                (fun d => uninitialized_copy_n (GetAddress (data_ o)) (size_ o)
                            (GetAddress d)));
      [intros; apply st_uninitialized_n; intros; apply st_copy_construct|].
  - unfold Vector_move. apply spec_bind, spec_get_obj_any. intros o Ho.
    apply spec_bind, spec_new_obj. apply spec_bind.
    eapply spec_mono; [apply Swap_owns| |done|done].
    + own_rw. by eapply apart_null.
    + intros ? w' H. by apply spec_ret.
  - by apply Vector_dtor_owns.
  - by apply Vector_copy_assign_owns.
  - unfold Vector_move_assign. destruct (decide (this = rhs));
      [by apply spec_ret|by apply Swap_owns].
  - by apply Swap_owns.
  - by apply Reserve_owns.
  - by apply Resize_owns.
  - apply Hst. unfold Size. st.
  - apply Hst. unfold Capacity. st.
  - apply Hst. unfold Vector_at. st_all.
  - unfold PushBack. apply spec_bind.
    eapply spec_mono; [by apply EmplaceBack_owns| |done|done].
    intros ? w' H. by apply spec_ret.
  - by apply EmplaceBack_owns.
  - by apply PopBack_owns.
  - by apply Emplace_owns.
  - by apply Emplace_owns.
  - by apply Erase_owns.
Qed.

Lemma reachable_owns allowed w : reachable allowed w -> owns_apart w.
Proof.
  induction 1 as [|w op r w' _ IH Hex|w op e w' _ IH Hex _].
  - unfold owns_apart, bufs. simpl. rewrite fmap_empty.
    split; intros *; [intros H|intros H _]; by rewrite lookup_empty in H.
  - pose proof (exec_owns op w IH) as H. by rewrite Hex in H.
  - pose proof (exec_owns op w IH) as H. by rewrite Hex in H.
Qed.

(** *** The default constructor; blocks are never shared *)

(** X25 -- the default constructor allocates nothing, and the first
    [PushBack] on the vector it creates allocates one slot: the vector
    then holds the value pushed, with size 1 and capacity 1. *)
Theorem default_then_PushBack w id w0 via v w1 :
  Vector_default w = Ret id w0 -> PushBack id via v w0 = Ret tt w1 ->
  heap w0 = heap w /\ tick w0 = tick w /\
  exists v1, objs w1 !! id = Some v1 /\ size_ v1 = 1 /\
    capacity_ (data_ v1) = 1 /\ vec_repr (heap w1) v1 [v].
Proof.
  intros Hnew Hpush. unfold Vector_default, new_obj in Hnew.
  injection Hnew as <- <-. simpl. split; [done|]. split; [done|].
  set (id := fresh (dom (objs w))) in *.
  set (w0 := set_objs (<[id := Vector_empty]> (objs w)) w) in *.
  assert (Hthis : objs w0 !! id = Some Vector_empty) by apply lookup_insert_eq.
  apply PushBack_Ret in Hpush as [p Hpush].
  rewrite (EmplaceBack_unfold _ _ _ Vector_empty) in Hpush by done.
  destruct (Emplace_Ret id 0 via v Vector_empty [] w0 p w1 Hthis (vec_repr_empty _)
              (Nat.le_refl _) Hpush) as (v1 & Hobjs & Hsize & Hr & Hcap & _).
  exists v1. rewrite Hobjs, lookup_insert_eq. done.
Qed.

(** X26 -- in every world reached by calls of which none lets the
    exception of a move assignment escape an [Insert] or [Emplace], two
    different vectors never own the same block. *)
Theorem reachable_blocks_not_shared w id1 id2 v1 v2 :
  reachable (fun op e => ~ insert_leak op e) w ->
  objs w !! id1 = Some v1 -> objs w !! id2 = Some v2 -> id1 <> id2 ->
  distinct (buffer_ (data_ v1)) (buffer_ (data_ v2)).
Proof.
  intros Hreach H1 H2 Hne a Ha1 Ha2.
  destruct (reachable_owns _ _ Hreach) as [_ Huniq]. apply Hne.
  apply (Huniq id1 id2 a).
  - by rewrite (bufs_lookup _ _ _ H1), Ha1.
  - by rewrite (bufs_lookup _ _ _ H2), Ha2.
Qed.

End Model.

(** * Examples

    The model run on vectors of numbers, with an oracle that names the
    tick at which an operation of the element type throws. *)

Arguments Ret {T A}.
Arguments Raise {T A}.
Arguments Undef {T A}.

(** The vector 1, 2, 3 in a block of three slots; after 4 is appended, in
    a block of six, the old one gone; after [Resize(1)]. *)
Abbreviation full3 := (one_vector vec3 [Some 1; Some 2; Some 3] 0 []).

Abbreviation pushed4 :=
  (one_vector (mkVec (mkRaw (Some 1) 6) 4)
     [Some 1; Some 2; Some 3; Some 4; None; None] 5
     [EvAlloc 1 6; EvConstruct 1 3; EvConstruct 1 0; EvConstruct 1 1;
      EvConstruct 1 2; EvDestroy 0 0; EvDestroy 0 1; EvDestroy 0 2; EvFree 0]).

Abbreviation shrunk1 :=
  (one_vector (mkVec (mkRaw (Some 0) 3) 1) [Some 1; None; None] 0
     [EvDestroy 0 1; EvDestroy 0 2]).

(** Two vectors: 0 holds 5 in one slot, 1 holds 7, 8, 9 in three. *)
Abbreviation two :=
  (mkWorld {[0 := small1; 1 := big3]}
     {[0 := [Some 5]; 1 := [Some 7; Some 8; Some 9]]} 0 []).

(** The calls that build a vector of capacity 3 holding 1 and 2, the world
    they lead to, and what an [Insert] at the front leaves when the first
    move assignment throws. *)
Abbreviation fill2 :=
  [OpDefault; OpReserve 0 3; OpPushBack 0 ByCopy 1; OpPushBack 0 ByCopy 2].

Abbreviation filled2 :=
  (one_vector vec2of3 [Some 1; Some 2; None] 3
     [EvAlloc 0 3; EvConstruct 0 0; EvConstruct 0 1]).

Abbreviation leaked :=
  (one_vector vec2of3 [Some 1; Some 2; Some 2] 5
     [EvAlloc 0 3; EvConstruct 0 0; EvConstruct 0 1; EvTmpCtor;
      EvConstruct 0 2; EvTmpDtor]).

(** A full vector of two elements of a type that can only be moved, and
    what an [Emplace] at the end leaves when the second move throws; a
    moved-from element has the value 0. *)
Abbreviation moved2 :=
  (one_vector vec2 [Some 1; Some 2] 3
     [EvAlloc 0 2; EvConstruct 0 0; EvConstruct 0 1]).

Abbreviation robbed :=
  (one_vector vec2 [Some 0; Some 2] 7
     [EvAlloc 0 2; EvConstruct 0 0; EvConstruct 0 1; EvAlloc 1 4;
      EvConstruct 1 2; EvConstruct 1 0; EvDestroy 1 0; EvDestroy 1 2; EvFree 1]).

Lemma full3_repr : vec_repr (heap full3) vec3 [1; 2; 3].
Proof. repeat split; simpl; lia. Qed.

Lemma two_repr :
  vec_repr (heap two) small1 [5] /\ vec_repr (heap two) big3 [7; 8; 9].
Proof. repeat split; simpl; lia. Qed.

Lemma moved2_repr : vec_repr (heap moved2) vec2 [1; 2].
Proof. repeat split; simpl; lia. Qed.

(** [Reserve(6)] on the vector 1, 2, 3 of a type that is copied: the copy
    of the third element throws. *)
Lemma C2_Reserve_witness :
  Reserve (fun x => x) false true (fails_at 3) 4 0 6 full3 =
  Raise (thrown CopyCtor)
    (mkWorld (objs full3) (heap full3) 4
       [EvAlloc 1 6; EvConstruct 1 0; EvConstruct 1 1;
        EvDestroy 1 0; EvDestroy 1 1; EvFree 1]).
Proof.
  assert (Hfits : fits 4 6) by reflexivity.
  refine (proj1 (proj2 (proj2
    (C2_Reserve_strong_guarantee (fun x => x) false true (fails_at 3) 4
       full3 0 6 vec3 [1; 2; 3] 2 eq_refl full3_repr eq_refl _ eq_refl _ _))) Hfits).
  - simpl. lia.
  - simpl. lia.
  - apply quiet_first_throw; reflexivity.
Defined.

(** [Reserve(10)] on the vector 1, 2, 3. *)
Lemma C3_Reserve_witness :
  exists w', Reserve (fun x => x) false true never 4 0 10 full3 = Ret tt w' /\
    exists v', objs w' !! 0 = Some v' /\ capacity_ (data_ v') = 10 /\
      size_ v' = 3 /\ vec_repr (heap w') v' [1; 2; 3].
Proof.
  assert (Hfits : fits 4 10) by reflexivity.
  destruct (C3_Reserve (fun x => x) false true never 4 full3 0 10 vec3 [1; 2; 3]
              eq_refl full3_repr) as [_ Hgrow].
  destruct Hgrow as (Hpost & Hret & Hroom); [simpl; lia|].
  destruct Hret as [w' Hw']; [exact (Hroom Hfits)|apply quiet_no_throw; reflexivity|].
  exists w'. split; [exact Hw'|].
  destruct (Hpost w' Hw') as (v' & Hv' & Hcap & Hsize & _ & Hrepr).
  exists v'. split; [exact Hv'|]. split; [exact Hcap|]. split; [exact Hsize|].
  exact (Hrepr Hfits).
Defined.

(** [PushBack(4)] on the full vector 1, 2, 3: capacity 3 becomes 6. *)
Lemma C4_growth_witness :
  exists v' a' blk, objs pushed4 !! 0 = Some v' /\
    capacity_ (data_ v') = 1 `max` (2 * capacity_ (data_ vec3)) /\
    buffer_ (data_ v') = Some a' /\ heap full3 !! a' = None /\
    heap pushed4 !! a' = Some blk /\
    length blk = 1 `max` (2 * capacity_ (data_ vec3)) /\
    heap pushed4 !! 0 = None.
Proof.
  destruct (C4_growth_doubles 0 (fun x => x) false true true never 4 full3
              (OpPushBack 0 ByCopy 4) 0 vec3 [1; 2; 3] RVoid pushed4)
    as (v' & a' & blk & xs' & Hv' & Hcap & _ & Ha' & Hnew & Hblk & Hlen & _ & Hold).
  - reflexivity.
  - apply full3_repr.
  - reflexivity.
  - reflexivity.
  - vm_compute. reflexivity.
  - exists v', a', blk. split; [exact Hv'|]. split; [exact Hcap|].
    split; [exact Ha'|]. split; [exact Hnew|]. split; [exact Hblk|].
    split; [exact Hlen|]. exact (Hold 0 eq_refl).
Defined.

(** [Emplace] of 9 into the full vector 1, 2, 3 of a type that is copied:
    at position 2, the copy of the second element of the prefix throws; at
    position 1, the copy of the second element of the suffix.  And
    [Emplace] at the end of the full vector 1, 2 of a type that is moved by
    a constructor that may throw: the second move throws, and the first
    element is left moved-from. *)
Lemma C5_rollback_witness :
  Emplace (fun x => x) false true true (fails_at 3) 4 0 2 ByCopy 9 full3 =
    Raise (thrown CopyCtor)
      (mkWorld (objs full3) (heap full3) 4
         [EvAlloc 1 6; EvConstruct 1 2; EvConstruct 1 0;
          EvDestroy 1 0; EvDestroy 1 2; EvFree 1]) /\
  Emplace (fun x => x) false true true (fails_at 4) 4 0 1 ByCopy 9 full3 =
    Raise (thrown CopyCtor)
      (mkWorld (objs full3) (heap full3) 5
         [EvAlloc 1 6; EvConstruct 1 1; EvConstruct 1 0; EvConstruct 1 2;
          EvDestroy 1 2; EvDestroy 1 0; EvDestroy 1 1; EvFree 1]) /\
  Emplace (fun _ => 0) false false true (fails_at 6) 4 0 2 ByArgs 3 moved2 =
    Raise (thrown MoveCtor) robbed.
Proof.
  assert (Hfits6 : fits 4 6) by reflexivity.
  assert (Hfits4 : fits 4 4) by reflexivity.
  split; [|split].
  - refine (proj2 (proj1 (C5_relocation_rollback (fun x => x) false true true
                     (fails_at 3) 4 full3 0 vec3 [1; 2; 3] 2 ByCopy 9
                     eq_refl full3_repr _ eq_refl eq_refl eq_refl eq_refl) 1 _ _) Hfits6).
    + simpl. lia.
    + simpl. lia.
    + apply quiet_first_throw; reflexivity.
  - refine (proj2 (proj1 (proj2 (C5_relocation_rollback (fun x => x) false true true
                     (fails_at 4) 4 full3 0 vec3 [1; 2; 3] 1 ByCopy 9
                     eq_refl full3_repr _ eq_refl eq_refl eq_refl eq_refl)) 1 _ _ _)
              Hfits6).
    + simpl. lia.
    + simpl. lia.
    + apply quiet_no_throw; reflexivity.
    + apply quiet_first_throw; reflexivity.
  - refine (proj2 (proj1 (C5_relocation_rollback (fun _ => 0) false false true
                     (fails_at 6) 4 moved2 0 vec2 [1; 2] 2 ByArgs 3
                     eq_refl moved2_repr _ eq_refl eq_refl eq_refl eq_refl) 1 _ _) Hfits4).
    + simpl. lia.
    + simpl. lia.
    + apply quiet_first_throw; reflexivity.
Defined.

(** The vector 7, 8, 9 assigned to the vector 5 of capacity 1: with no
    exception, and with the copy of the second element throwing. *)
Lemma C6_copy_assign_witness :
  (exists w', Vector_copy_assign never 4 0 1 two = Ret tt w' /\
     exists v', objs w' !! 0 = Some v' /\ size_ v' = 3 /\
       vec_repr (heap w') v' [7; 8; 9] /\
       objs w' !! 1 = Some big3 /\ vec_repr (heap w') big3 [7; 8; 9]) /\
  (exists w', Vector_copy_assign (fails_at 2) 4 0 1 two = Raise (thrown CopyCtor) w' /\
     objs w' = objs two /\ heap w' = heap two).
Proof.
  assert (Hd : distinct (buffer_ (data_ big3)) (buffer_ (data_ small1)))
    by (intros a H1 H2; simpl in *; congruence).
  assert (Hne : 0 <> 1) by lia.
  assert (Hbig : capacity_ (data_ small1) < size_ big3) by (simpl; lia).
  assert (H0 : objs two !! 0 = Some small1) by reflexivity.
  assert (H1 : objs two !! 1 = Some big3) by reflexivity.
  assert (Hfits : fits 4 (size_ big3)) by reflexivity.
  split.
  - destruct (C6_copy_assign_strong_guarantee never 4 two 0 1 small1 big3 [5] [7; 8; 9]
                Hne H0 H1 (proj1 two_repr) (proj2 two_repr) Hd Hbig)
      as (_ & Hret & _ & Hdoes).
    destruct (Hdoes Hfits) as [w' Hw']; [apply quiet_no_throw; reflexivity|].
    exists w'. split; [exact Hw'|]. apply Hret. exact Hw'.
  - destruct (C6_copy_assign_strong_guarantee (fails_at 2) 4 two 0 1 small1 big3
                [5] [7; 8; 9]
                Hne H0 H1 (proj1 two_repr) (proj2 two_repr) Hd Hbig)
      as (Hraise & _ & Hthrows & _).
    destruct (Hthrows Hfits 1) as [w' Hw'];
      [simpl; lia|reflexivity|apply quiet_first_throw; reflexivity|].
    exists w'. split; [exact Hw'|]. eapply Hraise. exact Hw'.
Defined.

(** [PushBack(4)] and [EmplaceBack(4)] on the vector 1, 2, 3. *)
Lemma C7_append_witness :
  (RVoid = RVoid /\
   exists v', objs pushed4 !! 0 = Some v' /\ size_ v' = 4 /\
     vec_repr (heap pushed4) v' [1; 2; 3; 4]) /\
  (exists v', objs pushed4 !! 0 = Some v' /\ size_ v' = 4 /\
     vec_repr (heap pushed4) v' [1; 2; 3; 4] /\
     RRef (Ptr (Some 1) 3) = RRef (Ptr (buffer_ (data_ v')) 3)).
Proof.
  destruct (C7_append_at_end 0 (fun x => x) false true true never 4 full3 0 vec3
              [1; 2; 3] ByCopy 4 eq_refl full3_repr) as [Hpush Hemplace].
  split.
  - apply (Hpush RVoid pushed4). vm_compute. reflexivity.
  - apply (Hemplace (RRef (Ptr (Some 1) 3)) pushed4). vm_compute. reflexivity.
Defined.

(** [Insert] of 99 at position 1 of the vector 1, 2, 3, then [Erase] there. *)
Lemma C8_roundtrip_witness :
  exists it w1 it' w2,
    Insert (fun x => x) false true true never 4 0 1 ByCopy 99 full3 = Ret it w1 /\
    Erase (fun x => x) true never 0 1 w1 = Ret it' w2 /\
    exists v2, objs w2 !! 0 = Some v2 /\ size_ v2 = 3 /\
      vec_repr (heap w2) v2 [1; 2; 3].
Proof.
  assert (Hp : 1 <= size_ vec3) by (simpl; lia).
  destruct (C8_Insert_then_Erase (fun x => x) false true true never 4 full3 0 vec3
              [1; 2; 3] 1 ByCopy 99 eq_refl full3_repr Hp) as [Hback Hdoes].
  destruct Hdoes as (it & w1 & it' & w2 & Hi & He);
    [intros i; reflexivity|intros _; reflexivity|].
  exists it, w1, it', w2. split; [exact Hi|]. split; [exact He|].
  eapply Hback; [exact Hi|exact He].
Defined.

(** [Resize(1)] on the vector 1, 2, 3 keeps the capacity 3. *)
Lemma C10_capacity_witness :
  exists v', objs shrunk1 !! 0 = Some v' /\
    capacity_ (data_ vec3) <= capacity_ (data_ v').
Proof.
  apply (C10_capacity_never_decreases 0 (fun x => x) false true true never 4 full3
           (OpResize 0 1) 0 vec3 shrunk1).
  - eapply Inv_singleton, full3_repr.
  - reflexivity.
  - reflexivity.
  - left. exists RVoid. vm_compute. reflexivity.
Defined.

(** C1 -- the invariant fails in a reachable world.  The element type has a
    move assignment that may throw.  A vector is created, given capacity 3
    and filled with 1 and 2; [Insert] of 9 at the front then constructs
    slot 2 from slot 1, and the first move assignment of [move_backward]
    throws.  The exception leaves the call before [++size_]: the vector
    has size 2 and a live object in slot 2, which should be raw. *)
Theorem C1_invariant_broken_by_throwing_insert :
  run 0 (fun x => x) true true false (fails_at 4) 4 fill2 no_vector = Some filled2 /\
  live_prefix (heap filled2) vec2of3 /\
  exec 0 (fun x => x) true true false (fails_at 4) 4 (OpInsert 0 0 ByCopy 9) filled2 =
    Raise (thrown MoveAssign) leaked /\
  reachable 0 (fun x => x) true true false (fails_at 4) 4 (fun _ _ => True) leaked /\
  objs leaked !! 0 = Some vec2of3 /\
  heap leaked !! 0 = Some [Some 1; Some 2; Some 2] /\
  ~ live_prefix (heap leaked) vec2of3.
Proof.
  assert (Hrun : run 0 (fun x => x) true true false (fails_at 4) 4 fill2 no_vector =
                 Some filled2)
    by (vm_compute; reflexivity).
  assert (Hex : exec 0 (fun x => x) true true false (fails_at 4) 4
                  (OpInsert 0 0 ByCopy 9) filled2 = Raise (thrown MoveAssign) leaked)
    by (vm_compute; reflexivity).
  split; [exact Hrun|]. split.
  { apply (vec_repr_live_prefix _ _ [1; 2]). repeat split; simpl; lia. }
  split; [exact Hex|]. split.
  { eapply reach_raise; [|exact Hex|exact I].
    eapply run_reachable; [apply reach_init|exact Hrun]. }
  split; [reflexivity|]. split; [reflexivity|].
  intros (_ & blk & Hblk & _ & _ & Hraw).
  simpl in Hblk. injection Hblk as <-.
  specialize (Hraw 2). simpl in Hraw. discriminate Hraw. lia.
Qed.

(** Where C5 fails as the specification words it: the elements are moved
    by a move constructor that may throw.  The full vector 1, 2 of a type
    that cannot be copied, [Emplace] at the end, second move throws.  The
    first element has been moved into the new block and destroyed there;
    the vector is left holding a moved-from element and 2. *)
Lemma C5_relocation_not_restored :
  run 0 (fun _ => 0) false false true never 4
    [OpDefault; OpReserve 0 2; OpPushBack 0 ByMove 1; OpPushBack 0 ByMove 2] no_vector =
    Some moved2 /\
  vec_repr (heap moved2) vec2 [1; 2] /\
  size_ vec2 = capacity_ (data_ vec2) /\
  Emplace (fun _ => 0) false false true (fails_at 6) 4 0 2 ByArgs 3 moved2 =
    Raise (thrown MoveCtor) robbed /\
  objs robbed !! 0 = Some vec2 /\
  vec_repr (heap robbed) vec2 [0; 2] /\
  ~ vec_repr (heap robbed) vec2 [1; 2].
Proof.
  split; [vm_compute; reflexivity|]. split; [apply moved2_repr|].
  split; [reflexivity|]. split; [vm_compute; reflexivity|].
  split; [reflexivity|]. split; [repeat split; simpl; lia|].
  intros (_ & _ & Hblk). simpl in Hblk. discriminate Hblk.
Qed.

(** Where C7 fails as the specification words it: [PushBack] returns, and
    what it returns is no reference. *)
Lemma C7_PushBack_returns_no_reference :
  exec 0 (fun x => x) false true true never 4 (OpPushBack 0 ByCopy 4) full3 =
    Ret RVoid pushed4 /\
  ~ exists p w',
      exec 0 (fun x => x) false true true never 4 (OpPushBack 0 ByCopy 4) full3 =
      Ret (RRef p) w'.
Proof.
  assert (Hex : exec 0 (fun x => x) false true true never 4 (OpPushBack 0 ByCopy 4) full3 =
                Ret RVoid pushed4) by (vm_compute; reflexivity).
  split; [exact Hex|]. intros (p & w' & H). rewrite Hex in H. discriminate H.
Qed.

(** ** Examples for the further properties *)

(** The vector 1, 2, 3 and a copy of it; after [Reserve(6)], with elements
    copied and with elements moved; a vector built by [Vector(2)]. *)
Abbreviation copied3 :=
  (mkWorld {[0 := vec3; 1 := big3]}
     {[0 := [Some 1; Some 2; Some 3]; 1 := [Some 1; Some 2; Some 3]]} 4
     [EvAlloc 1 3; EvConstruct 1 0; EvConstruct 1 1; EvConstruct 1 2]).

Abbreviation reserved6 :=
  (one_vector (mkVec (mkRaw (Some 1) 6) 3)
     [Some 1; Some 2; Some 3; None; None; None] 4
     [EvAlloc 1 6; EvConstruct 1 0; EvConstruct 1 1; EvConstruct 1 2;
      EvDestroy 0 0; EvDestroy 0 1; EvDestroy 0 2; EvFree 0]).

Abbreviation moved6 :=
  (one_vector (mkVec (mkRaw (Some 1) 6) 3)
     [Some 1; Some 2; Some 3; None; None; None] 1
     [EvAlloc 1 6; EvConstruct 1 0; EvConstruct 1 1; EvConstruct 1 2;
      EvDestroy 0 0; EvDestroy 0 1; EvDestroy 0 2; EvFree 0]).

Abbreviation sized2 :=
  (one_vector vec2 [Some 0; Some 0] 3
     [EvAlloc 0 2; EvConstruct 0 0; EvConstruct 0 1]).

Lemma filled2_repr : vec_repr (heap filled2) vec2of3 [1; 2].
Proof. repeat split; simpl; lia. Qed.

Lemma Vector_move_witness :
  Vector_move 0 full3 =
  Ret 1 (mkWorld (<[0 := Vector_empty]> (<[1 := vec3]> (objs full3)))
           (heap full3) 0 []).
Proof. apply (Vector_move_steals_buffer full3 0 vec3). reflexivity. Defined.

Lemma move_assign_witness :
  Vector_move_assign 0 1 two =
  Ret tt (mkWorld (<[1 := small1]> (<[0 := big3]> (objs two))) (heap two) 0 []).
Proof.
  apply (move_assign_exchanges two 0 1 small1 big3); [lia|reflexivity|reflexivity].
Defined.

Lemma Swap_twice_witness : bind (Swap 0 1) (fun _ => Swap 0 1) two = Ret tt two.
Proof. apply (Swap_twice two 0 1 small1 big3); reflexivity. Defined.

Lemma PopBack_witness :
  exists w', PopBack 0 full3 = Ret tt w' /\
    vec_repr (heap w') (mkVec (mkRaw (Some 0) 3) 2) [1; 2].
Proof.
  destruct (PopBack_removes_last full3 0 vec3 [1; 2] 3 eq_refl full3_repr)
    as (w' & Hrun & _ & Hr & _).
  exists w'. split; [exact Hrun|exact Hr].
Defined.

Lemma PushBack_PopBack_witness :
  exists w2 v2, PopBack 0 pushed4 = Ret tt w2 /\
    objs w2 !! 0 = Some v2 /\ size_ v2 = 3 /\
    vec_repr (heap w2) v2 [1; 2; 3] /\ 3 <= capacity_ (data_ v2).
Proof.
  apply (PushBack_then_PopBack (fun x => x) false true true never 4 full3 0 vec3
           [1; 2; 3] ByCopy 4 pushed4).
  - reflexivity.
  - apply full3_repr.
  - vm_compute. reflexivity.
Defined.

Lemma Erase_witness :
  exists p w', Erase (fun x => x) true never 0 1 full3 = Ret p w' /\
    p = Ptr (Some 0) 1 /\ vec_repr (heap w') (mkVec (mkRaw (Some 0) 3) 2) [1; 3].
Proof.
  assert (Hpos : 1 < size_ vec3) by (simpl; lia).
  destruct (Erase_removes (fun x => x) true never full3 0 vec3 [1; 2; 3] 1
              eq_refl full3_repr Hpos) as [Hret _].
  destruct (Erase (fun x => x) true never 0 1 full3) as [p w'|e w'|] eqn:Hrun;
    [|vm_compute in Hrun; discriminate Hrun..].
  destruct (Hret p w' eq_refl) as (Hp & _ & Hr).
  exists p, w'. split; [reflexivity|]. split; [exact Hp|exact Hr].
Defined.

Lemma Erase_does_not_throw_witness :
  exists p w', Erase (fun x => x) false (fails_at 0) 0 2 full3 = Ret p w'.
Proof.
  apply (Erase_does_not_throw (fun x => x) false (fails_at 0) full3 0 vec3 [1; 2; 3] 2).
  - reflexivity.
  - apply full3_repr.
  - simpl. lia.
  - right. reflexivity.
Defined.

Lemma Erase_last_witness :
  exists p w', Erase (fun x => x) false never 0 2 full3 = Ret p w' /\
    PopBack 0 full3 = Ret tt w'.
Proof.
  apply (Erase_last_is_PopBack (fun x => x) false never full3 0 vec3 [1; 2; 3]).
  - reflexivity.
  - apply full3_repr.
  - simpl. lia.
Defined.

Lemma Vector_at_witness :
  Vector_at 0 1 full3 = Ret (Ptr (Some 0) 1) full3 /\
  load (Ptr (Some 0) 1) full3 = Ret 2 full3 /\
  Vector_at 0 3 full3 = Undef.
Proof.
  destruct (Vector_at_element full3 0 vec3 [1; 2; 3] 1 eq_refl full3_repr) as [Hin _].
  destruct (Vector_at_element full3 0 vec3 [1; 2; 3] 3 eq_refl full3_repr) as [_ Hout].
  destruct (Hin 2 eq_refl) as [H1 H2].
  split; [exact H1|]. split; [exact H2|]. apply Hout. simpl. lia.
Defined.


Lemma Vector_copy_witness :
  exists id w', Vector_copy never 4 0 filled2 = Ret id w' /\
    exists v', objs w' !! id = Some v' /\ capacity_ (data_ v') = 2 /\
      vec_repr (heap w') v' [1; 2] /\ vec_repr (heap w') vec2of3 [1; 2].
Proof.
  destruct (Vector_copy_is_deep 0 (fun x => x) false true true never 4 filled2 0
              vec2of3 [1; 2] eq_refl filled2_repr) as (Hret & _ & Hdoes).
  destruct Hdoes as (id & w' & Hrun); [intros i; reflexivity|reflexivity|].
  destruct (Hret id w' Hrun) as (_ & v' & Ho & _ & Hc & Hr & Hr0 & _).
  exists id, w'. split; [exact Hrun|]. exists v'.
  split; [rewrite Ho; apply lookup_insert_eq|].
  split; [exact Hc|]. split; [exact Hr|exact Hr0].
Defined.

Lemma Vector_dtor_witness :
  exists w', Vector_dtor 0 full3 = Ret tt w' /\
    objs w' = delete 0 (objs full3) /\ heap w' = free_blk (Some 0) (heap full3).
Proof. apply (Vector_dtor_releases full3 0 vec3 [1; 2; 3] eq_refl full3_repr). Defined.

Lemma copy_then_destroy_witness :
  exists w2, Vector_dtor 1 copied3 = Ret tt w2 /\
    objs w2 = objs full3 /\ heap w2 = heap full3.
Proof.
  apply (copy_then_destroy never 4 full3 0 vec3 [1; 2; 3] 1 copied3).
  - reflexivity.
  - apply full3_repr.
  - vm_compute. reflexivity.
Defined.


Lemma Resize_shrinks_witness :
  exists w', Resize 0 (fun x => x) false true never 4 0 1 full3 = Ret tt w' /\
    vec_repr (heap w') (mkVec (data_ vec3) 1) [1] /\ tick w' = 0.
Proof.
  assert (Hlt : 1 < size_ vec3) by (simpl; lia).
  destruct (Resize_shrinks 0 (fun x => x) false true never 4 full3 0 vec3 [1; 2; 3] 1
              eq_refl full3_repr Hlt) as (w' & Hrun & _ & Hr & Ht & _).
  exists w'. split; [exact Hrun|]. split; [exact Hr|exact Ht].
Defined.


Lemma Insert_places_witness :
  exists it w', Insert (fun x => x) false true true never 4 0 1 ByCopy 9 full3 = Ret it w' /\
    load it w' = Ret 9 w' /\
    exists v', vec_repr (heap w') v' [1; 9; 2; 3].
Proof.
  assert (Hp : 1 <= size_ vec3) by (simpl; lia).
  destruct (Insert_places (fun x => x) false true true never 4 full3 0 vec3 [1; 2; 3]
              1 ByCopy 9 eq_refl full3_repr Hp) as (Hret & Hdoes).
  destruct Hdoes as (it & w' & Hrun);
    [apply quiet_no_throw; reflexivity|intros _; reflexivity|].
  destruct (Hret it w' Hrun) as (v' & _ & _ & Hr & _ & Hload).
  exists it, w'. split; [exact Hrun|]. split; [exact Hload|]. exists v'. exact Hr.
Defined.

Lemma Insert_with_spare_capacity_witness :
  exists it w', Insert (fun x => x) false true true never 4 0 1 ByCopy 9 filled2 = Ret it w' /\
    objs w' = <[0 := mkVec (data_ vec2of3) 3]> (objs filled2) /\
    it = Ptr (Some 0) 1.
Proof.
  assert (Hp : 1 <= size_ vec2of3) by (simpl; lia).
  assert (Hspare : size_ vec2of3 < capacity_ (data_ vec2of3)) by (simpl; lia).
  destruct (Insert (fun x => x) false true true never 4 0 1 ByCopy 9 filled2)
    as [it w'|e w'|] eqn:Hrun; [|vm_compute in Hrun; discriminate Hrun..].
  destruct (Insert_with_spare_capacity (fun x => x) false true true never 4 filled2 0
              vec2of3 [1; 2] 1 ByCopy 9 it w' eq_refl filled2_repr Hp Hspare Hrun)
    as (Ho & Hit & _).
  exists it, w'. split; [reflexivity|]. split; [exact Ho|exact Hit].
Defined.

Lemma Insert_strong_guarantee_witness :
  exists e w',
    Insert (fun x => x) false true true (fails_at 2) 4 0 3 ByCopy 9 full3 = Raise e w' /\
    objs w' = objs full3 /\ heap w' = heap full3.
Proof.
  assert (Hp : 3 <= size_ vec3) by (simpl; lia).
  destruct (Insert (fun x => x) false true true (fails_at 2) 4 0 3 ByCopy 9 full3)
    as [it w'|e w'|] eqn:Hrun;
    [vm_compute in Hrun; discriminate Hrun| |vm_compute in Hrun; discriminate Hrun].
  exists e, w'. split; [reflexivity|].
  apply (Insert_strong_guarantee (fun x => x) false true true (fails_at 2) 4 full3 0
           vec3 [1; 2; 3] 3 ByCopy 9 e w' eq_refl full3_repr Hp).
  - right. reflexivity.
  - left. reflexivity.
  - exact Hrun.
Defined.

Lemma PushBack_strong_guarantee_witness :
  exists e w',
    exec 0 (fun x => x) false true true (fails_at 2) 4 (OpPushBack 0 ByCopy 9) full3 =
      Raise e w' /\
    objs w' = objs full3 /\ heap w' = heap full3.
Proof.
  destruct (exec 0 (fun x => x) false true true (fails_at 2) 4 (OpPushBack 0 ByCopy 9) full3)
    as [r w'|e w'|] eqn:Hrun;
    [vm_compute in Hrun; discriminate Hrun| |vm_compute in Hrun; discriminate Hrun].
  exists e, w'. split; [reflexivity|].
  apply (PushBack_strong_guarantee 0 (fun x => x) false true true (fails_at 2) 4 full3 0
           vec3 [1; 2; 3] (OpPushBack 0 ByCopy 9) ByCopy 9 e w' eq_refl full3_repr).
  - left. reflexivity.
  - right. reflexivity.
  - exact Hrun.
Defined.

Lemma Reserve_bad_alloc_witness :
  Reserve (fun x => x) false true (fails_at 0) 4 0 6 full3 =
  Raise bad_alloc (mkWorld (objs full3) (heap full3) 1 []).
Proof.
  apply (Reserve_bad_alloc (fun x => x) false true (fails_at 0) 4 full3 0 6 vec3 [1; 2; 3]).
  - reflexivity.
  - apply full3_repr.
  - simpl. lia.
  - reflexivity.
Defined.




Lemma default_then_PushBack_witness :
  exists v1,
    objs (one_vector (mkVec (mkRaw (Some 0) 1) 1) [Some 7] 2
            [EvAlloc 0 1; EvConstruct 0 0]) !! 0 = Some v1 /\
    size_ v1 = 1 /\ capacity_ (data_ v1) = 1.
Proof.
  destruct (default_then_PushBack (fun x => x) false true true never 4 no_vector 0
              (one_vector Vector_empty [] 0 []) ByCopy 7
              (one_vector (mkVec (mkRaw (Some 0) 1) 1) [Some 7] 2
                 [EvAlloc 0 1; EvConstruct 0 0]))
    as (_ & _ & v1 & H1 & Hs & Hc & _).
  - vm_compute. reflexivity.
  - vm_compute. reflexivity.
  - exists v1. split; [exact H1|]. split; [exact Hs|exact Hc].
Defined.

(** The vector built by [Vector(2)] and a copy of it. *)
Abbreviation sized2_copied :=
  (mkWorld {[0 := vec2; 1 := mkVec (mkRaw (Some 1) 2) 2]}
     {[0 := [Some 0; Some 0]; 1 := [Some 0; Some 0]]} 6
     [EvAlloc 0 2; EvConstruct 0 0; EvConstruct 0 1;
      EvAlloc 1 2; EvConstruct 1 0; EvConstruct 1 1]).

Lemma reachable_blocks_witness :
  objs sized2_copied !! 1 = Some (mkVec (mkRaw (Some 1) 2) 2) /\
  distinct (buffer_ (data_ vec2)) (Some 1).
Proof.
  split; [reflexivity|].
  apply (reachable_blocks_not_shared 0 (fun x => x) false true true never 4
           sized2_copied 0 1 vec2 (mkVec (mkRaw (Some 1) 2) 2)).
  - eapply reach_ret with (op := OpCopy 0) (r := RObj 1);
      [eapply reach_ret with (op := OpSized 2) (r := RObj 0); [apply reach_init|]|].
    + instantiate (1 := sized2). vm_compute. reflexivity.
    + vm_compute. reflexivity.
  - reflexivity.
  - reflexivity.
  - lia.
Defined.
